(** * range-list: an AVL tree of intensity breakpoints and the range list on top

    Shallow embedding of [AVLTree.js] and [RangeList.js].

    Numbers.  A finite JavaScript number (an IEEE double) is modelled by the
    integer that counts it in a fixed unit: with the unit 2^-1074 every
    finite double is such an integer, and with the unit 1 the integers of the
    examples stand for themselves.  In either reading the doubles are the
    integers with at most 53 significant bits, comparisons are exact, and
    [+] and [-] give the exact result rounded to 53 significant bits, to the
    nearest and to even on a tie ([js_add], [js_sub]).  Cached heights are
    small integers and never round.  NaN, infinities (so overflow) and the
    sign of zero are outside the model.

    Nodes.  A JavaScript node is either [null] or an object
    [{ key, value, height, left, right }].  Every node has exactly one
    owner (its parent, or the tree for the root), so the in-place field
    writes of the source are modelled by rebuilding the node.

    Errors.  The only way the source can fail is by reading a field of
    [null] (a [TypeError]) inside a rotation or [_findMinNode]; such code
    returns [option], with [None] standing for the exception. *)

From Stdlib Require Import ZArith List Lia Bool Sorted Permutation.
Import ListNotations.
Local Open Scope Z_scope.

#[local] Arguments Z.add : simpl never.
#[local] Arguments Z.sub : simpl never.
#[local] Arguments Z.max : simpl never.
#[local] Arguments Z.mul : simpl never.
#[local] Arguments Z.pow : simpl never.

(** ** A small error monad *)

Definition bind {A B : Type} (m : option A) (f : A -> option B) : option B :=
  match m with
  | Some a => f a
  | None => None
  end.

Notation "x <- m ;; k" := (bind m (fun x => k))
  (at level 61, m at next level, right associativity).

(** A [for (const x of xs)] loop over a state [s], whose body may throw. *)
Fixpoint for_of {S X : Type} (body : S -> X -> option S) (xs : list X) (s : S)
  : option S :=
  match xs with
  | [] => Some s
  | x :: xs' => s' <- body s x ;; for_of body xs' s'
  end.

(** ** JavaScript numbers *)

(** A non-negative integer rounded to 53 significant bits, to the nearest
    and to the even significand on a tie. *)
Definition round_nat53 (m : Z) : Z :=
  if m <? 2 ^ 53 then m
  else
    let e := Z.log2 m - 52 in
    let q := m / 2 ^ e in
    let r := m mod 2 ^ e in
    let half := 2 ^ (e - 1) in
    (if (r <? half) || ((r =? half) && Z.even q) then q else q + 1) * 2 ^ e.

Definition round53 (z : Z) : Z :=
  if z <? 0 then - round_nat53 (- z) else round_nat53 z.

(** [a + b] on doubles: the exact sum, rounded.  The two zero cases are
    IEEE's [0 + b = b] and [a + 0 = a]; on doubles the rounded sum gives the
    same, and they keep [x + 0 = x] on the integers that are not doubles,
    which no caller can pass. *)
Definition js_add (a b : Z) : Z :=
  if a =? 0 then b else if b =? 0 then a else round53 (a + b).

(** [a - b] on doubles: the exact difference, rounded. *)
Definition js_sub (a b : Z) : Z := round53 (a - b).

(** ** Nodes *)

Inductive node : Type :=
| null : node
| Node (left : node) (key value height : Z) (right : node).

(** JavaScript truthiness of a node reference. *)
Definition truthy (n : node) : bool :=
  match n with
  | null => false
  | Node _ _ _ _ _ => true
  end.

(** ** AVLTree.js *)

Module AVLTree.

Record t : Type := mk { root : node }.

(** [constructor()] *)
Definition new : t := mk null.

Definition _getHeight (n : node) : Z :=
  match n with
  | null => 0
  | Node _ _ _ h _ => h
  end.

Definition _getBalanceFactor (n : node) : Z :=
  match n with
  | null => 0
  | Node l _ _ _ r => _getHeight l - _getHeight r
  end.

(** [_rotateRight(y)]: [x = y.left] must not be [null]. *)
Definition _rotateRight (y : node) : option node :=
  match y with
  | Node (Node xl xk xv _ T2) yk yv _ yr =>
      let y' := Node T2 yk yv (1 + Z.max (_getHeight T2) (_getHeight yr)) yr in
      Some (Node xl xk xv (1 + Z.max (_getHeight xl) (_getHeight y')) y')
  | _ => None
  end.

(** [_rotateLeft(x)]: [y = x.right] must not be [null]. *)
Definition _rotateLeft (x : node) : option node :=
  match x with
  | Node xl xk xv _ (Node T2 yk yv _ yr) =>
      let x' := Node xl xk xv (1 + Z.max (_getHeight xl) (_getHeight T2)) T2 in
      Some (Node x' yk yv (1 + Z.max (_getHeight x') (_getHeight yr)) yr)
  | _ => None
  end.

Definition _balance (n : node) : option node :=
  let balanceFactor := _getBalanceFactor n in
  match n with
  | null => Some null
  | Node l k v h r =>
      if balanceFactor >? 1 then
        n1 <- (if _getBalanceFactor l <? 0
               then l' <- _rotateLeft l ;; Some (Node l' k v h r)
               else Some n) ;;
        _rotateRight n1
      else if balanceFactor <? -1 then
        n1 <- (if _getBalanceFactor r >? 0
               then r' <- _rotateRight r ;; Some (Node l k v h r')
               else Some n) ;;
        _rotateLeft n1
      else Some n
  end.

(** The tail shared by [_insertNode] and [_removeNode]: recompute the
    cached height of a non-null node, then balance it. *)
Definition _updateHeightAndBalance (n : node) : option node :=
  match n with
  | null => Some null
  | Node l k v _ r =>
      _balance (Node l k v (1 + Z.max (_getHeight l) (_getHeight r)) r)
  end.

Fixpoint _insertNode (n : node) (key value : Z) : option node :=
  match n with
  | null => Some (Node null key value 1 null)
  | Node l k v h r =>
      if key <? k then
        l' <- _insertNode l key value ;;
        _updateHeightAndBalance (Node l' k v h r)
      else if key >? k then
        r' <- _insertNode r key value ;;
        _updateHeightAndBalance (Node l k v h r')
      else Some (Node l k value h r)
  end.

(** [_findMinNode(node)]: reads [node.left], so [node] must not be [null]. *)
Fixpoint _findMinNode (n : node) : option node :=
  match n with
  | null => None
  | Node l _ _ _ _ =>
      match l with
      | null => Some n
      | Node _ _ _ _ _ => _findMinNode l
      end
  end.

Fixpoint _removeNode (n : node) (key : Z) : option node :=
  match n with
  | null => Some null
  | Node l k v h r =>
      n1 <- (if key <? k then
               l' <- _removeNode l key ;; Some (Node l' k v h r)
             else if key >? k then
               r' <- _removeNode r key ;; Some (Node l k v h r')
             else if negb (truthy l) || negb (truthy r) then
               Some (if truthy l then l else r)
             else
               successor <- _findMinNode r ;;
               match successor with
               | null => None
               | Node _ sk sv _ _ =>
                   r' <- _removeNode r sk ;; Some (Node l sk sv h r')
               end) ;;
      _updateHeightAndBalance n1
  end.

Fixpoint _findNode (n : node) (key : Z) : node :=
  match n with
  | null => null
  | Node l k _ _ r =>
      if key =? k then n
      else if key <? k then _findNode l key else _findNode r key
  end.

Fixpoint _findLessThan (n : node) (key : Z) (lastLess : node) : node :=
  match n with
  | null => lastLess
  | Node l k _ _ r =>
      if k >=? key then _findLessThan l key lastLess
      else _findLessThan r key n
  end.

Fixpoint _findGreaterThan (n : node) (key : Z) (lastGreater : node) : node :=
  match n with
  | null => lastGreater
  | Node l k _ _ r =>
      if k <=? key then _findGreaterThan r key lastGreater
      else _findGreaterThan l key n
  end.

(** [result] is the array the source pushes onto. *)
Fixpoint _collectKeysInRange (n : node) (fromKey toKey : Z) (result : list Z)
  : list Z :=
  match n with
  | null => result
  | Node l k _ _ r =>
      let result :=
        if (k >=? fromKey) && (k <=? toKey) then result ++ [k] else result in
      let result :=
        if fromKey <? k then _collectKeysInRange l fromKey toKey result
        else result in
      if toKey >? k then _collectKeysInRange r fromKey toKey result
      else result
  end.

Fixpoint _inOrder (n : node) (result : list (Z * Z)) : list (Z * Z) :=
  match n with
  | null => result
  | Node l k v _ r => _inOrder r (_inOrder l result ++ [(k, v)])
  end.

(** [find(key)] followed by the write [node.value = value] on the node it
    returned: the write happens at the end of [_findNode]'s search path. *)
Fixpoint _setValue (n : node) (key value : Z) : node :=
  match n with
  | null => null
  | Node l k v h r =>
      if key =? k then Node l k value h r
      else if key <? k then Node (_setValue l key value) k v h r
      else Node l k v h (_setValue r key value)
  end.

Definition insert (a : t) (key value : Z) : option t :=
  r <- _insertNode (root a) key value ;; Some (mk r).

Definition find (a : t) (key : Z) : node := _findNode (root a) key.

Definition update (a : t) (key value : Z) : t :=
  let n := find a key in
  if truthy n then mk (_setValue (root a) key value) else a.

Definition remove (a : t) (key : Z) : option t :=
  r <- _removeNode (root a) key ;; Some (mk r).

Definition findLessThan (a : t) (key : Z) : node :=
  _findLessThan (root a) key null.

Definition findLessThanOrEqual (a : t) (key : Z) : node :=
  let exact := find a key in
  if truthy exact then exact else findLessThan a key.

Definition findGreaterThan (a : t) (key : Z) : node :=
  _findGreaterThan (root a) key null.

Definition findNearest (a : t) (key : Z) : node :=
  let exact := find a key in
  if truthy exact then exact
  else
    let less := findLessThan a key in
    let greater := findGreaterThan a key in
    match less, greater with
    | null, _ => greater
    | _, null => less
    | Node _ lk _ _ _, Node _ gk _ _ _ =>
        if js_sub key lk <? js_sub gk key then less else greater
    end.

Definition getKeysInRange (a : t) (fromKey toKey : Z) : list Z :=
  _collectKeysInRange (root a) fromKey toKey [].

Definition inOrderTraversal (a : t) : list (Z * Z) := _inOrder (root a) [].

End AVLTree.

(** ** RangeList.js *)

Module RangeList.

Record t : Type := mk { tree : AVLTree.t }.

(** [constructor()] *)
Definition new : t := mk AVLTree.new.

Definition _getIntensityAt (rl : t) (position : Z) : Z :=
  match AVLTree.findLessThanOrEqual (tree rl) position with
  | null => 0
  | Node _ _ v _ _ => v
  end.

Definition _getIntensityBefore (rl : t) (position : Z) : Z :=
  match AVLTree.findLessThan (tree rl) position with
  | null => 0
  | Node _ _ v _ _ => v
  end.

Definition _ensurePointExists (rl : t) (position : Z) : option t :=
  let missing :=
    match AVLTree.findNearest (tree rl) position with
    | null => true
    | Node _ k _ _ _ => negb (k =? position)
    end in
  if missing then
    let intensity := _getIntensityAt rl position in
    a <- AVLTree.insert (tree rl) position intensity ;; Some (mk a)
  else Some rl.

(** One turn of the loop of [_adjustIntensities]. *)
Definition _adjustIntensity (from to amount : Z) (a : AVLTree.t) (position : Z)
  : AVLTree.t :=
  match AVLTree.find a position with
  | null => a
  | Node _ _ v _ _ =>
      if position =? from then AVLTree.update a position (js_add v amount)
      else if position <? to then AVLTree.update a position (js_add v amount)
      else a
  end.

Definition _adjustIntensities (rl : t) (from to amount : Z) : t :=
  let points := AVLTree.getKeysInRange (tree rl) from to in
  mk (fold_left (_adjustIntensity from to amount) points (tree rl)).

Definition _removePointsInRange (rl : t) (from to : Z) : option t :=
  let points := AVLTree.getKeysInRange (tree rl) from to in
  a <- for_of (fun a position =>
                 if (position >? from) && (position <? to)
                 then AVLTree.remove a position
                 else Some a) points (tree rl) ;;
  Some (mk a).

(** The loop [for (let i = points.length - 1; i > 0; i--)] of
    [_cleanupRedundantPoints], started at index [i]; [points[j]] is
    [nth j points (0, 0)]. *)
Fixpoint _redundantFrom (points : list (Z * Z)) (i : nat) (toRemove : list Z)
  : list Z :=
  match i with
  | O => toRemove
  | S j =>
      let toRemove :=
        if snd (nth i points (0, 0)) =? snd (nth j points (0, 0))
        then toRemove ++ [fst (nth i points (0, 0))]
        else toRemove in
      _redundantFrom points j toRemove
  end.

Definition _cleanupRedundantPoints (rl : t) : option t :=
  let points := AVLTree.inOrderTraversal (tree rl) in
  if (length points <=? 1)%nat then Some rl
  else
    let toRemove := [] in
    let toRemove :=
      if snd (nth 0 points (0, 0)) =? 0
      then toRemove ++ [fst (nth 0 points (0, 0))]
      else toRemove in
    let toRemove := _redundantFrom points (length points - 1) toRemove in
    a <- for_of AVLTree.remove toRemove (tree rl) ;;
    Some (mk a).

Definition add (rl : t) (from to amount : Z) : option t :=
  if (from >=? to) || (amount =? 0) then Some rl
  else
    rl <- _ensurePointExists rl from ;;
    rl <- _ensurePointExists rl to ;;
    let rl := _adjustIntensities rl from to amount in
    _cleanupRedundantPoints rl.

Definition set (rl : t) (from to amount : Z) : option t :=
  if from >=? to then Some rl
  else
    let intensityAfterRange := _getIntensityAt rl to in
    rl <- _ensurePointExists rl from ;;
    rl <- _ensurePointExists rl to ;;
    rl <- _removePointsInRange rl from to ;;
    let rl := mk (AVLTree.update (tree rl) from amount) in
    let rl := mk (AVLTree.update (tree rl) to intensityAfterRange) in
    _cleanupRedundantPoints rl.

Definition toArray (rl : t) : list (Z * Z) :=
  AVLTree.inOrderTraversal (tree rl).

End RangeList.

(** ** Call sequences *)

Inductive tree_call : Type :=
| Insert (key value : Z)
| Update (key value : Z)
| Remove (key : Z).

Definition tree_step (a : AVLTree.t) (c : tree_call) : option AVLTree.t :=
  match c with
  | Insert k v => AVLTree.insert a k v
  | Update k v => Some (AVLTree.update a k v)
  | Remove k => AVLTree.remove a k
  end.

(** The tree after the calls [cs], made in order on a fresh tree. *)
Definition tree_after (cs : list tree_call) : option AVLTree.t :=
  for_of tree_step cs AVLTree.new.

Inductive list_call : Type :=
| Add (from to amount : Z)
| Set_ (from to amount : Z).

Definition list_step (rl : RangeList.t) (c : list_call) : option RangeList.t :=
  match c with
  | Add f t a => RangeList.add rl f t a
  | Set_ f t a => RangeList.set rl f t a
  end.

(** The range list after the calls [cs], made in order on a fresh one. *)
Definition list_after (cs : list list_call) : option RangeList.t :=
  for_of list_step cs RangeList.new.

(** ** Invariants of the tree *)

(** [P] holds at every node of the tree rooted at [n]. *)
Fixpoint every_node (P : node -> Prop) (n : node) : Prop :=
  match n with
  | null => True
  | Node l _ _ _ r => P n /\ every_node P l /\ every_node P r
  end.

(** The cached height is one more than the larger child height. *)
Definition height_cached (n : node) : Prop :=
  match n with
  | null => True
  | Node l _ _ h r =>
      h = 1 + Z.max (AVLTree._getHeight l) (AVLTree._getHeight r)
  end.

(** The balance factor is -1, 0 or 1. *)
Definition balance_ok (n : node) : Prop :=
  let b := AVLTree._getBalanceFactor n in b = -1 \/ b = 0 \/ b = 1.

(** Both at once, in the shape the proofs use. *)
Fixpoint avl (n : node) : Prop :=
  match n with
  | null => True
  | Node l _ _ h r =>
      avl l /\ avl r /\
      h = 1 + Z.max (AVLTree._getHeight l) (AVLTree._getHeight r) /\
      -1 <= AVLTree._getHeight l - AVLTree._getHeight r <= 1
  end.

(** The (key, value) pairs of a tree, left to right. *)
Fixpoint inorder (n : node) : list (Z * Z) :=
  match n with
  | null => []
  | Node l k v _ r => inorder l ++ (k, v) :: inorder r
  end.

Definition keys (n : node) : list Z := map fst (inorder n).

(** Search-tree order: the keys increase strictly from left to right. *)
Definition bst (n : node) : Prop := StronglySorted Z.lt (keys n).

(** The keys of a tree, each node before its left subtree, and that before
    its right subtree. *)
Fixpoint preorder (n : node) : list Z :=
  match n with
  | null => []
  | Node l k _ _ r => k :: preorder l ++ preorder r
  end.

(** ** The tree seen as a sorted association list

    What [insert], [remove] and [update] do to the in-order sequence. *)

Fixpoint ins (k v : Z) (pts : list (Z * Z)) : list (Z * Z) :=
  match pts with
  | [] => [(k, v)]
  | (k', v') :: rest =>
      if k <? k' then (k, v) :: pts
      else if k >? k' then (k', v') :: ins k v rest
      else (k, v) :: rest
  end.

Definition del (k : Z) (pts : list (Z * Z)) : list (Z * Z) :=
  filter (fun p => negb (fst p =? k)) pts.

Definition upd (k v : Z) (pts : list (Z * Z)) : list (Z * Z) :=
  map (fun p => if fst p =? k then (fst p, v) else p) pts.

(** ** Neighbours of a key *)

(** [p] is the largest of the keys [ks] below [k]. *)
Definition is_pred (ks : list Z) (k p : Z) : Prop :=
  In p ks /\ p < k /\ forall q, In q ks -> q < k -> q <= p.

(** [s] is the smallest of the keys [ks] above [k]. *)
Definition is_succ (ks : list Z) (k s : Z) : Prop :=
  In s ks /\ k < s /\ forall q, In q ks -> k < q -> s <= q.

(** What a node reference shows to a caller: nothing for [null], else the
    key and the value. *)
Definition entry (n : node) : option (Z * Z) :=
  match n with
  | null => None
  | Node _ k v _ _ => Some (k, v)
  end.

(** The contract of [findNearest] on the stored pairs [pts], for a looked-up
    key [k] and a result [res].  [tie_to_lesser] says which neighbour wins
    when both are equally far. *)
Definition nearest_spec (tie_to_lesser : bool) (pts : list (Z * Z)) (k : Z)
  (res : option (Z * Z)) : Prop :=
  let ks := map fst pts in
  (forall e, res = Some e -> In e pts) /\
  (In k ks -> exists v, res = Some (k, v)) /\
  (~ In k ks ->
   (forall p s, is_pred ks k p -> is_succ ks k s ->
      exists v, res = Some (if k - p <? s - k then p
                            else if s - k <? k - p then s
                            else if tie_to_lesser then p else s, v)) /\
   (forall p, is_pred ks k p -> (forall q, In q ks -> q <= k) ->
      exists v, res = Some (p, v)) /\
   (forall s, is_succ ks k s -> (forall q, In q ks -> k <= q) ->
      exists v, res = Some (s, v))) /\
  (pts = [] -> res = None).

(** The test [node.key >= fromKey && node.key <= toKey]. *)
Definition in_range (fromKey toKey k : Z) : bool :=
  (k >=? fromKey) && (k <=? toKey).

(** ** Effective intensity

    The piecewise-constant function a list of breakpoints stands for: [d]
    before the first breakpoint, and from a breakpoint on, its value, up to
    the next one.  On breakpoints with increasing keys this is the value at
    the greatest key not above [x] (lemma [effective_greatest]). *)
Fixpoint effective (d : Z) (pts : list (Z * Z)) (x : Z) : Z :=
  match pts with
  | [] => d
  | (k, v) :: rest => if k <=? x then effective v rest x else d
  end.

(** The effective intensity of a range list at [x]; the default is 0. *)
Definition intensity (rl : RangeList.t) (x : Z) : Z :=
  effective 0 (RangeList.toArray rl) x.

(** [o] is the stored pair with the greatest key not above [x], if any. *)
Definition floor_is (pts : list (Z * Z)) (x : Z) (o : option (Z * Z)) : Prop :=
  match o with
  | None => forall k, In k (map fst pts) -> x < k
  | Some (k, v) =>
      In (k, v) pts /\ k <= x /\
      forall k', In k' (map fst pts) -> k' <= x -> k' <= k
  end.

(** [node ? node.value : 0] *)
Definition value_or_0 (n : node) : Z :=
  match n with
  | null => 0
  | Node _ _ v _ _ => v
  end.

(** ** The range list seen as a breakpoint list

    What the phases of [add] and [set] do to the exported pairs. *)

(** [_adjustIntensities]: the breakpoints in [[from, to)] move by [amount]. *)
Definition bump (from to amount : Z) (p : Z * Z) : Z * Z :=
  if (from <=? fst p) && (fst p <? to) then (fst p, js_add (snd p) amount)
  else p.

(** [_removePointsInRange]: the test [position > from && position < to]. *)
Definition inside (from to k : Z) : bool := (k >? from) && (k <? to).

(** [_cleanupRedundantPoints] on two points or more: a breakpoint goes when
    its value is that of the breakpoint before it, or 0 for the first. *)
Fixpoint compress (d : Z) (pts : list (Z * Z)) : list (Z * Z) :=
  match pts with
  | [] => []
  | (k, v) :: rest =>
      if v =? d then compress v rest else (k, v) :: compress v rest
  end.

(** The keys [compress] drops. *)
Fixpoint redundant (d : Z) (pts : list (Z * Z)) : list Z :=
  match pts with
  | [] => []
  | (k, v) :: rest => (if v =? d then [k] else []) ++ redundant v rest
  end.

(** ** Canonical form *)

Fixpoint no_adjacent_equal (pts : list (Z * Z)) : Prop :=
  match pts with
  | [] => True
  | (_, v1) :: rest =>
      match rest with
      | [] => True
      | (_, v2) :: _ => v1 <> v2
      end /\ no_adjacent_equal rest
  end.

Definition first_nonzero (pts : list (Z * Z)) : Prop :=
  match pts with
  | [] => True
  | (_, v) :: _ => v <> 0
  end.

(** Both at once, with the value [d] in force before the first pair. *)
Fixpoint canon_from (d : Z) (pts : list (Z * Z)) : Prop :=
  match pts with
  | [] => True
  | (_, v) :: rest => v <> d /\ canon_from v rest
  end.

(** [set] on breakpoints that hold [from] and [to]: the interior goes, then
    [amount] is written at [from] and the intensity that was in force at
    [to] is written at [to]. *)
Definition set_breakpoints (from to amount : Z) (pts : list (Z * Z))
  : list (Z * Z) :=
  upd to (effective 0 pts to)
    (upd from amount
       (filter (fun p => negb (inside from to (fst p))) pts)).

(** ** Reachable states *)

(** A search tree that is an AVL tree. *)
Definition wf (a : AVLTree.t) : Prop :=
  bst (AVLTree.root a) /\ avl (AVLTree.root a).

Definition rl_wf (rl : RangeList.t) : Prop := wf (RangeList.tree rl).

Definition rl_inv (rl : RangeList.t) : Prop :=
  rl_wf rl /\ canon_from 0 (RangeList.toArray rl).

(** ** Inserting a key that is already there *)

(** The tree [n] with [value] written at every node whose key is [key],
    and nothing else touched. *)
Fixpoint replace_value (key value : Z) (n : node) : node :=
  match n with
  | null => null
  | Node l k v h r =>
      Node (replace_value key value l) k (if k =? key then value else v) h
           (replace_value key value r)
  end.

(** The tree without its values: shape, keys and cached heights. *)
Fixpoint skeleton (n : node) : node :=
  match n with
  | null => null
  | Node l k _ h r => Node (skeleton l) k 0 h (skeleton r)
  end.

(** How many rotations [_balance n] makes: it follows the branches of
    [AVLTree._balance]. *)
Definition rotations_in_balance (n : node) : nat :=
  match n with
  | null => 0%nat
  | Node l _ _ _ r =>
      if AVLTree._getBalanceFactor n >? 1 then
        (if AVLTree._getBalanceFactor l <? 0 then 2%nat else 1%nat)
      else if AVLTree._getBalanceFactor n <? -1 then
        (if AVLTree._getBalanceFactor r >? 0 then 2%nat else 1%nat)
      else 0%nat
  end.

(** How many rotations [_insertNode n key value] makes: it follows the
    recursion of [AVLTree._insertNode] and counts at each [_balance] call. *)
Fixpoint rotations_in_insert (n : node) (key value : Z) : nat :=
  match n with
  | null => 0%nat
  | Node l k v h r =>
      if key <? k then
        (rotations_in_insert l key value +
        match AVLTree._insertNode l key value with
        | Some l' =>
            rotations_in_balance
              (Node l' k v
                 (1 + Z.max (AVLTree._getHeight l') (AVLTree._getHeight r)) r)
        | None => 0%nat
        end)%nat
      else if key >? k then
        (rotations_in_insert r key value +
        match AVLTree._insertNode r key value with
        | Some r' =>
            rotations_in_balance
              (Node l k v
                 (1 + Z.max (AVLTree._getHeight l) (AVLTree._getHeight r')) r')
        | None => 0%nat
        end)%nat
      else 0%nat
  end.

(** ** Concrete states used to instantiate the theorems *)

Definition tree_20_10_30 : AVLTree.t :=
  Eval vm_compute in
    match tree_after [Insert 20 2; Insert 10 1; Insert 30 3] with
    | Some a => a
    | None => AVLTree.new
    end.

Definition tree_1_3 : AVLTree.t :=
  Eval vm_compute in
    match tree_after [Insert 1 10; Insert 3 30] with
    | Some a => a
    | None => AVLTree.new
    end.

Definition tree_of_search_tests : AVLTree.t :=
  Eval vm_compute in
    match tree_after (map (fun k => Insert k (k * 10)) [10; 20; 30; 40; 50; 25; 35]) with
    | Some a => a
    | None => AVLTree.new
    end.

Definition list_10_30 : RangeList.t :=
  Eval vm_compute in
    match list_after [Add 10 30 1] with
    | Some rl => rl
    | None => RangeList.new
    end.

(** ** AVLTree.test.js: the helpers that validate a tree *)

Definition getHeight (n : node) : Z :=
  match n with
  | null => 0
  | Node _ _ _ h _ => h
  end.

Fixpoint checkTreeBalance (n : node) : bool :=
  match n with
  | null => true
  | Node l _ _ _ r =>
      let leftHeight := getHeight l in
      let rightHeight := getHeight r in
      let balanceFactor := Z.abs (leftHeight - rightHeight) in
      (balanceFactor <=? 1) && checkTreeBalance l && checkTreeBalance r
  end.

Fixpoint countNodes (n : node) : Z :=
  match n with
  | null => 0
  | Node l _ _ _ r => 1 + countNodes l + countNodes r
  end.

(** ** The tree as a finite map

    What a sequence of calls should leave stored, told without any tree:
    a function from keys to values. *)

Definition model_step (m : Z -> option Z) (c : tree_call) : Z -> option Z :=
  match c with
  | Insert k v => fun x => if x =? k then Some v else m x
  | Update k v =>
      fun x => if x =? k
               then match m k with Some _ => Some v | None => None end
               else m x
  | Remove k => fun x => if x =? k then None else m x
  end.

Definition model_after (cs : list tree_call) : Z -> option Z :=
  fold_left model_step cs (fun _ => None).

(** The value [find] shows for a key, if any. *)
Definition lookup (a : AVLTree.t) (k : Z) : option Z :=
  option_map snd (entry (AVLTree.find a k)).

(** ** What a sequence of range calls should do to the intensity *)

Definition intensity_step (f : Z -> Z) (c : list_call) : Z -> Z :=
  match c with
  | Add from to amount =>
      fun p => if (from <=? p) && (p <? to) then js_add (f p) amount else f p
  | Set_ from to amount =>
      fun p => if (from <=? p) && (p <? to) then amount else f p
  end.


Definition list_10_20_30 : RangeList.t :=
  Eval vm_compute in
    match list_after [Add 10 20 1; Add 20 30 1] with
    | Some rl => rl
    | None => RangeList.new
    end.

(** A range list over the tree with the pairs (10, 1), (20, 2), (30, 3), as
    direct calls on the tree leave it. *)
Definition list_on_tree_20_10_30 : RangeList.t := RangeList.mk tree_20_10_30.

(** What [findNearest] returns on the stored pairs [pts], for a looked-up
    key [k] and a result [res]: between two neighbours it takes the
    predecessor when the difference to it, as computed, is below the
    computed difference to the successor, and the successor otherwise. *)
Definition nearest_computed (pts : list (Z * Z)) (k : Z)
  (res : option (Z * Z)) : Prop :=
  let ks := map fst pts in
  (forall e, res = Some e -> In e pts) /\
  (In k ks -> exists v, res = Some (k, v)) /\
  (~ In k ks ->
   (forall p s, is_pred ks k p -> is_succ ks k s ->
      exists v, res = Some (if js_sub k p <? js_sub s k then p else s, v)) /\
   (forall p, is_pred ks k p -> (forall q, In q ks -> q <= k) ->
      exists v, res = Some (p, v)) /\
   (forall s, is_succ ks k s -> (forall q, In q ks -> k <= q) ->
      exists v, res = Some (s, v))) /\
  (pts = [] -> res = None).

(** The distance from [k] to [q] as the code computes it: the greater
    minus the lesser, rounded. *)
Definition js_dist (k q : Z) : Z :=
  if q <? k then js_sub k q else js_sub q k.


Definition tree_far_apart : AVLTree.t :=
  Eval vm_compute in
    match tree_after [Insert (- (2 ^ 53 - 1)) 1; Insert (2 ^ 53 + 2) 2] with
    | Some a => a
    | None => AVLTree.new
    end.

Import AVLTree.

Ltac cmp_cases :=
  match goal with
  | |- context [?a <? ?b] => destruct (Z.ltb_spec a b)
  | |- context [?a >? ?b] => destruct (Z.gtb_spec a b)
  | |- context [?a <=? ?b] => destruct (Z.leb_spec a b)
  | |- context [?a >=? ?b] => destruct (Z.geb_spec a b)
  | |- context [?a =? ?b] => destruct (Z.eqb_spec a b)
  end.

(** ** The scenarios of the test suite *)

Example find_exact : entry (find tree_of_search_tests 30) = Some (30, 300).
Proof. reflexivity. Qed.

Example find_absent : find tree_of_search_tests 15 = null.
Proof. reflexivity. Qed.

Example findLessThan_30 :
  option_map fst (entry (findLessThan tree_of_search_tests 30)) = Some 25.
Proof. reflexivity. Qed.

Example findGreaterThan_30 :
  option_map fst (entry (findGreaterThan tree_of_search_tests 30)) = Some 35.
Proof. reflexivity. Qed.

Example findNearest_29_26 :
  option_map fst (entry (findNearest tree_of_search_tests 29)) = Some 30 /\
  option_map fst (entry (findNearest tree_of_search_tests 26)) = Some 25.
Proof. split; reflexivity. Qed.

Example getKeysInRange_20_40 :
  getKeysInRange tree_of_search_tests 20 40 = [30; 20; 25; 40; 35].
Proof. reflexivity. Qed.

Example traversal_ascending :
  option_map (fun a => map fst (inOrderTraversal a))
    (tree_after (map (fun k => Insert k k) [50; 30; 70; 20; 40; 60; 80]))
  = Some [20; 30; 40; 50; 60; 70; 80].
Proof. reflexivity. Qed.

Example remove_root_with_two_children :
  option_map (fun a => map fst (inOrderTraversal a))
    (tree_after (map (fun k => Insert k k) [10; 5; 15; 3; 7; 13; 17] ++ [Remove 10]))
  = Some [3; 5; 7; 13; 15; 17].
Proof. reflexivity. Qed.

Example scenario_1_2_3 :
  option_map RangeList.toArray (list_after [Add 10 30 1])
  = Some [(10, 1); (30, 0)] /\
  option_map RangeList.toArray (list_after [Add 10 30 1; Add 20 40 1])
  = Some [(10, 1); (20, 2); (30, 1); (40, 0)] /\
  option_map RangeList.toArray
    (list_after [Add 10 30 1; Add 20 40 1; Add 10 40 (-2)])
  = Some [(10, -1); (20, 0); (30, -1); (40, 0)].
Proof. repeat split. Qed.

Example scenario_4_adjacent_merge :
  option_map RangeList.toArray (list_after [Add 10 20 5; Add 20 30 5])
  = Some [(10, 5); (30, 0)].
Proof. reflexivity. Qed.

Example scenario_5 :
  option_map RangeList.toArray (list_after [Add 10 50 1; Set_ 20 40 5])
  = Some [(10, 1); (20, 5); (40, 1); (50, 0)].
Proof. reflexivity. Qed.

Example scenario_6_degenerate :
  option_map RangeList.toArray (list_after [Add 10 10 5]) = Some [] /\
  option_map RangeList.toArray (list_after [Add 10 20 0]) = Some [].
Proof. split; reflexivity. Qed.

Example partial_cancellation :
  option_map RangeList.toArray
    (list_after [Add 10 30 1; Add 20 40 1; Add 10 40 (-1)])
  = Some [(20, 1); (30, 0)] /\
  option_map RangeList.toArray
    (list_after [Add 10 30 1; Add 20 40 1; Add 10 40 (-1); Add 10 40 (-1)])
  = Some [(10, -1); (20, 0); (30, -1); (40, 0)].
Proof. split; reflexivity. Qed.

Example complex_overlap :
  option_map RangeList.toArray
    (list_after [Add 10 50 1; Add 20 40 2; Add 30 35 (-5)])
  = Some [(10, 1); (20, 3); (30, -2); (35, 3); (40, 1); (50, 0)].
Proof. reflexivity. Qed.

Example set_replaces_interior :
  option_map RangeList.toArray
    (list_after [Add 10 50 1; Add 20 40 2; Add 30 35 3; Set_ 25 45 0])
  = Some [(10, 1); (20, 3); (25, 0); (45, 1); (50, 0)].
Proof. reflexivity. Qed.

Example set_at_segment_edge :
  option_map RangeList.toArray (list_after [Add 10 30 1; Set_ 10 20 5])
  = Some [(10, 5); (20, 1); (30, 0)].
Proof. reflexivity. Qed.

Example readme_set :
  option_map RangeList.toArray
    (list_after [Add 10 30 1; Add 20 40 1; Set_ 15 25 5])
  = Some [(10, 1); (15, 5); (25, 2); (30, 1); (40, 0)].
Proof. reflexivity. Qed.

Example cancel_to_empty :
  option_map RangeList.toArray (list_after [Add 10 30 5; Add 10 30 (-5)])
  = Some [].
Proof. reflexivity. Qed.

(** *** Rounding to a double *)

Example round53_examples :
  round53 (2 ^ 53 + 1) = 2 ^ 53 /\ round53 (2 ^ 53 + 2) = 2 ^ 53 + 2 /\
  round53 (2 ^ 53 + 3) = 2 ^ 53 + 4 /\ round53 (2 ^ 54 - 1) = 2 ^ 54 /\
  round53 (- (2 ^ 54 + 2)) = - 2 ^ 54 /\ round53 (2 ^ 54 + 6) = 2 ^ 54 + 8.
Proof. repeat split. Qed.

(** Fractions, in the unit [2^-55]: the doubles 0.1, 0.2 and 0.3 are
    3602879701896397, 7205759403792794 and 10808639105689190 units, and
    [0.1 + 0.2 - 0.3] leaves 2 units, that is [2^-54], as in JavaScript. *)
Example tenths_do_not_cancel :
  js_add 3602879701896397 7205759403792794 = 10808639105689192 /\
  js_add (js_add 3602879701896397 7205759403792794) (- 10808639105689190) = 2 /\
  option_map RangeList.toArray
    (list_after [Add 0 10 3602879701896397; Add 0 10 7205759403792794;
                 Add 0 10 (- 10808639105689190)])
  = Some [(0, 2); (10, 0)].
Proof. repeat split. Qed.

(** A number of 54 bits or more: exponent, significand and remainder. *)
Lemma big_shape m :
  2 ^ 53 <= m ->
  let e := Z.log2 m - 52 in
  1 <= e /\ 0 < 2 ^ e /\ 2 ^ (e - 1) * 2 = 2 ^ e /\
  m = (m / 2 ^ e) * 2 ^ e + m mod 2 ^ e /\
  0 <= m mod 2 ^ e < 2 ^ e /\
  2 ^ 52 <= m / 2 ^ e < 2 ^ 53.
Proof.
  intros Hm e.
  assert (Hpos : 0 < m) by (pose proof (Z.pow_pos_nonneg 2 53); lia).
  destruct (Z.log2_spec m Hpos) as [Hlo Hhi].
  assert (Hl : 53 <= Z.log2 m).
  { apply Z.log2_le_pow2; assumption. }
  assert (He : 1 <= e) by (subst e; lia).
  assert (Hp : 0 < 2 ^ e) by (apply Z.pow_pos_nonneg; lia).
  split; [assumption|]. split; [assumption|]. split.
  { replace e with (Z.succ (e - 1)) at 2 by lia. rewrite Z.pow_succ_r by lia. lia. }
  split; [rewrite Z.mul_comm; apply Z.div_mod; lia|].
  split; [apply Z.mod_pos_bound; assumption|].
  assert (E1 : 2 ^ Z.log2 m = 2 ^ 52 * 2 ^ e).
  { rewrite <- Z.pow_add_r by lia. f_equal. subst e. lia. }
  assert (E2 : 2 ^ Z.succ (Z.log2 m) = 2 ^ 53 * 2 ^ e).
  { rewrite <- Z.pow_add_r by lia. f_equal. subst e. lia. }
  split.
  - apply Z.div_le_lower_bound; [assumption|]. lia.
  - apply Z.div_lt_upper_bound; [assumption|]. lia.
Qed.

Lemma round_nat53_small m : m < 2 ^ 53 -> round_nat53 m = m.
Proof.
  intros H. unfold round_nat53. destruct (Z.ltb_spec m (2 ^ 53)); [reflexivity|lia].
Qed.

Lemma round_nat53_big m :
  2 ^ 53 <= m ->
  let e := Z.log2 m - 52 in
  let q := m / 2 ^ e in
  let r := m mod 2 ^ e in
  round_nat53 m =
  (if (r <? 2 ^ (e - 1)) || ((r =? 2 ^ (e - 1)) && Z.even q) then q else q + 1)
  * 2 ^ e.
Proof.
  intros H. unfold round_nat53. destruct (Z.ltb_spec m (2 ^ 53)); [lia|reflexivity].
Qed.

Lemma round_nat53_between m :
  2 ^ 53 <= m ->
  let e := Z.log2 m - 52 in
  (m / 2 ^ e) * 2 ^ e <= round_nat53 m <= (m / 2 ^ e + 1) * 2 ^ e.
Proof.
  intros H e. rewrite (round_nat53_big m H). fold e.
  destruct (big_shape m H) as (_ & Hp & _). fold e in Hp.
  destruct (_ || _); nia.
Qed.

Lemma round_nat53_mono m1 m2 :
  0 <= m1 -> m1 <= m2 -> round_nat53 m1 <= round_nat53 m2.
Proof.
  intros H0 Hle.
  destruct (Z.lt_ge_cases m2 (2 ^ 53)) as [Hs2|Hb2].
  { rewrite !round_nat53_small by lia. assumption. }
  pose proof (round_nat53_between m2 Hb2) as B2.
  destruct (big_shape m2 Hb2) as (He2 & Hp2 & Hh2 & Hm2 & Hr2 & Hq2).
  set (e2 := Z.log2 m2 - 52) in *.
  assert (Hpow2 : 2 <= 2 ^ e2).
  { change 2 with (2 ^ 1) at 1. apply Z.pow_le_mono_r; lia. }
  destruct (Z.lt_ge_cases m1 (2 ^ 53)) as [Hs1|Hb1].
  { rewrite (round_nat53_small m1 Hs1). cbv zeta in B2.
    assert (2 ^ 53 = 2 ^ 52 * 2) by reflexivity. nia. }
  pose proof (round_nat53_between m1 Hb1) as B1.
  destruct (big_shape m1 Hb1) as (He1 & Hp1 & Hh1 & Hm1 & Hr1 & Hq1).
  set (e1 := Z.log2 m1 - 52) in *.
  assert (Hee : e1 <= e2).
  { subst e1 e2. pose proof (Z.log2_le_mono m1 m2 Hle). lia. }
  destruct (Z.eq_dec e1 e2) as [Heq|Hne].
  - (* same exponent *)
    rewrite (round_nat53_big m1 Hb1), (round_nat53_big m2 Hb2).
    fold e1 e2. rewrite Heq in *. clear B1 B2.
    set (P := 2 ^ e2) in *. set (h := 2 ^ (e2 - 1)) in *.
    assert (Hq : m1 / P <= m2 / P) by (apply Z.div_le_mono; lia).
    destruct (Z.eq_dec (m1 / P) (m2 / P)) as [Eq|Nq].
    + rewrite <- Eq in *.
      assert (Hr : m1 mod P <= m2 mod P) by lia.
      destruct (Z.ltb_spec (m1 mod P) h), (Z.ltb_spec (m2 mod P) h); cbn [orb];
        try lia; try nia.
      * destruct (_ && _); nia.
      * destruct (Z.eqb_spec (m1 mod P) h), (Z.eqb_spec (m2 mod P) h); cbn [andb];
          try lia; try nia.
        destruct (Z.even (m1 / P)); nia.
    + assert (m1 / P + 1 <= m2 / P) by lia.
      destruct (_ || _), (_ || _); nia.
  - (* a smaller exponent *)
    cbv zeta in B1, B2.
    assert (Hpow : 2 ^ e1 * 2 <= 2 ^ e2).
    { replace (2 ^ e1 * 2) with (2 ^ (Z.succ e1)) by (rewrite Z.pow_succ_r; lia).
      apply Z.pow_le_mono_r; lia. }
    assert (2 ^ 53 = 2 ^ 52 * 2) by reflexivity.
    set (P1 := 2 ^ e1) in *. set (P2 := 2 ^ e2) in *.
    set (q1 := m1 / P1) in *. set (q2 := m2 / P2) in *.
    assert (round_nat53 m1 <= 2 ^ 53 * P1) by nia.
    assert (2 ^ 52 * P2 <= round_nat53 m2) by nia.
    nia.
Qed.

Lemma round_nat53_nonneg m : 0 <= m -> 0 <= round_nat53 m.
Proof.
  intros H. change 0 with (round_nat53 0) at 1. apply round_nat53_mono; lia.
Qed.

Lemma round53_mono a b : a <= b -> round53 a <= round53 b.
Proof.
  intros H. unfold round53.
  destruct (Z.ltb_spec a 0), (Z.ltb_spec b 0).
  - pose proof (round_nat53_mono (- b) (- a)). lia.
  - pose proof (round_nat53_nonneg (- a)). pose proof (round_nat53_nonneg b). lia.
  - lia.
  - apply round_nat53_mono; lia.
Qed.

Lemma round53_0 : round53 0 = 0.
Proof. reflexivity. Qed.

Lemma round53_nonneg a : 0 <= a -> 0 <= round53 a.
Proof. intros H. rewrite <- round53_0. apply round53_mono. assumption. Qed.

Lemma js_add_0_l b : js_add 0 b = b.
Proof. reflexivity. Qed.

Lemma js_add_0_r a : js_add a 0 = a.
Proof. unfold js_add. destruct (Z.eqb_spec a 0); [congruence|reflexivity]. Qed.

Lemma js_sub_lt a b c d : js_sub a b < js_sub c d -> a - b < c - d.
Proof.
  unfold js_sub. intros H. destruct (Z.lt_ge_cases (a - b) (c - d)); [assumption|].
  pose proof (round53_mono (c - d) (a - b)). lia.
Qed.

Lemma js_sub_le a b c d : a - b <= c - d -> js_sub a b <= js_sub c d.
Proof. unfold js_sub. apply round53_mono. Qed.

(** *** Heights and balance *)

Lemma avl_height_nonneg n : avl n -> 0 <= _getHeight n.
Proof.
  induction n as [|l IHl k v h r IHr]; simpl; [lia|].
  intros (Hl & Hr & Hh & Hb). specialize (IHl Hl). lia.
Qed.

Lemma every_node_avl n :
  avl n <-> every_node height_cached n /\ every_node balance_ok n.
Proof.
  induction n as [|l IHl k v h r IHr]; simpl; [tauto|].
  unfold balance_ok; simpl. rewrite IHl, IHr.
  split.
  - intros ((?&?) & (?&?) & ? & ?). repeat split; try assumption; lia.
  - intros ((?&?&?) & (?&?&?)). repeat split; try assumption; lia.
Qed.

(** Rebalancing a node whose children are AVL trees with heights at most
    two apart never fails, gives an AVL tree, and loses at most one level;
    if the children are at most one apart, the node is returned as it is. *)
Lemma balance_avl l k v r :
  avl l -> avl r ->
  -2 <= _getHeight l - _getHeight r <= 2 ->
  let m := Z.max (_getHeight l) (_getHeight r) in
  exists n',
    _balance (Node l k v (1 + m) r) = Some n' /\ avl n' /\
    m <= _getHeight n' <= 1 + m /\
    (-1 <= _getHeight l - _getHeight r <= 1 -> n' = Node l k v (1 + m) r).
Proof.
  intros Hl Hr Hd m. subst m. unfold _balance.
  cbn [_getBalanceFactor].
  pose proof (avl_height_nonneg _ Hl) as Pl.
  pose proof (avl_height_nonneg _ Hr) as Pr.
  destruct (Z.gtb_spec (_getHeight l - _getHeight r) 1) as [Hgt|Hle].
  - (* left heavy *)
    destruct l as [|ll lk lv lh lr]; [simpl in *; lia|].
    simpl in Hl. destruct Hl as (Hll & Hlr & Hlh & Hlb).
    pose proof (avl_height_nonneg _ Hll). pose proof (avl_height_nonneg _ Hlr).
    cbn [_getBalanceFactor]. simpl in Hd, Hgt, Pl.
    destruct (Z.ltb_spec (_getHeight ll - _getHeight lr) 0) as [Hlt|Hge].
    + (* left-right *)
      destruct lr as [|ml mk mv mh mr]; [simpl in *; lia|].
      simpl in Hlr. destruct Hlr as (Hml & Hmr & Hmh & Hmb).
      simpl in *. eexists. split; [reflexivity|]. simpl.
      repeat split; try assumption; try lia.
    + (* left-left *)
      simpl. eexists. split; [reflexivity|]. simpl.
      repeat split; try assumption; try lia.
  - destruct (Z.ltb_spec (_getHeight l - _getHeight r) (-1)) as [Hlt|Hge].
    + (* right heavy *)
      destruct r as [|rl rk rv rh rr]; [simpl in *; lia|].
      simpl in Hr. destruct Hr as (Hrl & Hrr & Hrh & Hrb).
      pose proof (avl_height_nonneg _ Hrl). pose proof (avl_height_nonneg _ Hrr).
      cbn [_getBalanceFactor]. simpl in Hd, Hlt, Pr.
      destruct (Z.gtb_spec (_getHeight rl - _getHeight rr) 0) as [Hgt|Hle'].
      * (* right-left *)
        destruct rl as [|ml mk mv mh mr]; [simpl in *; lia|].
        simpl in Hrl. destruct Hrl as (Hml & Hmr & Hmh & Hmb).
        simpl in *. eexists. split; [reflexivity|]. simpl.
        repeat split; try assumption; try lia.
      * (* right-right *)
        simpl. eexists. split; [reflexivity|]. simpl.
        repeat split; try assumption; try lia.
    + eexists. split; [reflexivity|]. simpl.
      repeat split; try assumption; try lia.
Qed.

Lemma updateHeightAndBalance_avl l k v h r :
  avl l -> avl r ->
  -2 <= _getHeight l - _getHeight r <= 2 ->
  let m := Z.max (_getHeight l) (_getHeight r) in
  exists n',
    _updateHeightAndBalance (Node l k v h r) = Some n' /\ avl n' /\
    m <= _getHeight n' <= 1 + m /\
    (-1 <= _getHeight l - _getHeight r <= 1 -> n' = Node l k v (1 + m) r).
Proof. intros. apply balance_avl; assumption. Qed.

(** Insertion never fails on an AVL tree, keeps it one, and grows it by
    at most one level. *)
Lemma insertNode_avl n key value :
  avl n ->
  exists n',
    _insertNode n key value = Some n' /\ avl n' /\
    _getHeight n <= _getHeight n' <= 1 + _getHeight n.
Proof.
  induction n as [|l IHl k v h r IHr]; intros Ha.
  - eexists. split; [reflexivity|]. simpl. lia.
  - destruct Ha as (Hl & Hr & Hh & Hb).
    cbn [_insertNode].
    destruct (Z.ltb_spec key k) as [Hlt|Hge].
    + destruct (IHl Hl) as (l' & -> & Hl' & Hhl'). cbn [bind].
      destruct (updateHeightAndBalance_avl l' k v h r Hl' Hr) as (n' & E & Hn' & Hhn' & Hid);
        [lia|].
      exists n'. split; [exact E|]. split; [assumption|]. simpl.
      assert (Hc : -1 <= _getHeight l' - _getHeight r <= 1 \/ _getHeight l' = _getHeight r + 2)
        by lia.
      destruct Hc as [Hc|Hc]; [rewrite (Hid Hc); simpl|]; lia.
    + destruct (Z.gtb_spec key k) as [Hgt|Hle].
      * destruct (IHr Hr) as (r' & -> & Hr' & Hhr'). cbn [bind].
        destruct (updateHeightAndBalance_avl l k v h r' Hl Hr') as (n' & E & Hn' & Hhn' & Hid);
          [lia|].
        exists n'. split; [exact E|]. split; [assumption|]. simpl.
        assert (Hc : -1 <= _getHeight l - _getHeight r' <= 1 \/ _getHeight r' = _getHeight l + 2)
          by lia.
        destruct Hc as [Hc|Hc]; [rewrite (Hid Hc); simpl|]; lia.
      * eexists. split; [reflexivity|]. simpl. repeat split; try assumption; lia.
Qed.

Lemma findMinNode_some n :
  n <> null -> exists l k v h r, _findMinNode n = Some (Node l k v h r).
Proof.
  induction n as [|l IHl k v h r IHr]; intros Hn; [congruence|].
  simpl. destruct l as [|ll lk lv lh lr].
  - repeat eexists.
  - apply IHl. discriminate.
Qed.

(** Removal never fails on an AVL tree, keeps it one, and shrinks it by
    at most one level. *)
Lemma removeNode_avl n key :
  avl n ->
  exists n',
    _removeNode n key = Some n' /\ avl n' /\
    _getHeight n - 1 <= _getHeight n' <= _getHeight n.
Proof.
  revert key.
  induction n as [|l IHl k v h r IHr]; intros key Ha.
  - eexists. split; [reflexivity|]. simpl. lia.
  - destruct Ha as (Hl & Hr & Hh & Hb).
    pose proof (avl_height_nonneg _ Hl) as Pl.
    pose proof (avl_height_nonneg _ Hr) as Pr.
    cbn [_removeNode].
    destruct (Z.ltb_spec key k) as [Hlt|Hge].
    + destruct (IHl key Hl) as (l' & -> & Hl' & Hhl'). cbn [bind].
      destruct (updateHeightAndBalance_avl l' k v h r Hl' Hr) as (n' & E & Hn' & Hhn' & Hid);
        [lia|].
      exists n'. split; [exact E|]. split; [assumption|]. simpl.
      assert (Hc : -1 <= _getHeight l' - _getHeight r <= 1 \/ _getHeight r = _getHeight l' + 2)
        by lia.
      destruct Hc as [Hc|Hc]; [rewrite (Hid Hc); simpl|]; lia.
    + destruct (Z.gtb_spec key k) as [Hgt|Hle].
      * destruct (IHr key Hr) as (r' & -> & Hr' & Hhr'). cbn [bind].
        destruct (updateHeightAndBalance_avl l k v h r' Hl Hr') as (n' & E & Hn' & Hhn' & Hid);
          [lia|].
        exists n'. split; [exact E|]. split; [assumption|]. simpl.
        assert (Hc : -1 <= _getHeight l - _getHeight r' <= 1 \/ _getHeight l = _getHeight r' + 2)
          by lia.
        destruct Hc as [Hc|Hc]; [rewrite (Hid Hc); simpl|]; lia.
      * destruct l as [|ll lk lv lh lr].
        { (* no left child *)
          simpl. destruct r as [|rl rk rv rh rr].
          - eexists. split; [reflexivity|]. simpl in *. lia.
          - destruct Hr as (Hrl & Hrr & Hrh & Hrb).
            destruct (updateHeightAndBalance_avl rl rk rv rh rr Hrl Hrr) as (n' & E & Hn' & Hhn' & Hid);
              [lia|].
            exists n'. split; [exact E|]. rewrite (Hid Hrb). simpl in *.
            repeat split; try assumption; lia. }
        destruct r as [|rl rk rv rh rr].
        { (* no right child *)
          cbn [truthy negb orb bind].
          destruct Hl as (Hll & Hlr & Hlh & Hlb).
          destruct (updateHeightAndBalance_avl ll lk lv lh lr Hll Hlr) as (n' & E & Hn' & Hhn' & Hid);
            [lia|].
          exists n'. split; [exact E|]. rewrite (Hid Hlb). simpl in *.
          repeat split; try assumption; lia. }
        (* two children *)
        cbn [truthy negb orb].
        destruct (findMinNode_some (Node rl rk rv rh rr)) as (sl & sk & sv & sh & sr & ->);
          [discriminate|].
        cbn [bind].
        destruct (IHr sk Hr) as (r' & -> & Hr' & Hhr'). cbn [bind].
        remember (Node ll lk lv lh lr) as l eqn:El. clear El.
        destruct (updateHeightAndBalance_avl l sk sv h r' Hl Hr') as (n' & E & Hn' & Hhn' & Hid);
          [lia|].
        exists n'. split; [exact E|]. split; [assumption|].
        cbn [_getHeight] in *.
        assert (Hc : -1 <= _getHeight l - _getHeight r' <= 1 \/ _getHeight l = _getHeight r' + 2)
          by lia.
        destruct Hc as [Hc|Hc]; [rewrite (Hid Hc); simpl|]; lia.
Qed.

Lemma setValue_height n key value :
  _getHeight (_setValue n key value) = _getHeight n.
Proof.
  destruct n as [|l k v h r]; simpl; [reflexivity|].
  repeat cmp_cases; reflexivity.
Qed.

Lemma setValue_avl n key value : avl n -> avl (_setValue n key value).
Proof.
  induction n as [|l IHl k v h r IHr]; simpl; [trivial|].
  intros (Hl & Hr & Hh & Hb).
  repeat cmp_cases; simpl; rewrite ?setValue_height; auto.
Qed.

(** *** Strictly increasing key lists *)

Lemma sorted_cons (x : Z) (l : list Z) :
  StronglySorted Z.lt (x :: l) <->
  StronglySorted Z.lt l /\ (forall y, In y l -> x < y).
Proof.
  split.
  - intros H. apply StronglySorted_inv in H. destruct H as [H1 H2].
    split; [assumption|]. apply Forall_forall. assumption.
  - intros [H1 H2]. constructor; [assumption|]. apply Forall_forall. assumption.
Qed.

Lemma sorted_app (l1 l2 : list Z) :
  StronglySorted Z.lt (l1 ++ l2) <->
  StronglySorted Z.lt l1 /\ StronglySorted Z.lt l2 /\
  (forall x y, In x l1 -> In y l2 -> x < y).
Proof.
  induction l1 as [|a l1 IH]; simpl.
  - split; [intros H; repeat split; [constructor|assumption|contradiction]|tauto].
  - rewrite !sorted_cons, IH. split.
    + intros ((H1 & H2 & H3) & H4). repeat split; auto.
      * intros y Hy. apply H4. apply in_or_app. auto.
      * intros x y [->|Hx] Hy; [apply H4; apply in_or_app|]; auto.
    + intros ((H1 & H2) & H3 & H4). repeat split; auto.
      intros y Hy. apply in_app_or in Hy. destruct Hy; auto.
Qed.

Lemma keys_node l k v h r : keys (Node l k v h r) = keys l ++ k :: keys r.
Proof. unfold keys. simpl. rewrite map_app. reflexivity. Qed.

Lemma bst_node l k v h r :
  bst (Node l k v h r) <->
  bst l /\ bst r /\
  (forall x, In x (keys l) -> x < k) /\ (forall x, In x (keys r) -> k < x).
Proof.
  unfold bst. rewrite keys_node, sorted_app, sorted_cons. split.
  - intros (H1 & (H2 & H3) & H4). repeat split; auto.
    intros x Hx. apply (H4 x k); simpl; auto.
  - intros (H1 & H2 & H3 & H4). repeat split; auto.
    intros x y Hx [<-|Hy]; auto. specialize (H3 x Hx). specialize (H4 y Hy). lia.
Qed.

Lemma in_keys (pts : list (Z * Z)) k v : In (k, v) pts -> In k (map fst pts).
Proof. intros H. change k with (fst (k, v)). apply in_map. assumption. Qed.

Lemma in_keys_inv (pts : list (Z * Z)) k :
  In k (map fst pts) -> exists v, In (k, v) pts.
Proof.
  intros H. apply in_map_iff in H. destruct H as ([k' v] & <- & H).
  exists v. assumption.
Qed.

(** *** In-order sequences *)

Lemma inOrder_acc n result : _inOrder n result = result ++ inorder n.
Proof.
  revert result. induction n as [|l IHl k v h r IHr]; intros result; simpl.
  - rewrite app_nil_r. reflexivity.
  - rewrite IHr, IHl, <- !app_assoc. reflexivity.
Qed.

Lemma inOrderTraversal_inorder a : inOrderTraversal a = inorder (root a).
Proof. unfold inOrderTraversal. apply inOrder_acc. Qed.

Lemma rotateRight_inorder y x : _rotateRight y = Some x -> inorder x = inorder y.
Proof.
  destruct y as [|[|xl xk xv xh T2] yk yv yh yr]; simpl; try discriminate.
  intros [= <-]. simpl. rewrite <- app_assoc. reflexivity.
Qed.

Lemma rotateLeft_inorder x y : _rotateLeft x = Some y -> inorder y = inorder x.
Proof.
  destruct x as [|xl xk xv xh [|T2 yk yv yh yr]]; simpl; try discriminate.
  intros [= <-]. simpl. rewrite <- app_assoc. reflexivity.
Qed.

Lemma balance_inorder n n' : _balance n = Some n' -> inorder n' = inorder n.
Proof.
  unfold _balance. destruct n as [|l k v h r]; [intros [= <-]; reflexivity|].
  destruct (_getBalanceFactor (Node l k v h r) >? 1).
  - destruct (_getBalanceFactor l <? 0).
    + destruct (_rotateLeft l) as [l'|] eqn:E; [|discriminate]. cbn [bind].
      intros H. apply rotateRight_inorder in H. rewrite H. simpl.
      rewrite (rotateLeft_inorder _ _ E). reflexivity.
    + cbn [bind]. apply rotateRight_inorder.
  - destruct (_getBalanceFactor (Node l k v h r) <? -1).
    + destruct (_getBalanceFactor r >? 0).
      * destruct (_rotateRight r) as [r'|] eqn:E; [|discriminate]. cbn [bind].
        intros H. apply rotateLeft_inorder in H. rewrite H. simpl.
        rewrite (rotateRight_inorder _ _ E). reflexivity.
      * cbn [bind]. apply rotateLeft_inorder.
    + intros [= <-]. reflexivity.
Qed.

Lemma updateHeightAndBalance_inorder n n' :
  _updateHeightAndBalance n = Some n' -> inorder n' = inorder n.
Proof.
  destruct n as [|l k v h r]; cbn [_updateHeightAndBalance];
    [intros [= <-]; reflexivity|].
  intros H. apply balance_inorder in H. exact H.
Qed.

(** *** [insert] on the in-order sequence *)

Lemma ins_app_lt key value L k v R :
  key < k -> ins key value (L ++ (k, v) :: R) = ins key value L ++ (k, v) :: R.
Proof.
  intros Hk. induction L as [|[k' v'] L IH]; simpl.
  - destruct (Z.ltb_spec key k); [reflexivity|lia].
  - repeat cmp_cases; simpl; rewrite ?IH; reflexivity.
Qed.

Lemma ins_app_gt key value L k v R :
  (forall x, In x (map fst L) -> x < key) -> k < key ->
  ins key value (L ++ (k, v) :: R) = L ++ (k, v) :: ins key value R.
Proof.
  intros HL Hk. induction L as [|[k' v'] L IH]; simpl.
  - repeat cmp_cases; try lia; reflexivity.
  - assert (k' < key) by (apply HL; simpl; auto).
    repeat cmp_cases; try lia. rewrite IH; [reflexivity|].
    intros x Hx. apply HL. simpl. auto.
Qed.

Lemma ins_app_eq value L k v R :
  (forall x, In x (map fst L) -> x < k) ->
  ins k value (L ++ (k, v) :: R) = L ++ (k, value) :: R.
Proof.
  intros HL. induction L as [|[k' v'] L IH]; simpl.
  - repeat cmp_cases; try lia; reflexivity.
  - assert (k' < k) by (apply HL; simpl; auto).
    repeat cmp_cases; try lia. rewrite IH; [reflexivity|].
    intros x Hx. apply HL. simpl. auto.
Qed.

Lemma in_keys_ins x k v pts :
  In x (map fst (ins k v pts)) <-> x = k \/ In x (map fst pts).
Proof.
  induction pts as [|[k' v'] pts IH]; simpl.
  - intuition.
  - repeat cmp_cases; simpl; rewrite ?IH; intuition; lia.
Qed.

Lemma ins_sorted k v pts :
  StronglySorted Z.lt (map fst pts) -> StronglySorted Z.lt (map fst (ins k v pts)).
Proof.
  induction pts as [|[k' v'] pts IH]; simpl; intros H.
  - constructor; constructor.
  - apply sorted_cons in H. destruct H as [H1 H2].
    repeat cmp_cases; simpl; apply sorted_cons.
    + split; [apply sorted_cons; auto|].
      intros y [<-|Hy]; [lia|]. specialize (H2 y Hy). lia.
    + split; [auto|]. intros y Hy. apply in_keys_ins in Hy.
      destruct Hy as [->|Hy]; [lia|auto].
    + split; [assumption|]. intros y Hy. specialize (H2 y Hy). lia.
Qed.

Lemma insertNode_inorder n key value n' :
  bst n -> _insertNode n key value = Some n' ->
  inorder n' = ins key value (inorder n).
Proof.
  revert n'. induction n as [|l IHl k v h r IHr]; intros n' Hb.
  - intros [= <-]. reflexivity.
  - apply bst_node in Hb. destruct Hb as (Hl & Hr & Hlk & Hrk).
    cbn [_insertNode inorder].
    destruct (Z.ltb_spec key k) as [Hlt|Hge].
    + destruct (_insertNode l key value) as [l'|] eqn:E; [|discriminate].
      cbn [bind]. intros H. apply updateHeightAndBalance_inorder in H.
      rewrite H. cbn [inorder]. rewrite (IHl l' Hl eq_refl).
      symmetry. apply ins_app_lt. assumption.
    + destruct (Z.gtb_spec key k) as [Hgt|Hle].
      * destruct (_insertNode r key value) as [r'|] eqn:E; [|discriminate].
        cbn [bind]. intros H. apply updateHeightAndBalance_inorder in H.
        rewrite H. cbn [inorder]. rewrite (IHr r' Hr eq_refl).
        symmetry. apply ins_app_gt; [|lia].
        intros x Hx. specialize (Hlk x Hx). lia.
      * intros [= <-]. cbn [inorder]. assert (key = k) as -> by lia.
        symmetry. apply ins_app_eq. assumption.
Qed.

(** *** [remove] on the in-order sequence *)

Lemma del_absent k pts : ~ In k (map fst pts) -> del k pts = pts.
Proof.
  induction pts as [|[k' v'] pts IH]; simpl; intros H; [reflexivity|].
  destruct (Z.eqb_spec k' k) as [->|Hne]; [tauto|]. simpl.
  rewrite IH; [reflexivity|tauto].
Qed.

Lemma del_app k L R : del k (L ++ R) = del k L ++ del k R.
Proof. apply filter_app. Qed.

Lemma del_sorted k pts :
  StronglySorted Z.lt (map fst pts) -> StronglySorted Z.lt (map fst (del k pts)).
Proof.
  induction pts as [|[k' v'] pts IH]; simpl; intros H; [constructor|].
  apply sorted_cons in H. destruct H as [H1 H2].
  destruct (Z.eqb_spec k' k); simpl; [auto|].
  apply sorted_cons. split; [auto|].
  intros y Hy. apply H2. apply in_map_iff in Hy. destruct Hy as (p & <- & Hp).
  apply filter_In in Hp. apply in_map. tauto.
Qed.

Lemma findMinNode_inorder n m :
  _findMinNode n = Some m ->
  exists ml mk mv mh mr R,
    m = Node ml mk mv mh mr /\ inorder n = (mk, mv) :: R.
Proof.
  induction n as [|l IHl k v h r IHr]; simpl; [discriminate|].
  destruct l as [|ll lk lv lh lr].
  - intros [= <-]. repeat eexists.
  - intros H. destruct (IHl H) as (ml & mk & mv & mh & mr & R & -> & E).
    rewrite E. repeat eexists.
Qed.

Lemma removeNode_inorder n key n' :
  bst n -> _removeNode n key = Some n' -> inorder n' = del key (inorder n).
Proof.
  revert key n'. induction n as [|l IHl k v h r IHr]; intros key n' Hb.
  - intros [= <-]. reflexivity.
  - pose proof Hb as Hb'.
    apply bst_node in Hb. destruct Hb as (Hl & Hr & Hlk & Hrk).
    cbn [_removeNode inorder]. rewrite del_app.
    destruct (Z.ltb_spec key k) as [Hlt|Hge].
    + destruct (_removeNode l key) as [l'|] eqn:E; [|discriminate].
      cbn [bind]. intros H. apply updateHeightAndBalance_inorder in H.
      rewrite H. cbn [inorder]. rewrite (IHl key l' Hl E).
      rewrite (del_absent key ((k, v) :: inorder r)); [reflexivity|].
      simpl. intros [->|Hin]; [lia|]. specialize (Hrk key Hin). lia.
    + destruct (Z.gtb_spec key k) as [Hgt|Hle].
      * destruct (_removeNode r key) as [r'|] eqn:E; [|discriminate].
        cbn [bind]. intros H. apply updateHeightAndBalance_inorder in H.
        rewrite H. cbn [inorder]. rewrite (IHr key r' Hr E).
        rewrite (del_absent key (inorder l)).
        -- simpl. destruct (Z.eqb_spec k key); [lia|reflexivity].
        -- intros Hin. specialize (Hlk key Hin). lia.
      * assert (key = k) as -> by lia.
        assert (Dl : del k (inorder l) = inorder l).
        { apply del_absent. intros Hin. specialize (Hlk k Hin). lia. }
        assert (Dr : del k (inorder r) = inorder r).
        { apply del_absent. intros Hin. specialize (Hrk k Hin). lia. }
        rewrite Dl. simpl. rewrite Z.eqb_refl. simpl. fold (del k (inorder r)).
        rewrite Dr.
        destruct l as [|ll lk lv lh lr].
        { simpl. intros H. apply updateHeightAndBalance_inorder in H.
          rewrite H. reflexivity. }
        destruct r as [|rl rk rv rh rr].
        { cbn [truthy negb orb bind]. intros H.
          apply updateHeightAndBalance_inorder in H.
          rewrite H. rewrite app_nil_r. reflexivity. }
        cbn [truthy negb orb].
        remember (Node ll lk lv lh lr) as l eqn:El. clear El.
        remember (Node rl rk rv rh rr) as r eqn:Er. clear Er.
        destruct (_findMinNode r) as [m|] eqn:Em; [|discriminate].
        destruct (findMinNode_inorder _ _ Em) as (ml & mk & mv & mh & mr & R & -> & ER).
        cbn [bind].
        destruct (_removeNode r mk) as [r'|] eqn:E; [|discriminate].
        cbn [bind]. intros H. apply updateHeightAndBalance_inorder in H.
        rewrite H. cbn [inorder]. rewrite (IHr mk r' Hr E). rewrite ER.
        simpl. rewrite Z.eqb_refl. simpl. fold (del mk R).
        rewrite del_absent; [reflexivity|].
        unfold bst, keys in Hr. rewrite ER in Hr. simpl in Hr.
        apply sorted_cons in Hr. destruct Hr as [_ Hr].
        intros Hin. specialize (Hr mk Hin). lia.
Qed.

(** *** [find] and [update] on the in-order sequence *)

Lemma findNode_spec n key :
  bst n ->
  match _findNode n key with
  | null => ~ In key (keys n)
  | Node _ k v _ _ => k = key /\ In (key, v) (inorder n)
  end.
Proof.
  induction n as [|l IHl k v h r IHr]; intros Hb; simpl; [tauto|].
  apply bst_node in Hb. destruct Hb as (Hl & Hr & Hlk & Hrk).
  destruct (Z.eqb_spec key k) as [->|Hne].
  - split; [reflexivity|]. apply in_or_app. simpl. auto.
  - destruct (Z.ltb_spec key k) as [Hlt|Hge].
    + specialize (IHl Hl). destruct (_findNode l key) as [|fl fk fv fh fr].
      * rewrite keys_node. intros Hin. apply in_app_or in Hin.
        destruct Hin as [Hin|[Hin|Hin]]; [tauto|lia|].
        specialize (Hrk key Hin). lia.
      * destruct IHl as [-> Hin]. split; [reflexivity|].
        apply in_or_app. auto.
    + specialize (IHr Hr). destruct (_findNode r key) as [|fl fk fv fh fr].
      * rewrite keys_node. intros Hin. apply in_app_or in Hin.
        destruct Hin as [Hin|[Hin|Hin]]; [|lia|tauto].
        specialize (Hlk key Hin). lia.
      * destruct IHr as [-> Hin]. split; [reflexivity|].
        apply in_or_app. simpl. auto.
Qed.

Lemma upd_absent k v pts : ~ In k (map fst pts) -> upd k v pts = pts.
Proof.
  induction pts as [|[k' v'] pts IH]; simpl; intros H; [reflexivity|].
  destruct (Z.eqb_spec k' k) as [->|Hne]; [tauto|].
  fold (upd k v pts). rewrite IH; [reflexivity|tauto].
Qed.

Lemma keys_upd k v pts : map fst (upd k v pts) = map fst pts.
Proof.
  unfold upd. rewrite map_map. apply map_ext.
  intros [k' v']. simpl. destruct (k' =? k); reflexivity.
Qed.

Lemma setValue_inorder n key value :
  bst n -> inorder (_setValue n key value) = upd key value (inorder n).
Proof.
  induction n as [|l IHl k v h r IHr]; intros Hb; [reflexivity|].
  apply bst_node in Hb. destruct Hb as (Hl & Hr & Hlk & Hrk).
  cbn [_setValue inorder]. unfold upd. rewrite map_app. cbn [map fst].
  fold (upd key value (inorder l)). fold (upd key value (inorder r)).
  destruct (Z.eqb_spec key k) as [->|Hne].
  - rewrite Z.eqb_refl. cbn [inorder].
    rewrite !upd_absent; [reflexivity| |].
    + intros Hin. specialize (Hrk k Hin). lia.
    + intros Hin. specialize (Hlk k Hin). lia.
  - destruct (Z.eqb_spec k key) as [?|_]; [lia|].
    destruct (Z.ltb_spec key k) as [Hlt|Hge]; cbn [inorder].
    + rewrite (IHl Hl). rewrite (upd_absent key value (inorder r)); [reflexivity|].
      intros Hin. specialize (Hrk key Hin). lia.
    + rewrite (IHr Hr). rewrite (upd_absent key value (inorder l)); [reflexivity|].
      intros Hin. specialize (Hlk key Hin). lia.
Qed.

(** *** Well-formed trees and the public operations *)

Lemma wf_new : wf AVLTree.new.
Proof. split; [constructor|exact I]. Qed.

Lemma insert_wf a key value :
  wf a ->
  exists a',
    insert a key value = Some a' /\ wf a' /\
    inOrderTraversal a' = ins key value (inOrderTraversal a).
Proof.
  intros [Hb Ha]. unfold insert.
  destruct (insertNode_avl (root a) key value Ha) as (n' & E & Ha' & _).
  rewrite E. cbn [bind]. eexists. split; [reflexivity|].
  pose proof (insertNode_inorder _ _ _ _ Hb E) as Hi.
  rewrite !inOrderTraversal_inorder. cbn [root].
  split; [|assumption]. split; [|assumption].
  unfold bst, keys. cbn [root]. rewrite Hi. apply ins_sorted. exact Hb.
Qed.

Lemma remove_wf a key :
  wf a ->
  exists a',
    remove a key = Some a' /\ wf a' /\
    inOrderTraversal a' = del key (inOrderTraversal a).
Proof.
  intros [Hb Ha]. unfold remove.
  destruct (removeNode_avl (root a) key Ha) as (n' & E & Ha' & _).
  rewrite E. cbn [bind]. eexists. split; [reflexivity|].
  pose proof (removeNode_inorder _ _ _ Hb E) as Hi.
  rewrite !inOrderTraversal_inorder. cbn [root].
  split; [|assumption]. split; [|assumption].
  unfold bst, keys. cbn [root]. rewrite Hi. apply del_sorted. exact Hb.
Qed.

Lemma update_wf a key value :
  wf a ->
  wf (update a key value) /\
  inOrderTraversal (update a key value) = upd key value (inOrderTraversal a).
Proof.
  intros [Hb Ha]. unfold update, find.
  pose proof (findNode_spec (root a) key Hb) as Hf.
  rewrite !inOrderTraversal_inorder.
  destruct (_findNode (root a) key) as [|fl fk fv fh fr]; cbn [truthy].
  - split; [split; assumption|]. symmetry. apply upd_absent. exact Hf.
  - cbn [root]. rewrite setValue_inorder by assumption.
    split; [|reflexivity]. split; [|apply setValue_avl; assumption].
    unfold bst, keys. cbn [root]. rewrite setValue_inorder by assumption.
    rewrite keys_upd. exact Hb.
Qed.

Lemma tree_step_wf a c :
  wf a -> exists a', tree_step a c = Some a' /\ wf a'.
Proof.
  intros Hw. destruct c as [k v|k v|k]; simpl.
  - destruct (insert_wf a k v Hw) as (a' & E & Hw' & _). eauto.
  - eexists. split; [reflexivity|]. apply update_wf. assumption.
  - destruct (remove_wf a k Hw) as (a' & E & Hw' & _). eauto.
Qed.

Lemma for_of_tree_step_wf cs a :
  wf a -> exists a', for_of tree_step cs a = Some a' /\ wf a'.
Proof.
  revert a. induction cs as [|c cs IH]; intros a Hw; simpl.
  - eauto.
  - destruct (tree_step_wf a c Hw) as (a1 & -> & Hw1). cbn [bind].
    apply IH. assumption.
Qed.

(** Every sequence of calls runs to completion, and leaves a search tree
    that is an AVL tree. *)
Lemma tree_after_wf cs : exists a, tree_after cs = Some a /\ wf a.
Proof. apply for_of_tree_step_wf. apply wf_new. Qed.

Lemma tree_after_inv cs a : tree_after cs = Some a -> wf a.
Proof.
  intros H. destruct (tree_after_wf cs) as (a' & E & Hw).
  rewrite H in E. injection E as <-. assumption.
Qed.

(** *** Neighbour searches *)

Lemma findLessThan_spec n key lastLess :
  bst n ->
  (_findLessThan n key lastLess = lastLess /\
   forall q, In q (keys n) -> key <= q) \/
  (exists l k v h r,
     _findLessThan n key lastLess = Node l k v h r /\
     In (k, v) (inorder n) /\ is_pred (keys n) key k).
Proof.
  revert lastLess.
  induction n as [|l IHl k v h r IHr]; intros lastLess Hb.
  - left. split; [reflexivity|]. intros q [].
  - apply bst_node in Hb. destruct Hb as (Hl & Hr & Hlk & Hrk).
    cbn [_findLessThan inorder]. rewrite keys_node.
    destruct (Z.geb_spec k key) as [Hge|Hlt].
    + destruct (IHl lastLess Hl) as [[E Hall]|(fl & fk & fv & fh & fr & E & Hin & Hp)].
      * left. split; [exact E|]. intros q Hq. apply in_app_or in Hq.
        destruct Hq as [Hq|[<-|Hq]]; [auto|lia|]. specialize (Hrk q Hq). lia.
      * right. exists fl, fk, fv, fh, fr. split; [exact E|].
        split; [apply in_or_app; auto|].
        destruct Hp as (Hp1 & Hp2 & Hp3). repeat split.
        -- apply in_or_app. auto.
        -- assumption.
        -- intros q Hq Hqk. apply in_app_or in Hq.
           destruct Hq as [Hq|[<-|Hq]]; [auto|lia|]. specialize (Hrk q Hq). lia.
    + destruct (IHr (Node l k v h r) Hr)
        as [[E Hall]|(fl & fk & fv & fh & fr & E & Hin & Hp)].
      * right. exists l, k, v, h, r. split; [exact E|].
        split; [apply in_or_app; simpl; auto|]. repeat split.
        -- apply in_or_app. simpl. auto.
        -- assumption.
        -- intros q Hq Hqk. apply in_app_or in Hq.
           destruct Hq as [Hq|[<-|Hq]]; [|lia|].
           ++ specialize (Hlk q Hq). lia.
           ++ specialize (Hall q Hq). lia.
      * right. exists fl, fk, fv, fh, fr. split; [exact E|].
        split; [apply in_or_app; simpl; auto|].
        destruct Hp as (Hp1 & Hp2 & Hp3). repeat split.
        -- apply in_or_app. simpl. auto.
        -- assumption.
        -- intros q Hq Hqk. specialize (Hrk fk Hp1). apply in_app_or in Hq.
           destruct Hq as [Hq|[<-|Hq]]; [|lia|auto].
           specialize (Hlk q Hq). lia.
Qed.

Lemma findGreaterThan_spec n key lastGreater :
  bst n ->
  (_findGreaterThan n key lastGreater = lastGreater /\
   forall q, In q (keys n) -> q <= key) \/
  (exists l k v h r,
     _findGreaterThan n key lastGreater = Node l k v h r /\
     In (k, v) (inorder n) /\ is_succ (keys n) key k).
Proof.
  revert lastGreater.
  induction n as [|l IHl k v h r IHr]; intros lastGreater Hb.
  - left. split; [reflexivity|]. intros q [].
  - apply bst_node in Hb. destruct Hb as (Hl & Hr & Hlk & Hrk).
    cbn [_findGreaterThan inorder]. rewrite keys_node.
    destruct (Z.leb_spec k key) as [Hle|Hgt].
    + destruct (IHr lastGreater Hr) as [[E Hall]|(fl & fk & fv & fh & fr & E & Hin & Hp)].
      * left. split; [exact E|]. intros q Hq. apply in_app_or in Hq.
        destruct Hq as [Hq|[<-|Hq]]; [|lia|auto]. specialize (Hlk q Hq). lia.
      * right. exists fl, fk, fv, fh, fr. split; [exact E|].
        split; [apply in_or_app; simpl; auto|].
        destruct Hp as (Hp1 & Hp2 & Hp3). repeat split.
        -- apply in_or_app. simpl. auto.
        -- assumption.
        -- intros q Hq Hqk. apply in_app_or in Hq.
           destruct Hq as [Hq|[<-|Hq]]; [|lia|auto]. specialize (Hlk q Hq). lia.
    + destruct (IHl (Node l k v h r) Hl)
        as [[E Hall]|(fl & fk & fv & fh & fr & E & Hin & Hp)].
      * right. exists l, k, v, h, r. split; [exact E|].
        split; [apply in_or_app; simpl; auto|]. repeat split.
        -- apply in_or_app. simpl. auto.
        -- assumption.
        -- intros q Hq Hqk. apply in_app_or in Hq.
           destruct Hq as [Hq|[<-|Hq]]; [|lia|].
           ++ specialize (Hall q Hq). lia.
           ++ specialize (Hrk q Hq). lia.
      * right. exists fl, fk, fv, fh, fr. split; [exact E|].
        split; [apply in_or_app; auto|].
        destruct Hp as (Hp1 & Hp2 & Hp3). repeat split.
        -- apply in_or_app. auto.
        -- assumption.
        -- intros q Hq Hqk. specialize (Hlk fk Hp1). apply in_app_or in Hq.
           destruct Hq as [Hq|[<-|Hq]]; [auto|lia|].
           specialize (Hrk q Hq). lia.
Qed.

Lemma is_pred_unique ks k p p' : is_pred ks k p -> is_pred ks k p' -> p = p'.
Proof.
  intros (H1 & H2 & H3) (H1' & H2' & H3').
  specialize (H3 p' H1' H2'). specialize (H3' p H1 H2). lia.
Qed.

Lemma is_succ_unique ks k s s' : is_succ ks k s -> is_succ ks k s' -> s = s'.
Proof.
  intros (H1 & H2 & H3) (H1' & H2' & H3').
  specialize (H3 s' H1' H2'). specialize (H3' s H1 H2). lia.
Qed.

Lemma findNearest_computed a key :
  bst (root a) ->
  nearest_computed (inOrderTraversal a) key (entry (findNearest a key)).
Proof.
  intros Hb. unfold nearest_computed. rewrite inOrderTraversal_inorder.
  fold (keys (root a)). unfold findNearest, find, findLessThan, findGreaterThan.
  pose proof (findNode_spec (root a) key Hb) as Hf.
  destruct (_findNode (root a) key) as [|el ek ev eh er]; cbn [truthy].
  2:{ destruct Hf as [-> Hin]. cbn [entry].
      split; [|split; [|split]].
      - intros e [= <-]. assumption.
      - intros _. eauto.
      - intros Hn. exfalso. apply Hn. apply (in_keys _ _ _ Hin).
      - intros E. rewrite E in Hin. destruct Hin. }
  destruct (findLessThan_spec (root a) key null Hb)
    as [[El Hl]|(ll & lk & lv & lh & lr & El & Hlin & Hlp)];
  destruct (findGreaterThan_spec (root a) key null Hb)
    as [[Eg Hg]|(gl & gk & gv & gh & gr & Eg & Hgin & Hgs)];
  rewrite El, Eg; cbn [entry].
  - (* no neighbour at all *)
    split; [|split; [|split]]; try discriminate; try tauto.
    intros _. split; [|split].
    + intros p s (Hp & Hpk & _). specialize (Hl p Hp). lia.
    + intros p (Hp & Hpk & _). specialize (Hl p Hp). lia.
    + intros s (Hs & Hsk & _). specialize (Hg s Hs). lia.
  - (* only a successor *)
    split; [|split; [|split]].
    + intros e [= <-]. assumption.
    + tauto.
    + intros _. split; [|split].
      * intros p s (Hp & Hpk & _). specialize (Hl p Hp). lia.
      * intros p (Hp & Hpk & _). specialize (Hl p Hp). lia.
      * intros s Hs _. rewrite (is_succ_unique _ _ _ _ Hs Hgs). eauto.
    + intros E. rewrite E in Hgin. destruct Hgin.
  - (* only a predecessor *)
    split; [|split; [|split]].
    + intros e [= <-]. assumption.
    + tauto.
    + intros _. split; [|split].
      * intros p s _ (Hs & Hsk & _). specialize (Hg s Hs). lia.
      * intros p Hp _. rewrite (is_pred_unique _ _ _ _ Hp Hlp). eauto.
      * intros s (Hs & Hsk & _). specialize (Hg s Hs). lia.
    + intros E. rewrite E in Hlin. destruct Hlin.
  - (* both *)
    assert (Hlk : lk < key) by apply Hlp.
    assert (Hgk : key < gk) by apply Hgs.
    split; [|split; [|split]].
    + intros e. destruct (js_sub key lk <? js_sub gk key); intros [= <-]; assumption.
    + tauto.
    + intros _. split; [|split].
      * intros p s Hp Hs.
        rewrite (is_pred_unique _ _ _ _ Hp Hlp), (is_succ_unique _ _ _ _ Hs Hgs).
        destruct (js_sub key lk <? js_sub gk key); cbn [entry]; eauto.
      * intros p _ Hall. specialize (Hall gk (proj1 Hgs)). lia.
      * intros s _ Hall. specialize (Hall lk (proj1 Hlp)). lia.
    + intros E. rewrite E in Hlin. destruct Hlin.
Qed.

(** *** Keys in a range *)

Lemma preorder_perm n : Permutation (preorder n) (keys n).
Proof.
  induction n as [|l IHl k v h r IHr]; [constructor|].
  rewrite keys_node. cbn [preorder].
  apply Permutation_cons_app. apply Permutation_app; assumption.
Qed.

Lemma filter_none {A : Type} (f : A -> bool) (l : list A) :
  (forall x, In x l -> f x = false) -> filter f l = [].
Proof.
  induction l as [|a l IH]; simpl; intros H; [reflexivity|].
  rewrite (H a) by auto. apply IH. auto.
Qed.

Lemma collectKeysInRange_preorder n fromKey toKey result :
  bst n ->
  _collectKeysInRange n fromKey toKey result =
  result ++ filter (in_range fromKey toKey) (preorder n).
Proof.
  revert result. induction n as [|l IHl k v h r IHr]; intros result Hb.
  - simpl. rewrite app_nil_r. reflexivity.
  - apply bst_node in Hb. destruct Hb as (Hl & Hr & Hlk & Hrk).
    cbn [_collectKeysInRange preorder filter]. rewrite filter_app.
    fold (in_range fromKey toKey k).
    assert (El : (if fromKey <? k
                  then _collectKeysInRange l fromKey toKey
                         (if in_range fromKey toKey k then result ++ [k] else result)
                  else if in_range fromKey toKey k then result ++ [k] else result)
                 = (if in_range fromKey toKey k then result ++ [k] else result)
                   ++ filter (in_range fromKey toKey) (preorder l)).
    { destruct (Z.ltb_spec fromKey k) as [Hlt|Hge]; [apply IHl; assumption|].
      rewrite (filter_none _ (preorder l)); [rewrite app_nil_r; reflexivity|].
      intros x Hx. apply (Permutation_in _ (preorder_perm l)) in Hx.
      specialize (Hlk x Hx). unfold in_range.
      destruct (Z.geb_spec x fromKey); [lia|reflexivity]. }
    rewrite El. clear El.
    assert (Er : forall acc,
               (if toKey >? k then _collectKeysInRange r fromKey toKey acc else acc)
               = acc ++ filter (in_range fromKey toKey) (preorder r)).
    { intros acc. destruct (Z.gtb_spec toKey k) as [Hgt|Hle]; [apply IHr; assumption|].
      rewrite (filter_none _ (preorder r)); [rewrite app_nil_r; reflexivity|].
      intros x Hx. apply (Permutation_in _ (preorder_perm r)) in Hx.
      specialize (Hrk x Hx). unfold in_range.
      destruct (Z.leb_spec x toKey); [lia|apply andb_false_r]. }
    rewrite Er. clear Er.
    destruct (in_range fromKey toKey k); simpl; rewrite <- !app_assoc; reflexivity.
Qed.

Lemma getKeysInRange_preorder a fromKey toKey :
  bst (root a) ->
  getKeysInRange a fromKey toKey =
  filter (in_range fromKey toKey) (preorder (root a)).
Proof.
  intros Hb. unfold getKeysInRange.
  rewrite collectKeysInRange_preorder by assumption. reflexivity.
Qed.

Lemma filter_perm {A : Type} (f : A -> bool) (l l' : list A) :
  Permutation l l' -> Permutation (filter f l) (filter f l').
Proof.
  induction 1 as [|x l l' HP IH|x y l|l l' l'' HP IH HP' IH']; simpl.
  - constructor.
  - destruct (f x); [constructor|]; assumption.
  - destruct (f x), (f y); try apply Permutation_refl. constructor.
  - eapply Permutation_trans; eassumption.
Qed.

Lemma sorted_NoDup (l : list Z) : StronglySorted Z.lt l -> NoDup l.
Proof.
  induction l as [|x l IH]; intros H; [constructor|].
  apply sorted_cons in H. destruct H as [H1 H2].
  constructor; [|auto]. intros Hin. specialize (H2 x Hin). lia.
Qed.

Lemma in_range_iff fromKey toKey k :
  in_range fromKey toKey k = true <-> fromKey <= k <= toKey.
Proof.
  unfold in_range. rewrite andb_true_iff, Z.geb_le, Z.leb_le. tauto.
Qed.

Lemma getKeysInRange_In a fromKey toKey k :
  bst (root a) ->
  In k (getKeysInRange a fromKey toKey) <->
  In k (keys (root a)) /\ fromKey <= k <= toKey.
Proof.
  intros Hb. rewrite getKeysInRange_preorder by assumption.
  rewrite filter_In, in_range_iff.
  split; intros [H1 H2]; (split; [|assumption]).
  - apply (Permutation_in _ (preorder_perm _)). assumption.
  - apply (Permutation_in _ (Permutation_sym (preorder_perm _))). assumption.
Qed.

Lemma getKeysInRange_NoDup a fromKey toKey :
  bst (root a) -> NoDup (getKeysInRange a fromKey toKey).
Proof.
  intros Hb. rewrite getKeysInRange_preorder by assumption.
  apply NoDup_filter.
  apply (Permutation_NoDup (Permutation_sym (preorder_perm _))).
  apply sorted_NoDup. exact Hb.
Qed.

(** *** Effective intensity of a breakpoint list *)

Lemma effective_none d pts x :
  (forall k, In k (map fst pts) -> x < k) -> effective d pts x = d.
Proof.
  destruct pts as [|[k v] rest]; simpl; intros H; [reflexivity|].
  specialize (H k (or_introl eq_refl)).
  destruct (Z.leb_spec k x); [lia|reflexivity].
Qed.

Lemma effective_app_pass d L M x :
  (forall k, In k (map fst L) -> k <= x) ->
  effective d (L ++ M) x = effective (effective d L x) M x.
Proof.
  revert d. induction L as [|[k v] L IH]; intros d H; simpl; [reflexivity|].
  assert (k <= x) by (apply H; simpl; auto).
  destruct (Z.leb_spec k x); [|lia]. apply IH. intros k' Hk'. apply H. simpl. auto.
Qed.

Lemma effective_app_stop d L k v R x :
  x < k -> effective d (L ++ (k, v) :: R) x = effective d L x.
Proof.
  intros Hx. revert d. induction L as [|[k' v'] L IH]; intros d; simpl.
  - destruct (Z.leb_spec k x); [lia|reflexivity].
  - destruct (k' <=? x); [apply IH|reflexivity].
Qed.

Lemma floor_exists pts x : exists o, floor_is pts x o.
Proof.
  induction pts as [|[k v] pts [o IH]].
  - exists None. intros k [].
  - destruct (Z.leb_spec k x) as [Hle|Hgt].
    + destruct o as [[k0 v0]|].
      * destruct IH as (Hin & Hk0 & Hmax).
        destruct (Z.leb_spec k k0) as [Hkk|Hkk].
        -- exists (Some (k0, v0)). simpl. split; [auto|]. split; [assumption|].
           intros k' [<-|Hk'] Hle'; [assumption|auto].
        -- exists (Some (k, v)). simpl. split; [auto|]. split; [assumption|].
           intros k' [<-|Hk'] Hle'; [lia|]. specialize (Hmax k' Hk' Hle'). lia.
      * exists (Some (k, v)). simpl in *. split; [auto|]. split; [assumption|].
        intros k' [<-|Hk'] Hle'; [lia|]. specialize (IH k' Hk'). lia.
    + destruct o as [[k0 v0]|].
      * destruct IH as (Hin & Hk0 & Hmax).
        exists (Some (k0, v0)). simpl. split; [auto|]. split; [assumption|].
        intros k' [<-|Hk'] Hle'; [lia|auto].
      * exists None. simpl in *. intros k' [<-|Hk']; [assumption|auto].
Qed.

(** On increasing keys, the effective intensity is the value at the
    greatest stored key not above [x], and the default if there is none. *)
Lemma effective_greatest d pts x o :
  StronglySorted Z.lt (map fst pts) -> floor_is pts x o ->
  effective d pts x = match o with None => d | Some (_, v) => v end.
Proof.
  intros Hs Hf. destruct o as [[k v]|]; [|apply effective_none; exact Hf].
  destruct Hf as (Hin & Hk & Hmax).
  apply in_split in Hin. destruct Hin as (L & R & ->).
  rewrite map_app in Hs, Hmax. cbn [map fst] in Hs, Hmax.
  apply sorted_app in Hs. destruct Hs as (_ & HsR & HLR).
  apply sorted_cons in HsR. destruct HsR as [_ HR].
  rewrite effective_app_pass.
  - simpl. destruct (Z.leb_spec k x); [|lia]. apply effective_none.
    intros k' Hk'. specialize (HR k' Hk').
    destruct (Z.le_gt_cases k' x) as [Hle|Hgt]; [|assumption].
    specialize (Hmax k'). rewrite in_app_iff in Hmax. simpl in Hmax.
    specialize (Hmax (or_intror (or_intror Hk')) Hle). lia.
  - intros k' Hk'. specialize (HLR k' k Hk' (or_introl eq_refl)). lia.
Qed.

Lemma sorted_unique_value (pts : list (Z * Z)) k v v' :
  StronglySorted Z.lt (map fst pts) ->
  In (k, v) pts -> In (k, v') pts -> v = v'.
Proof.
  induction pts as [|[k0 v0] pts IH]; simpl; intros Hs H1 H2; [contradiction|].
  apply sorted_cons in Hs. destruct Hs as [Hs Hlt].
  destruct H1 as [H1|H1], H2 as [H2|H2].
  - congruence.
  - injection H1 as -> ->. apply in_keys in H2. specialize (Hlt k H2). lia.
  - injection H2 as -> ->. apply in_keys in H1. specialize (Hlt k H1). lia.
  - auto.
Qed.

(** [_getIntensityAt] computes the effective intensity. *)
Lemma floor_node_effective n x lastLess :
  bst n ->
  value_or_0 (if truthy (_findNode n x) then _findNode n x
              else _findLessThan n x lastLess)
  = effective (value_or_0 lastLess) (inorder n) x.
Proof.
  revert lastLess. induction n as [|l IHl k v h r IHr]; intros lastLess Hb.
  - reflexivity.
  - apply bst_node in Hb. destruct Hb as (Hl & Hr & Hlk & Hrk).
    cbn [_findNode _findLessThan inorder].
    destruct (Z.eqb_spec x k) as [->|Hne].
    + cbn [truthy value_or_0]. rewrite effective_app_pass.
      * simpl. rewrite Z.leb_refl. symmetry. apply effective_none. exact Hrk.
      * intros k' Hk'. specialize (Hlk k' Hk'). lia.
    + destruct (Z.ltb_spec x k) as [Hlt|Hge].
      * destruct (Z.geb_spec k x) as [_|?]; [|lia].
        rewrite effective_app_stop by assumption. apply IHl. assumption.
      * destruct (Z.geb_spec k x) as [?|_]; [lia|].
        rewrite effective_app_pass.
        -- simpl. destruct (Z.leb_spec k x); [|lia].
           rewrite (IHr (Node l k v h r) Hr). reflexivity.
        -- intros k' Hk'. specialize (Hlk k' Hk'). lia.
Qed.

Lemma getIntensityAt_effective rl x :
  bst (root (RangeList.tree rl)) ->
  RangeList._getIntensityAt rl x = intensity rl x.
Proof.
  intros Hb. unfold intensity, RangeList.toArray.
  rewrite inOrderTraversal_inorder.
  exact (floor_node_effective _ x null Hb).
Qed.

(** A new breakpoint that takes the current intensity changes nothing. *)
Lemma effective_ins d pts x p :
  ~ In x (map fst pts) ->
  effective d (ins x (effective d pts x) pts) p = effective d pts p.
Proof.
  revert d. induction pts as [|[k v] pts IH]; intros d Hx; simpl.
  - destruct (x <=? p); reflexivity.
  - simpl in Hx.
    destruct (Z.ltb_spec x k) as [Hlt|Hge].
    + destruct (Z.leb_spec k x); [lia|]. simpl.
      destruct (Z.leb_spec x p), (Z.leb_spec k p); try reflexivity. lia.
    + destruct (Z.gtb_spec x k) as [Hgt|Hle]; [|exfalso; apply Hx; left; lia].
      destruct (Z.leb_spec k x); [|lia]. simpl.
      destruct (k <=? p); [|reflexivity]. apply IH. tauto.
Qed.

(** *** [_ensurePointExists] *)

Lemma rl_wf_sorted rl :
  rl_wf rl -> StronglySorted Z.lt (map fst (RangeList.toArray rl)).
Proof.
  intros [Hb _]. unfold RangeList.toArray.
  rewrite inOrderTraversal_inorder. exact Hb.
Qed.

Lemma ensurePointExists_spec rl x :
  rl_wf rl ->
  exists rl',
    RangeList._ensurePointExists rl x = Some rl' /\ rl_wf rl' /\
    In x (map fst (RangeList.toArray rl')) /\
    (forall k, In k (map fst (RangeList.toArray rl)) ->
               In k (map fst (RangeList.toArray rl'))) /\
    (forall p, intensity rl' p = intensity rl p).
Proof.
  intros Hw. pose proof Hw as [Hb Ha].
  unfold RangeList._ensurePointExists.
  pose proof (findNearest_computed (RangeList.tree rl) x Hb) as (Hres & Hin & _).
  pose proof (findNode_spec (root (RangeList.tree rl)) x Hb) as Hf.
  destruct (in_dec Z.eq_dec x (map fst (inOrderTraversal (RangeList.tree rl))))
    as [Hx|Hx].
  - (* the point is there *)
    destruct (Hin Hx) as (v & E).
    destruct (findNearest (RangeList.tree rl) x) as [|nl nk nv nh nr];
      [discriminate|].
    injection E as -> ->. rewrite Z.eqb_refl. cbn [negb].
    exists rl. repeat split; auto.
  - (* the point is missing *)
    assert (Hm : match findNearest (RangeList.tree rl) x with
                 | null => true
                 | Node _ k _ _ _ => negb (k =? x)
                 end = true).
    { destruct (findNearest (RangeList.tree rl) x) as [|nl nk nv nh nr];
        [reflexivity|].
      destruct (Z.eqb_spec nk x) as [->|]; [|reflexivity].
      exfalso. apply Hx. apply (in_keys _ _ nv). apply Hres. reflexivity. }
    rewrite Hm.
    destruct (insert_wf (RangeList.tree rl) x (RangeList._getIntensityAt rl x) Hw)
      as (a' & -> & Hw' & Hi).
    cbn [bind]. eexists. split; [reflexivity|].
    unfold rl_wf, intensity, RangeList.toArray. cbn [RangeList.tree].
    rewrite Hi. split; [assumption|]. split; [|split].
    + apply in_keys_ins. auto.
    + intros k Hk. apply in_keys_ins. auto.
    + intros p. rewrite (getIntensityAt_effective rl x Hb).
      apply effective_ins. exact Hx.
Qed.

(** *** [_adjustIntensities] *)

Lemma adjustIntensity_spec from to amount a k :
  wf a -> from <= k -> from < to ->
  wf (RangeList._adjustIntensity from to amount a k) /\
  inOrderTraversal (RangeList._adjustIntensity from to amount a k) =
  map (fun p => if fst p =? k then bump from to amount p else p)
      (inOrderTraversal a).
Proof.
  intros Hw Hk Hft. pose proof Hw as [Hb Ha].
  unfold RangeList._adjustIntensity, find.
  pose proof (findNode_spec (root a) k Hb) as Hf.
  assert (Hs : StronglySorted Z.lt (map fst (inOrderTraversal a)))
    by (rewrite inOrderTraversal_inorder; exact Hb).
  destruct (_findNode (root a) k) as [|nl nk nv nh nr].
  - split; [assumption|]. symmetry. rewrite <- (map_id (inOrderTraversal a)) at 2.
    apply map_ext_in. intros [k' v'] Hin. simpl.
    destruct (Z.eqb_spec k' k) as [->|]; [|reflexivity].
    exfalso. apply Hf. unfold keys. rewrite <- inOrderTraversal_inorder.
    apply (in_keys _ _ _ Hin).
  - destruct Hf as [-> Hin]. rewrite <- inOrderTraversal_inorder in Hin.
    assert (Hupd : wf (update a k (js_add nv amount)) /\
                   inOrderTraversal (update a k (js_add nv amount)) =
                   map (fun p => if fst p =? k
                                 then (fst p, js_add (snd p) amount) else p)
                       (inOrderTraversal a)).
    { destruct (update_wf a k (js_add nv amount) Hw) as [Hw' ->].
      split; [assumption|]. apply map_ext_in. intros [k' v'] Hin'. simpl.
      destruct (Z.eqb_spec k' k) as [->|]; [|reflexivity].
      rewrite (sorted_unique_value _ _ _ _ Hs Hin Hin'). reflexivity. }
    assert (Hin_range : k < to ->
              forall p : Z * Z,
                (if fst p =? k then (fst p, js_add (snd p) amount) else p) =
                (if fst p =? k then bump from to amount p else p)).
    { intros Hlt [k' v']. simpl. destruct (Z.eqb_spec k' k) as [->|]; [|reflexivity].
      unfold bump. simpl.
      destruct (Z.leb_spec from k); [|lia]. destruct (Z.ltb_spec k to); [|lia].
      reflexivity. }
    destruct (Z.eqb_spec k from) as [Hkf|Hkf].
    + destruct Hupd as [Hw' ->]. split; [assumption|].
      apply map_ext. apply Hin_range. lia.
    + destruct (Z.ltb_spec k to) as [Hlt|Hge].
      * destruct Hupd as [Hw' ->]. split; [assumption|].
        apply map_ext. apply Hin_range. lia.
      * split; [assumption|]. rewrite <- (map_id (inOrderTraversal a)) at 1.
        apply map_ext. intros [k' v']. simpl.
        destruct (Z.eqb_spec k' k) as [->|]; [|reflexivity].
        unfold bump. simpl. destruct (Z.ltb_spec k to); [lia|].
        rewrite andb_false_r. reflexivity.
Qed.

Lemma adjust_fold from to amount ks a :
  wf a -> NoDup ks -> (forall k, In k ks -> from <= k) -> from < to ->
  wf (fold_left (RangeList._adjustIntensity from to amount) ks a) /\
  inOrderTraversal (fold_left (RangeList._adjustIntensity from to amount) ks a) =
  map (fun p => if existsb (Z.eqb (fst p)) ks then bump from to amount p else p)
      (inOrderTraversal a).
Proof.
  intros Hw Hnd Hks Hft. revert a Hw.
  induction ks as [|k ks IH]; intros a Hw; cbn [fold_left].
  - split; [assumption|]. cbn [existsb]. rewrite map_id. reflexivity.
  - inversion Hnd as [|? ? Hnk Hnd']; subst.
    destruct (adjustIntensity_spec from to amount a k Hw) as [Hw1 E1];
      [apply Hks; left; reflexivity|assumption|].
    destruct (IH Hnd' (fun k' Hk' => Hks k' (or_intror Hk')) _ Hw1) as [Hw2 E2].
    split; [assumption|]. rewrite E2, E1, map_map.
    apply map_ext. intros [k' v']. cbn [existsb fst].
    destruct (Z.eqb_spec k' k) as [->|Hne]; cbn [orb].
    + assert (Ek : fst (bump from to amount (k, v')) = k).
      { unfold bump. cbn [fst snd]. destruct (_ && _); reflexivity. }
      rewrite Ek.
      assert (En : existsb (Z.eqb k) ks = false).
      { apply not_true_is_false. intros He. apply existsb_exists in He.
        destruct He as (y & Hy & Hky). apply Z.eqb_eq in Hky. subst y. tauto. }
      rewrite En. reflexivity.
    + reflexivity.
Qed.

Lemma adjustIntensities_spec rl from to amount :
  rl_wf rl -> from < to ->
  rl_wf (RangeList._adjustIntensities rl from to amount) /\
  RangeList.toArray (RangeList._adjustIntensities rl from to amount) =
  map (bump from to amount) (RangeList.toArray rl).
Proof.
  intros Hw Hft. pose proof Hw as [Hb Ha].
  unfold RangeList._adjustIntensities, rl_wf, RangeList.toArray.
  cbn [RangeList.tree].
  destruct (adjust_fold from to amount
              (getKeysInRange (RangeList.tree rl) from to) (RangeList.tree rl) Hw)
    as [Hw' E].
  - apply getKeysInRange_NoDup. assumption.
  - intros k Hk. apply getKeysInRange_In in Hk; [lia|assumption].
  - assumption.
  - split; [assumption|]. rewrite E. apply map_ext_in.
    intros [k v] Hin. cbn [fst].
    destruct (existsb (Z.eqb k) (getKeysInRange (RangeList.tree rl) from to)) eqn:Ee;
      [reflexivity|].
    unfold bump. cbn [fst snd].
    destruct (Z.leb_spec from k); [|reflexivity].
    destruct (Z.ltb_spec k to); [|reflexivity].
    exfalso. apply not_true_iff_false in Ee. apply Ee.
    apply existsb_exists. exists k. split; [|apply Z.eqb_refl].
    apply getKeysInRange_In; [assumption|]. split; [|lia].
    unfold keys. rewrite <- inOrderTraversal_inorder. apply (in_keys _ _ _ Hin).
Qed.

(** *** Loops of removals *)

Lemma filter_filter {A : Type} (f g : A -> bool) (l : list A) :
  filter f (filter g l) = filter (fun x => g x && f x) l.
Proof.
  induction l as [|a l IH]; simpl; [reflexivity|].
  destruct (g a); simpl; [destruct (f a)|]; rewrite IH; reflexivity.
Qed.

(** A loop whose body removes the key [k] when [g k] holds removes every
    listed key that satisfies [g], and nothing else. *)
Lemma for_of_remove (g : Z -> bool) ks a :
  wf a ->
  exists a',
    for_of
      (fun a k => if g k then remove a k else Some a) ks a = Some a' /\
    wf a' /\
    inOrderTraversal a' =
    filter (fun p => negb (existsb (fun k => (fst p =? k) && g k) ks))
           (inOrderTraversal a).
Proof.
  revert a. induction ks as [|k ks IH]; intros a Hw; cbn [for_of].
  - exists a. split; [reflexivity|]. split; [assumption|].
    cbn [existsb negb]. symmetry. apply filter_true.
  - assert (Hstep : exists a1,
               (if g k then remove a k else Some a) = Some a1 /\ wf a1 /\
               inOrderTraversal a1 =
               filter (fun p => negb ((fst p =? k) && g k)) (inOrderTraversal a)).
    { destruct (g k).
      - destruct (remove_wf a k Hw) as (a1 & E & Hw1 & Hi).
        exists a1. split; [assumption|]. split; [assumption|].
        rewrite Hi. apply filter_ext. intros p. rewrite andb_true_r. reflexivity.
      - exists a. split; [reflexivity|]. split; [assumption|].
        rewrite <- (filter_true (inOrderTraversal a)) at 1.
        apply filter_ext. intros p. rewrite andb_false_r. reflexivity. }
    destruct Hstep as (a1 & -> & Hw1 & E1). cbn [bind].
    destruct (IH a1 Hw1) as (a' & E & Hw' & Ei).
    exists a'. split; [assumption|]. split; [assumption|].
    rewrite Ei, E1, filter_filter. apply filter_ext.
    intros p. cbn [existsb]. rewrite negb_orb. reflexivity.
Qed.

Lemma removePointsInRange_spec rl from to :
  rl_wf rl ->
  exists rl',
    RangeList._removePointsInRange rl from to = Some rl' /\ rl_wf rl' /\
    RangeList.toArray rl' =
    filter (fun p => negb (inside from to (fst p))) (RangeList.toArray rl).
Proof.
  intros Hw. pose proof Hw as [Hb Ha]. unfold RangeList._removePointsInRange.
  destruct (for_of_remove (inside from to)
              (getKeysInRange (RangeList.tree rl) from to) (RangeList.tree rl) Hw)
    as (a' & E & Hw' & Ei).
  unfold inside in E at 1. rewrite E. cbn [bind].
  eexists. split; [reflexivity|].
  unfold rl_wf, RangeList.toArray. cbn [RangeList.tree].
  split; [assumption|]. rewrite Ei. apply filter_ext_in.
  intros [k v] Hin. cbn [fst]. f_equal.
  destruct (inside from to k) eqn:Ek.
  - apply existsb_exists. exists k. rewrite Z.eqb_refl, Ek.
    split; [|reflexivity].
    apply getKeysInRange_In; [assumption|]. split.
    + unfold keys. rewrite <- inOrderTraversal_inorder. apply (in_keys _ _ _ Hin).
    + unfold inside in Ek. apply andb_true_iff in Ek. lia.
  - apply not_true_is_false. intros He. apply existsb_exists in He.
    destruct He as (y & _ & Hy). apply andb_true_iff in Hy.
    destruct Hy as [Hky Hy]. apply Z.eqb_eq in Hky. subst y. congruence.
Qed.

(** *** [_cleanupRedundantPoints] *)

Lemma redundantFrom_In points i toRemove k :
  In k (RangeList._redundantFrom points i toRemove) <->
  In k toRemove \/
  exists j, (j < i)%nat /\
            snd (nth (S j) points (0, 0)) = snd (nth j points (0, 0)) /\
            k = fst (nth (S j) points (0, 0)).
Proof.
  revert toRemove. induction i as [|i IH]; intros toRemove.
  - simpl. split; [auto|]. intros [H|(j & Hj & _)]; [assumption|lia].
  - cbn [RangeList._redundantFrom]. rewrite IH. clear IH.
    destruct (Z.eqb_spec (snd (nth (S i) points (0, 0))) (snd (nth i points (0, 0))))
      as [He|Hne].
    + rewrite in_app_iff. simpl. split.
      * intros [[H|[H|[]]]|(j & Hj & H)]; [auto| |].
        -- right. exists i. split; [lia|]. auto.
        -- right. exists j. split; [lia|]. assumption.
      * intros [H|(j & Hj & H1 & H2)]; [auto|].
        destruct (Nat.eq_dec j i) as [->|Hji]; [auto|].
        right. exists j. split; [lia|]. auto.
    + split.
      * intros [H|(j & Hj & H)]; [auto|].
        right. exists j. split; [lia|]. assumption.
      * intros [H|(j & Hj & H1 & H2)]; [auto|].
        destruct (Nat.eq_dec j i) as [->|Hji]; [contradiction|].
        right. exists j. split; [lia|]. auto.
Qed.

Lemma redundant_In d pts k :
  In k (redundant d pts) <->
  (snd (nth 0 pts (0, 0)) = d /\ k = fst (nth 0 pts (0, 0)) /\ pts <> []) \/
  exists j, (S j < length pts)%nat /\
            snd (nth (S j) pts (0, 0)) = snd (nth j pts (0, 0)) /\
            k = fst (nth (S j) pts (0, 0)).
Proof.
  revert d. induction pts as [|[k0 v0] rest IH]; intros d.
  - simpl. split; [contradiction|].
    intros [(_ & _ & H)|(j & Hj & _)]; [congruence|lia].
  - cbn [redundant]. rewrite in_app_iff, IH. clear IH. cbn [nth length fst snd].
    split.
    + intros [H|[(H1 & H2 & H3)|(j & Hj & H1 & H2)]].
      * left. destruct (Z.eqb_spec v0 d); [|contradiction].
        destruct H as [<-|[]]. repeat split; [assumption|discriminate].
      * right. exists 0%nat. split; [|auto].
        destruct rest; [congruence|simpl; lia].
      * right. exists (S j). split; [lia|]. auto.
    + intros [(H1 & H2 & _)|(j & Hj & H1 & H2)].
      * left. subst. rewrite Z.eqb_refl. left. reflexivity.
      * right. destruct j as [|j].
        -- left. repeat split; try assumption.
           destruct rest; [simpl in Hj; lia|discriminate].
        -- right. exists j. split; [lia|]. auto.
Qed.

Lemma existsb_eqb_In (k : Z) (ks : list Z) :
  existsb (Z.eqb k) ks = true <-> In k ks.
Proof.
  rewrite existsb_exists. split.
  - intros (y & Hy & E). apply Z.eqb_eq in E. subst. assumption.
  - intros H. exists k. split; [assumption|apply Z.eqb_refl].
Qed.

Lemma redundant_keys d pts k : In k (redundant d pts) -> In k (map fst pts).
Proof.
  revert d. induction pts as [|[k0 v0] rest IH]; intros d; simpl; [auto|].
  rewrite in_app_iff. intros [H|H]; [|eauto].
  destruct (v0 =? d); [|contradiction]. destruct H as [<-|[]]. auto.
Qed.

(** On increasing keys, filtering out the redundant keys is [compress]. *)
Lemma filter_redundant d pts :
  StronglySorted Z.lt (map fst pts) ->
  filter (fun p => negb (existsb (Z.eqb (fst p)) (redundant d pts))) pts =
  compress d pts.
Proof.
  revert d. induction pts as [|[k v] rest IH]; intros d Hs; [reflexivity|].
  cbn [map fst] in Hs. apply sorted_cons in Hs. destruct Hs as [Hs Hlt].
  assert (Hk : ~ In k (redundant v rest)).
  { intros H. apply redundant_keys in H. specialize (Hlt k H). lia. }
  assert (Hrest : filter (fun p => negb (existsb (Z.eqb (fst p))
                                           (redundant d ((k, v) :: rest)))) rest
                  = compress v rest).
  { rewrite <- (IH v Hs). apply filter_ext_in. intros [k' v'] Hin. cbn [fst].
    f_equal. apply eq_true_iff_eq. rewrite !existsb_eqb_In.
    cbn [redundant]. rewrite in_app_iff.
    split; [|auto]. intros [H|H]; [|assumption].
    destruct (v =? d); [|contradiction]. destruct H as [<-|[]].
    apply in_keys in Hin. specialize (Hlt k Hin). lia. }
  cbn [filter compress fst]. rewrite Hrest.
  destruct (Z.eqb_spec v d) as [->|Hne].
  - assert (E : existsb (Z.eqb k) (redundant d ((k, d) :: rest)) = true).
    { apply existsb_eqb_In. simpl. rewrite Z.eqb_refl. left. reflexivity. }
    rewrite E. reflexivity.
  - assert (E : existsb (Z.eqb k) (redundant d ((k, v) :: rest)) = false).
    { apply not_true_is_false. rewrite existsb_eqb_In. cbn [redundant].
      destruct (Z.eqb_spec v d); [contradiction|]. exact Hk. }
    rewrite E. reflexivity.
Qed.

Lemma cleanupRedundantPoints_spec rl :
  rl_wf rl ->
  exists rl',
    RangeList._cleanupRedundantPoints rl = Some rl' /\ rl_wf rl' /\
    RangeList.toArray rl' =
    if (length (RangeList.toArray rl) <=? 1)%nat then RangeList.toArray rl
    else compress 0 (RangeList.toArray rl).
Proof.
  intros Hw. pose proof (rl_wf_sorted rl Hw) as Hs.
  unfold RangeList._cleanupRedundantPoints.
  fold (RangeList.toArray rl). set (pts := RangeList.toArray rl) in *.
  destruct (Nat.leb_spec (length pts) 1) as [Hlen|Hlen].
  - exists rl. auto.
  - cbn [app].
    set (toRemove := RangeList._redundantFrom pts (length pts - 1) _).
    destruct (for_of_remove (fun _ => true) toRemove (RangeList.tree rl) Hw)
      as (a' & E & Hw' & Ei).
    change (for_of remove toRemove (RangeList.tree rl) = Some a') in E.
    rewrite E. cbn [bind]. eexists. split; [reflexivity|].
    unfold rl_wf. cbn [RangeList.tree]. split; [assumption|].
    unfold RangeList.toArray at 1. cbn [RangeList.tree]. rewrite Ei.
    fold (RangeList.toArray rl). fold pts.
    rewrite <- (filter_redundant 0 pts Hs). apply filter_ext.
    intros [k v]. cbn [fst]. f_equal.
    assert (Hex : existsb (fun k0 => (k =? k0) && true) toRemove =
                  existsb (Z.eqb k) toRemove).
    { clear. induction toRemove as [|y ys IH]; simpl; [reflexivity|].
      rewrite IH, andb_true_r. reflexivity. }
    rewrite Hex. clear Hex.
    apply eq_true_iff_eq. rewrite !existsb_eqb_In.
    subst toRemove. rewrite redundantFrom_In, redundant_In.
    assert (Hne : pts <> []) by (destruct pts; [simpl in Hlen; lia|discriminate]).
    split.
    + intros [H|(j & Hj & H)].
      * left. destruct (Z.eqb_spec (snd (nth 0 pts (0, 0))) 0); [|contradiction].
        destruct H as [<-|[]]. auto.
      * right. exists j. split; [lia|assumption].
    + intros [(H1 & H2 & _)|(j & Hj & H)].
      * left. rewrite H1. simpl. auto.
      * right. exists j. split; [lia|assumption].
Qed.

Lemma effective_compress d pts p :
  StronglySorted Z.lt (map fst pts) ->
  effective d (compress d pts) p = effective d pts p.
Proof.
  revert d. induction pts as [|[k v] rest IH]; intros d Hs; [reflexivity|].
  cbn [map fst] in Hs. apply sorted_cons in Hs. destruct Hs as [Hs Hlt].
  cbn [compress effective].
  destruct (Z.eqb_spec v d) as [->|Hne].
  - rewrite (IH d Hs). destruct (Z.leb_spec k p) as [Hle|Hgt]; [reflexivity|].
    apply effective_none. intros k' Hk'. specialize (Hlt k' Hk'). lia.
  - cbn [effective]. rewrite (IH v Hs). reflexivity.
Qed.

Lemma compress_canon d pts : canon_from d (compress d pts).
Proof.
  revert d. induction pts as [|[k v] rest IH]; intros d; simpl; [exact I|].
  destruct (Z.eqb_spec v d) as [->|Hne]; [apply IH|].
  simpl. split; [assumption|apply IH].
Qed.

Lemma canon_from_canonical pts :
  canon_from 0 pts -> no_adjacent_equal pts /\ first_nonzero pts.
Proof.
  intros H. split.
  - revert H. generalize 0. induction pts as [|[k v] rest IH]; intros d H;
      [exact I|].
    destruct H as [_ H]. simpl. split; [|apply (IH v H)].
    destruct rest as [|[k' v'] rest']; [exact I|].
    destruct H as [H _]. congruence.
  - destruct pts as [|[k v] rest]; [exact I|]. apply H.
Qed.

Lemma two_keys (ks : list Z) a b :
  In a ks -> In b ks -> a <> b -> (2 <= length ks)%nat.
Proof.
  destruct ks as [|x [|y ks]]; simpl; intros Ha Hb Hab; [contradiction|lia|lia].
Qed.

Lemma cleanup_sem rl :
  rl_wf rl ->
  exists rl',
    RangeList._cleanupRedundantPoints rl = Some rl' /\ rl_wf rl' /\
    (forall p, intensity rl' p = intensity rl p) /\
    ((2 <= length (RangeList.toArray rl))%nat ->
     canon_from 0 (RangeList.toArray rl')).
Proof.
  intros Hw. pose proof (rl_wf_sorted rl Hw) as Hs.
  destruct (cleanupRedundantPoints_spec rl Hw) as (rl' & E & Hw' & Ht).
  exists rl'. split; [assumption|]. split; [assumption|].
  unfold intensity. rewrite Ht.
  destruct (Nat.leb_spec (length (RangeList.toArray rl)) 1) as [Hlen|Hlen].
  - split; [reflexivity|]. lia.
  - split; [|intros _; apply compress_canon].
    intros p. apply effective_compress. assumption.
Qed.

(** *** What [add] does to the effective intensity *)

Lemma keys_bump from to amount pts :
  map fst (map (bump from to amount) pts) = map fst pts.
Proof.
  rewrite map_map. apply map_ext. intros [k v]. unfold bump. simpl.
  destruct (_ && _); reflexivity.
Qed.

Lemma effective_bump from to amount pts p :
  StronglySorted Z.lt (map fst pts) ->
  In from (map fst pts) -> In to (map fst pts) -> from < to ->
  effective 0 (map (bump from to amount) pts) p =
  if (from <=? p) && (p <? to) then js_add (effective 0 pts p) amount
  else effective 0 pts p.
Proof.
  intros Hs Hfrom Hto Hft.
  destruct (floor_exists pts p) as [o Ho].
  rewrite (effective_greatest 0 pts p o Hs Ho).
  destruct o as [[k v]|].
  - destruct Ho as (Hin & Hk & Hmax).
    rewrite (effective_greatest 0 _ p (Some (bump from to amount (k, v)))).
    + unfold bump. cbn [fst snd].
      pose proof (Hmax from Hfrom) as Hf. pose proof (Hmax to Hto) as Ht.
      destruct (Z.leb_spec from k), (Z.ltb_spec k to), (Z.leb_spec from p),
        (Z.ltb_spec p to); cbn [andb]; try reflexivity; lia.
    + rewrite keys_bump. assumption.
    + assert (Ek : bump from to amount (k, v) = (k, snd (bump from to amount (k, v)))).
      { unfold bump. cbn [fst snd]. destruct (_ && _); reflexivity. }
      rewrite Ek. cbn [floor_is]. rewrite <- Ek, keys_bump.
      split; [apply in_map; assumption|]. split; assumption.
  - rewrite (effective_greatest 0 _ p None).
    + specialize (Ho from Hfrom).
      destruct (Z.leb_spec from p); [lia|]. reflexivity.
    + rewrite keys_bump. assumption.
    + cbn [floor_is]. rewrite keys_bump. exact Ho.
Qed.

Lemma add_sem rl from to amount :
  rl_wf rl ->
  exists rl',
    RangeList.add rl from to amount = Some rl' /\ rl_wf rl' /\
    (from >= to \/ amount = 0 -> rl' = rl) /\
    (from < to -> amount <> 0 ->
     (forall p, intensity rl' p =
                if (from <=? p) && (p <? to)
                then js_add (intensity rl p) amount else intensity rl p)
     /\ canon_from 0 (RangeList.toArray rl')).
Proof.
  intros Hw. unfold RangeList.add.
  destruct (Z.geb_spec from to) as [Hge|Hlt]; cbn [orb].
  { exists rl. split; [reflexivity|]. split; [assumption|].
    split; [reflexivity|]. intros. lia. }
  destruct (Z.eqb_spec amount 0) as [Hz|Hnz].
  { exists rl. split; [reflexivity|]. split; [assumption|].
    split; [reflexivity|]. intros. contradiction. }
  destruct (ensurePointExists_spec rl from Hw) as (rl1 & -> & Hw1 & Hf1 & _ & Hi1).
  cbn [bind].
  destruct (ensurePointExists_spec rl1 to Hw1) as (rl2 & -> & Hw2 & Ht2 & Hk2 & Hi2).
  cbn [bind]. specialize (Hk2 from Hf1).
  destruct (adjustIntensities_spec rl2 from to amount Hw2 Hlt) as [Hw3 E3].
  destruct (cleanup_sem _ Hw3) as (rl4 & E4 & Hw4 & Hi4 & Hc4).
  exists rl4. split; [assumption|]. split; [assumption|].
  split; [intros [?|?]; [lia|contradiction]|]. intros _ _. split.
  - intros p. rewrite Hi4. unfold intensity at 1. rewrite E3.
    rewrite effective_bump; try assumption; [|apply rl_wf_sorted; assumption].
    fold (intensity rl2 p). rewrite Hi2, Hi1. reflexivity.
  - apply Hc4. rewrite E3, length_map, <- (length_map fst).
    apply (two_keys _ from to); try assumption. lia.
Qed.

(** *** What [set] does to the effective intensity *)

Lemma in_upd k v x w pts :
  In (k, v) (upd x w pts) <->
  (k = x /\ v = w /\ In x (map fst pts)) \/ (k <> x /\ In (k, v) pts).
Proof.
  unfold upd. rewrite in_map_iff. split.
  - intros ([k' v'] & E & Hin). cbn [fst] in E.
    destruct (Z.eqb_spec k' x) as [->|Hne]; injection E as <- <-.
    + left. repeat split. apply (in_keys _ _ _ Hin).
    + right. auto.
  - intros [(-> & -> & Hin)|(Hne & Hin)].
    + apply in_keys_inv in Hin. destruct Hin as (v' & Hin).
      exists (x, v'). cbn [fst]. rewrite Z.eqb_refl. auto.
    + exists (k, v). cbn [fst]. destruct (Z.eqb_spec k x); [contradiction|auto].
Qed.

Lemma in_keys_filter (g : Z -> bool) (pts : list (Z * Z)) k :
  In k (map fst (filter (fun p => g (fst p)) pts)) <->
  In k (map fst pts) /\ g k = true.
Proof.
  rewrite !in_map_iff. split.
  - intros ([k' v'] & <- & Hin). apply filter_In in Hin. cbn [fst] in *.
    destruct Hin as [Hin Hg]. split; [|assumption]. exists (k', v'). auto.
  - intros (([k' v'] & <- & Hin) & Hg). exists (k', v').
    split; [reflexivity|]. apply filter_In. auto.
Qed.

Lemma filter_sorted (f : Z * Z -> bool) pts :
  StronglySorted Z.lt (map fst pts) ->
  StronglySorted Z.lt (map fst (filter f pts)).
Proof.
  induction pts as [|[k' v'] pts IH]; simpl; intros H; [constructor|].
  apply sorted_cons in H. destruct H as [H1 H2].
  destruct (f (k', v')); simpl; [|auto].
  apply sorted_cons. split; [auto|].
  intros y Hy. apply H2. apply in_map_iff in Hy. destruct Hy as (p & <- & Hp).
  apply filter_In in Hp. apply in_map. tauto.
Qed.

Section SetOnBreakpoints.

Variables (from to amount : Z) (pts : list (Z * Z)).
Hypothesis Hsorted : StronglySorted Z.lt (map fst pts).
Hypothesis Hfrom : In from (map fst pts).
Hypothesis Hto : In to (map fst pts).
Hypothesis Hlt : from < to.

Let pts' : list (Z * Z) := set_breakpoints from to amount pts.

Lemma set_keys k :
  In k (map fst pts') <-> In k (map fst pts) /\ inside from to k = false.
Proof.
  unfold pts', set_breakpoints. rewrite !keys_upd.
  rewrite (in_keys_filter (fun k => negb (inside from to k))).
  rewrite negb_true_iff. reflexivity.
Qed.

Lemma set_sorted : StronglySorted Z.lt (map fst pts').
Proof. unfold pts', set_breakpoints. rewrite !keys_upd. apply filter_sorted. assumption. Qed.

Lemma inside_iff k : inside from to k = true <-> from < k < to.
Proof. unfold inside. rewrite andb_true_iff, Z.gtb_lt, Z.ltb_lt. tauto. Qed.

Lemma outside_iff k : inside from to k = false <-> k <= from \/ to <= k.
Proof.
  rewrite <- not_true_iff_false, inside_iff. lia.
Qed.

Lemma set_in k v :
  In (k, v) pts' <->
  (k = to /\ v = effective 0 pts to) \/
  (k = from /\ v = amount) \/
  (k <> to /\ k <> from /\ In (k, v) pts /\ inside from to k = false).
Proof.
  unfold pts', set_breakpoints. rewrite in_upd, keys_upd, in_upd.
  rewrite !(in_keys_filter (fun k => negb (inside from to k))).
  rewrite filter_In. cbn [fst]. rewrite !negb_true_iff.
  assert (inside from to from = false) by (apply outside_iff; lia).
  assert (inside from to to = false) by (apply outside_iff; lia).
  split.
  - intros [(-> & -> & _)|(Hne & [(-> & -> & _)|(Hne' & Hin & Ho)])]; auto.
    right. right. auto.
  - intros [(-> & ->)|[(-> & ->)|(H1 & H2 & H3 & H4)]].
    + left. auto.
    + right. split; [lia|]. left. auto.
    + right. split; [assumption|]. right. auto.
Qed.

Lemma set_effective_inside p :
  from <= p < to -> effective 0 pts' p = amount.
Proof.
  intros Hp.
  apply (effective_greatest 0 pts' p (Some (from, amount)) set_sorted).
  split; [|split].
  - apply set_in. auto.
  - lia.
  - intros k' Hk' Hle. apply set_keys in Hk'. destruct Hk' as [_ Ho].
    apply outside_iff in Ho. lia.
Qed.

Lemma set_effective_after p :
  to <= p -> effective 0 pts' p = effective 0 pts p.
Proof.
  intros Hp. destruct (floor_exists pts p) as [o Ho].
  rewrite (effective_greatest 0 pts p o Hsorted Ho).
  destruct o as [[k v]|]; [|specialize (Ho to Hto); lia].
  destruct Ho as (Hin & Hk & Hmax).
  pose proof (Hmax to Hto Hp) as Htk.
  apply (effective_greatest 0 pts' p (Some (k, v)) set_sorted).
  split; [|split].
  - apply set_in. destruct (Z.eq_dec k to) as [->|Hne].
    + left. split; [reflexivity|]. symmetry.
      apply (effective_greatest 0 pts to (Some (to, v)) Hsorted).
      split; [assumption|]. split; [lia|]. intros; assumption.
    + right. right. repeat split; try assumption; try lia.
      apply outside_iff. lia.
  - assumption.
  - intros k' Hk' Hle. apply set_keys in Hk'. apply Hmax; tauto.
Qed.

Lemma set_effective_before p :
  p < from -> effective 0 pts' p = effective 0 pts p.
Proof.
  intros Hp. destruct (floor_exists pts p) as [o Ho].
  rewrite (effective_greatest 0 pts p o Hsorted Ho).
  destruct o as [[k v]|].
  - destruct Ho as (Hin & Hk & Hmax).
    apply (effective_greatest 0 pts' p (Some (k, v)) set_sorted).
    split; [|split].
    + apply set_in. right. right. repeat split; try assumption; try lia.
      apply outside_iff. lia.
    + assumption.
    + intros k' Hk' Hle. apply set_keys in Hk'. apply Hmax; tauto.
  - apply (effective_greatest 0 pts' p None set_sorted).
    intros k' Hk'. apply set_keys in Hk'. apply Ho. tauto.
Qed.

End SetOnBreakpoints.

Lemma set_sem rl from to amount :
  rl_wf rl ->
  exists rl',
    RangeList.set rl from to amount = Some rl' /\ rl_wf rl' /\
    (from >= to -> rl' = rl) /\
    (from < to ->
     (forall p, from <= p < to -> intensity rl' p = amount) /\
     (forall p, to <= p -> intensity rl' p = intensity rl p) /\
     (forall p, p < from -> intensity rl' p = intensity rl p) /\
     canon_from 0 (RangeList.toArray rl')).
Proof.
  intros Hw. unfold RangeList.set.
  destruct (Z.geb_spec from to) as [Hge|Hlt].
  { exists rl. split; [reflexivity|]. split; [assumption|].
    split; [reflexivity|]. intros. lia. }
  rewrite (getIntensityAt_effective rl to (proj1 Hw)).
  destruct (ensurePointExists_spec rl from Hw) as (rl1 & -> & Hw1 & Hf1 & _ & Hi1).
  cbn [bind].
  destruct (ensurePointExists_spec rl1 to Hw1) as (rl2 & -> & Hw2 & Ht2 & Hk2 & Hi2).
  cbn [bind]. specialize (Hk2 from Hf1).
  destruct (removePointsInRange_spec rl2 from to Hw2) as (rl3 & -> & Hw3 & E3).
  cbn [bind].
  destruct (update_wf (RangeList.tree rl3) from amount Hw3) as [Hw4 E4].
  destruct (update_wf (AVLTree.update (RangeList.tree rl3) from amount) to
              (intensity rl to) Hw4) as [Hw5 E5].
  cbn [RangeList.tree].
  set (rl5 := RangeList.mk (AVLTree.update _ to (intensity rl to))) in *.
  assert (Hi : forall p, intensity rl2 p = intensity rl p)
    by (intros p; rewrite Hi2; apply Hi1).
  pose proof (rl_wf_sorted rl2 Hw2) as Hs2.
  assert (E : RangeList.toArray rl5 =
              upd to (effective 0 (RangeList.toArray rl2) to)
                (upd from amount
                   (filter (fun p => negb (inside from to (fst p)))
                      (RangeList.toArray rl2)))).
  { unfold RangeList.toArray at 1. subst rl5. cbn [RangeList.tree].
    rewrite E5, E4. fold (RangeList.toArray rl3). rewrite E3.
    fold (intensity rl2 to). rewrite Hi. reflexivity. }
  destruct (cleanup_sem rl5 Hw5) as (rl6 & E6 & Hw6 & Hi6 & Hc6).
  exists rl6. split; [assumption|]. split; [assumption|].
  split; [intros; lia|]. intros _.
  split; [|split; [|split]].
  - intros p Hp. rewrite Hi6. unfold intensity. rewrite E.
    apply set_effective_inside; assumption.
  - intros p Hp. rewrite Hi6, <- Hi. unfold intensity. rewrite E.
    apply set_effective_after; assumption.
  - intros p Hp. rewrite Hi6, <- Hi. unfold intensity. rewrite E.
    apply set_effective_before; assumption.
  - apply Hc6. rewrite <- (length_map fst), E.
    apply (two_keys _ from to); [| |lia].
    + apply set_keys. split; [assumption|]. apply outside_iff. lia.
    + apply set_keys. split; [assumption|]. apply outside_iff. lia.
Qed.

(** *** Reachable range lists *)

Lemma rl_inv_new : rl_inv RangeList.new.
Proof. split; [apply wf_new|exact I]. Qed.

Lemma list_step_inv rl c :
  rl_inv rl -> exists rl', list_step rl c = Some rl' /\ rl_inv rl'.
Proof.
  intros [Hw Hc]. destruct c as [f t a|f t a]; cbn [list_step].
  - destruct (add_sem rl f t a Hw) as (rl' & E & Hw' & Hnoop & Hdo).
    exists rl'. split; [assumption|]. split; [assumption|].
    destruct (Z.lt_ge_cases f t) as [Hlt|Hge].
    + destruct (Z.eq_dec a 0) as [Hz|Hnz].
      * rewrite Hnoop by auto. assumption.
      * apply Hdo; assumption.
    + rewrite Hnoop by (left; lia). assumption.
  - destruct (set_sem rl f t a Hw) as (rl' & E & Hw' & Hnoop & Hdo).
    exists rl'. split; [assumption|]. split; [assumption|].
    destruct (Z.lt_ge_cases f t) as [Hlt|Hge].
    + apply Hdo; assumption.
    + rewrite Hnoop by lia. assumption.
Qed.

Lemma for_of_list_step_inv cs rl :
  rl_inv rl ->
  exists rl', for_of list_step cs rl = Some rl' /\ rl_inv rl'.
Proof.
  revert rl. induction cs as [|c cs IH]; intros rl Hi; simpl.
  - eauto.
  - destruct (list_step_inv rl c Hi) as (rl1 & -> & Hi1). cbn [bind].
    apply IH. assumption.
Qed.

(** No sequence of [add] and [set] calls throws. *)
Lemma list_after_total cs : exists rl, list_after cs = Some rl /\ rl_inv rl.
Proof. apply for_of_list_step_inv. apply rl_inv_new. Qed.

Lemma list_after_inv cs rl : list_after cs = Some rl -> rl_inv rl.
Proof.
  intros H. destruct (list_after_total cs) as (rl' & E & Hi).
  rewrite H in E. injection E as <-. assumption.
Qed.

(** *** Inserting a stored key *)

Lemma replace_value_height key value n :
  _getHeight (replace_value key value n) = _getHeight n.
Proof. destruct n; reflexivity. Qed.

Lemma replace_value_absent key value n :
  ~ In key (keys n) -> replace_value key value n = n.
Proof.
  induction n as [|l IHl k v h r IHr]; intros Hn; [reflexivity|].
  rewrite keys_node in Hn. rewrite in_app_iff in Hn. simpl in Hn.
  simpl. rewrite IHl, IHr by tauto.
  destruct (Z.eqb_spec k key); [tauto|reflexivity].
Qed.

Lemma skeleton_replace_value key value n :
  skeleton (replace_value key value n) = skeleton n.
Proof.
  induction n as [|l IHl k v h r IHr]; simpl; [reflexivity|].
  rewrite IHl, IHr. reflexivity.
Qed.

Lemma balance_balanced l k v r :
  -1 <= _getHeight l - _getHeight r <= 1 ->
  let n := Node l k v (1 + Z.max (_getHeight l) (_getHeight r)) r in
  _balance n = Some n /\ rotations_in_balance n = 0%nat.
Proof.
  intros Hb n. subst n. unfold _balance, rotations_in_balance.
  cbn [_getBalanceFactor].
  destruct (Z.gtb_spec (_getHeight l - _getHeight r) 1); [lia|].
  destruct (Z.ltb_spec (_getHeight l - _getHeight r) (-1)); [lia|].
  split; reflexivity.
Qed.

Lemma insertNode_existing n key value :
  bst n -> avl n -> In key (keys n) ->
  _insertNode n key value = Some (replace_value key value n) /\
  rotations_in_insert n key value = 0%nat.
Proof.
  induction n as [|l IHl k v h r IHr]; intros Hb Ha Hin; [destruct Hin|].
  apply bst_node in Hb. destruct Hb as (Hbl & Hbr & Hlk & Hrk).
  destruct Ha as (Hal & Har & Hh & Hbal).
  rewrite keys_node in Hin. apply in_app_or in Hin.
  cbn [_insertNode rotations_in_insert replace_value].
  destruct (Z.ltb_spec key k) as [Hlt|Hge].
  - assert (Hin' : In key (keys l)).
    { destruct Hin as [H|[H|H]]; [assumption|lia|]. specialize (Hrk key H). lia. }
    destruct (IHl Hbl Hal Hin') as [-> ->]. cbn [bind _updateHeightAndBalance].
    rewrite replace_value_height.
    destruct (balance_balanced l k v r Hbal) as [_ Hr0].
    destruct (balance_balanced (replace_value key value l) k v r) as [E R0];
      [rewrite replace_value_height; assumption|].
    rewrite replace_value_height in E, R0. rewrite E, R0, <- Hh.
    rewrite (replace_value_absent key value r).
    + destruct (Z.eqb_spec k key); [lia|]. split; reflexivity.
    + intros H. specialize (Hrk key H). lia.
  - destruct (Z.gtb_spec key k) as [Hgt|Hle].
    + assert (Hin' : In key (keys r)).
      { destruct Hin as [H|[H|H]]; [|lia|assumption]. specialize (Hlk key H). lia. }
      destruct (IHr Hbr Har Hin') as [-> ->]. cbn [bind _updateHeightAndBalance].
      rewrite replace_value_height.
      destruct (balance_balanced l k v (replace_value key value r)) as [E R0];
        [rewrite replace_value_height; assumption|].
      rewrite replace_value_height in E, R0. rewrite E, R0, <- Hh.
      rewrite (replace_value_absent key value l).
      * destruct (Z.eqb_spec k key); [lia|]. split; reflexivity.
      * intros H. specialize (Hlk key H). lia.
    + assert (key = k) as -> by lia. rewrite Z.eqb_refl.
      rewrite !replace_value_absent; [split; reflexivity| |].
      * intros H. specialize (Hrk k H). lia.
      * intros H. specialize (Hlk k H). lia.
Qed.

(** *** Lookups against the in-order sequence *)

Lemma entry_find_In a x k v :
  wf a ->
  entry (find a x) = Some (k, v) <-> k = x /\ In (x, v) (inOrderTraversal a).
Proof.
  intros [Hb _]. unfold find. rewrite inOrderTraversal_inorder.
  pose proof (findNode_spec (root a) x Hb) as Hf.
  destruct (_findNode (root a) x) as [|fl fk fv fh fr]; cbn [entry].
  - split; [discriminate|]. intros [_ Hin]. exfalso. apply Hf.
    apply (in_keys _ _ _ Hin).
  - destruct Hf as [-> Hin]. split.
    + intros [= <- <-]. auto.
    + intros [-> Hin']. f_equal. f_equal.
      apply (sorted_unique_value _ _ _ _ Hb Hin Hin').
Qed.

Lemma entry_find_None a x :
  wf a ->
  entry (find a x) = None <-> ~ In x (map fst (inOrderTraversal a)).
Proof.
  intros [Hb _]. unfold find. rewrite inOrderTraversal_inorder.
  pose proof (findNode_spec (root a) x Hb) as Hf.
  destruct (_findNode (root a) x) as [|fl fk fv fh fr]; cbn [entry].
  - split; [intros _; exact Hf|reflexivity].
  - destruct Hf as [-> Hin]. split; [discriminate|].
    intros Hn. exfalso. apply Hn. apply (in_keys _ _ _ Hin).
Qed.

(** Two trees that store the same values at [x] answer [find(x)] alike. *)
Lemma entry_find_ext a a' x :
  wf a -> wf a' ->
  (forall v, In (x, v) (inOrderTraversal a') <-> In (x, v) (inOrderTraversal a)) ->
  entry (find a' x) = entry (find a x).
Proof.
  intros Hw Hw' Hiff.
  destruct (entry (find a x)) as [[k v]|] eqn:E.
  - apply (entry_find_In _ _ _ _ Hw) in E. destruct E as [-> Hin].
    apply (entry_find_In _ _ _ _ Hw'). split; [reflexivity|]. apply Hiff. assumption.
  - apply (entry_find_None _ _ Hw) in E. apply (entry_find_None _ _ Hw').
    intros Hin. apply E. apply in_keys_inv in Hin. destruct Hin as (v & Hin).
    apply Hiff in Hin. apply (in_keys _ _ _ Hin).
Qed.

Lemma in_ins x v k w pts :
  StronglySorted Z.lt (map fst pts) ->
  In (x, v) (ins k w pts) <-> (x = k /\ v = w) \/ (x <> k /\ In (x, v) pts).
Proof.
  induction pts as [|[k' v'] pts IH]; intros Hs; cbn [map fst] in Hs; simpl.
  - split.
    + intros [[= <- <-]|[]]. auto.
    + intros [[-> ->]|[_ []]]. auto.
  - apply sorted_cons in Hs. destruct Hs as [Hs Hlt].
    destruct (Z.ltb_spec k k') as [Hk|Hk].
    + simpl. split.
      * intros [[= <- <-]|[[= <- <-]|Hin]]; [auto|right; split; [lia|auto]|].
        right. split; [|auto]. apply in_keys in Hin. specialize (Hlt x Hin). lia.
      * intros [[-> ->]|[Hne [H|H]]]; auto.
    + destruct (Z.gtb_spec k k') as [Hk'|Hk'].
      * simpl. rewrite (IH Hs). split.
        -- intros [[= <- <-]|[H|[Hne H]]]; [right; split; [lia|auto]|auto|auto].
        -- intros [H|[Hne [H|H]]]; auto.
      * assert (k = k') as -> by lia. simpl. split.
        -- intros [[= <- <-]|Hin]; [auto|]. right. split; [|auto].
           apply in_keys in Hin. specialize (Hlt x Hin). lia.
        -- intros [[-> ->]|[Hne [[= <- <-]|H]]]; [auto|contradiction|auto].
Qed.

Lemma in_del x v k pts :
  In (x, v) (del k pts) <-> x <> k /\ In (x, v) pts.
Proof.
  unfold del. rewrite filter_In. cbn [fst]. rewrite negb_true_iff, Z.eqb_neq.
  tauto.
Qed.

Lemma entry_None (n : node) : entry n = None <-> n = null.
Proof. destruct n; simpl; split; congruence. Qed.

Lemma truthy_find a k :
  wf a -> truthy (find a k) = true <-> In k (map fst (inOrderTraversal a)).
Proof.
  intros Hw. pose proof (entry_find_None a k Hw) as Hn.
  destruct (find a k) as [|fl fk fv fh fr] eqn:E; cbn [truthy entry] in *.
  - split; [discriminate|]. intros Hin. exfalso. apply Hn; auto.
  - split; [|reflexivity]. intros _.
    destruct (in_dec Z.eq_dec k (map fst (inOrderTraversal a))) as [H|H];
      [assumption|]. apply Hn in H. discriminate.
Qed.

(** *** One call against the finite map *)

Lemma lookup_Some a x v :
  wf a -> lookup a x = Some v <-> In (x, v) (inOrderTraversal a).
Proof.
  intros Hw. unfold lookup.
  destruct (entry (find a x)) as [[k w]|] eqn:E; cbn [option_map snd].
  - apply (entry_find_In _ _ _ _ Hw) in E. destruct E as [-> Hin]. split.
    + intros [= <-]. assumption.
    + intros Hin'. f_equal.
      apply (sorted_unique_value (inOrderTraversal a) x); try assumption.
      rewrite inOrderTraversal_inorder. apply Hw.
  - apply (entry_find_None _ _ Hw) in E. split; [discriminate|].
    intros Hin. exfalso. apply E. apply (in_keys _ _ _ Hin).
Qed.

Lemma lookup_ext a a' x :
  wf a -> wf a' ->
  (forall v, In (x, v) (inOrderTraversal a') <-> In (x, v) (inOrderTraversal a)) ->
  lookup a' x = lookup a x.
Proof.
  intros Hw Hw' H. unfold lookup. rewrite (entry_find_ext a a' x Hw Hw' H).
  reflexivity.
Qed.

Lemma wf_sorted a : wf a -> StronglySorted Z.lt (map fst (inOrderTraversal a)).
Proof. intros [Hb _]. rewrite inOrderTraversal_inorder. exact Hb. Qed.

Lemma lookup_step a c a' :
  wf a -> tree_step a c = Some a' ->
  forall x, lookup a' x = model_step (lookup a) c x.
Proof.
  intros Hw E x. pose proof (wf_sorted a Hw) as Hs.
  destruct c as [k v|k v|k]; cbn [tree_step model_step] in *.
  - destruct (insert_wf a k v Hw) as (a1 & E1 & Hw1 & Hi).
    rewrite E in E1. injection E1 as <-.
    destruct (Z.eqb_spec x k) as [->|Hne].
    + apply (lookup_Some _ _ _ Hw1). rewrite Hi. apply in_ins; auto.
    + apply lookup_ext; try assumption. intros w. rewrite Hi, in_ins by assumption.
      tauto.
  - injection E as <-. destruct (update_wf a k v Hw) as [Hw1 Hi].
    destruct (Z.eqb_spec x k) as [->|Hne].
    + destruct (lookup a k) as [w|] eqn:El.
      * apply (lookup_Some _ _ _ Hw1). rewrite Hi. apply in_upd. left.
        apply (lookup_Some _ _ _ Hw) in El. repeat split.
        apply (in_keys _ _ _ El).
      * destruct (lookup (update a k v) k) as [w|] eqn:El'; [|reflexivity].
        apply (lookup_Some _ _ _ Hw1) in El'. rewrite Hi in El'.
        apply in_upd in El'. destruct El' as [(_ & _ & Hin)|[Hne _]]; [|congruence].
        apply in_keys_inv in Hin. destruct Hin as (w' & Hin).
        apply (lookup_Some _ _ _ Hw) in Hin. congruence.
    + apply lookup_ext; try assumption. intros w. rewrite Hi, in_upd. tauto.
  - destruct (remove_wf a k Hw) as (a1 & E1 & Hw1 & Hi).
    rewrite E in E1. injection E1 as <-.
    destruct (Z.eqb_spec x k) as [->|Hne].
    + destruct (lookup a' k) as [w|] eqn:El'; [|reflexivity].
      apply (lookup_Some _ _ _ Hw1) in El'. rewrite Hi in El'.
      apply in_del in El'. tauto.
    + apply lookup_ext; try assumption. intros w. rewrite Hi, in_del. tauto.
Qed.

Lemma model_refines cs a0 a m0 :
  wf a0 -> (forall x, lookup a0 x = m0 x) ->
  for_of tree_step cs a0 = Some a ->
  forall x, lookup a x = fold_left model_step cs m0 x.
Proof.
  revert a0 m0. induction cs as [|c cs IH]; intros a0 m0 Hw Hm E x;
    cbn [for_of fold_left] in *.
  - injection E as <-. apply Hm.
  - destruct (tree_step a0 c) as [a1|] eqn:E1; [|discriminate]. cbn [bind] in E.
    destruct (tree_step_wf a0 c Hw) as (a1' & E1' & Hw1).
    rewrite E1 in E1'. injection E1' as <-.
    apply (IH a1 (model_step m0 c) Hw1); [|assumption].
    intros y. rewrite (lookup_step a0 c a1 Hw E1 y).
    destruct c as [k v|k v|k]; cbn [model_step]; rewrite ?Hm; reflexivity.
Qed.

(** * The claims *)




(** C2.  On a reachable range list, [set(from, to, amount)] returns
    normally; it leaves [toArray()] as it was when [from >= to]; when
    [from < to], afterwards the effective intensity is [amount] at every
    position in [[from, to)], and at every [p >= to] it is what it was
    just before the call. *)
Theorem set_spec cs rl from to amount :
  list_after cs = Some rl ->
  exists rl',
    RangeList.set rl from to amount = Some rl' /\
    (from >= to -> RangeList.toArray rl' = RangeList.toArray rl) /\
    (from < to ->
     (forall p, from <= p < to -> intensity rl' p = amount) /\
     (forall p, to <= p -> intensity rl' p = intensity rl p)).
Proof.
  intros Hr. apply list_after_inv in Hr. destruct Hr as [Hw _].
  destruct (set_sem rl from to amount Hw) as (rl' & E & _ & Hnoop & Hdo).
  exists rl'. split; [assumption|]. split.
  - intros H. rewrite (Hnoop H). reflexivity.
  - intros Hlt. destruct (Hdo Hlt) as (H1 & H2 & _). split; assumption.
Qed.

Lemma set_spec_witness :
  exists rl',
    RangeList.set list_10_30 20 40 5 = Some rl' /\
    (20 >= 40 -> RangeList.toArray rl' = RangeList.toArray list_10_30) /\
    (20 < 40 ->
     (forall p, 20 <= p < 40 -> intensity rl' p = 5) /\
     (forall p, 40 <= p -> intensity rl' p = intensity list_10_30 p)).
Proof. exact (set_spec [Add 10 30 1] list_10_30 20 40 5 eq_refl). Defined.

(** C3.  Canonical form: after any [add] or [set] call on a reachable range
    list, the pairs of [toArray()] come with increasing keys, no two
    neighbours among them have the same intensity, and the first one, if
    there is one, has an intensity other than 0. *)
Theorem canonical_form cs rl c :
  list_after cs = Some rl ->
  exists rl',
    list_step rl c = Some rl' /\
    StronglySorted Z.lt (map fst (RangeList.toArray rl')) /\
    no_adjacent_equal (RangeList.toArray rl') /\
    first_nonzero (RangeList.toArray rl').
Proof.
  intros Hr. apply list_after_inv in Hr.
  destruct (list_step_inv rl c Hr) as (rl' & E & Hw & Hc).
  exists rl'. split; [assumption|]. split; [apply rl_wf_sorted; assumption|].
  apply canon_from_canonical. assumption.
Qed.

Lemma canonical_form_witness :
  exists rl',
    list_step list_10_30 (Add 30 50 1) = Some rl' /\
    StronglySorted Z.lt (map fst (RangeList.toArray rl')) /\
    no_adjacent_equal (RangeList.toArray rl') /\
    first_nonzero (RangeList.toArray rl').
Proof. exact (canonical_form [Add 10 30 1] list_10_30 (Add 30 50 1) eq_refl). Defined.

(** C4.  Balance: whatever [insert], [update] and [remove] calls are made
    on a fresh tree, they all return normally, and in the tree they leave
    every node's cached height is 1 plus the larger of its children's
    heights (0 for an absent child) and every node's balance factor is -1,
    0 or 1. *)
Theorem avl_balance_invariant cs :
  exists a,
    tree_after cs = Some a /\
    every_node height_cached (root a) /\
    every_node balance_ok (root a).
Proof.
  destruct (tree_after_wf cs) as (a & E & _ & Ha).
  exists a. split; [assumption|]. apply every_node_avl. assumption.
Qed.

(** C5.  Order: in every tree reached from a fresh one by [insert],
    [update] and [remove] calls, [inOrderTraversal()] yields the stored
    (key, value) pairs with strictly increasing keys: it lists every node of
    the tree once, left subtree first, and its pairs are exactly those the
    calls left stored, which are those [find] finds.  A rotation, and so a
    whole [_balance], leaves the in-order sequence as it was. *)
Theorem bst_order_invariant cs a :
  tree_after cs = Some a ->
  StronglySorted Z.lt (map fst (inOrderTraversal a)) /\
  inOrderTraversal a = inorder (root a) /\
  (forall k v, In (k, v) (inOrderTraversal a) <-> model_after cs k = Some v) /\
  (forall k v, In (k, v) (inOrderTraversal a) <->
               entry (find a k) = Some (k, v)) /\
  (forall y x, _rotateRight y = Some x ->
               _inOrder x [] = _inOrder y [] /\ inorder x = inorder y) /\
  (forall x y, _rotateLeft x = Some y ->
               _inOrder y [] = _inOrder x [] /\ inorder y = inorder x) /\
  (forall n n', _balance n = Some n' ->
                _inOrder n' [] = _inOrder n [] /\ inorder n' = inorder n).
Proof.
  intros Hr. pose proof (tree_after_inv cs a Hr) as Hw. pose proof Hw as [Hb _].
  split; [rewrite inOrderTraversal_inorder; exact Hb|].
  split; [apply inOrderTraversal_inorder|].
  split; [|split; [|split; [|split]]].
  - intros k v. rewrite <- (lookup_Some a k v Hw).
    rewrite (model_refines cs AVLTree.new a (fun _ => None) wf_new
               (fun _ => eq_refl) Hr k).
    reflexivity.
  - intros k v. rewrite (entry_find_In a k k v Hw). tauto.
  - intros y x H. rewrite !inOrder_acc.
    rewrite (rotateRight_inorder _ _ H). auto.
  - intros x y H. rewrite !inOrder_acc.
    rewrite (rotateLeft_inorder _ _ H). auto.
  - intros n n' H. rewrite !inOrder_acc.
    rewrite (balance_inorder _ _ H). auto.
Qed.

Lemma bst_order_invariant_witness :
  StronglySorted Z.lt (map fst (inOrderTraversal tree_20_10_30)) /\
  inOrderTraversal tree_20_10_30 = inorder (root tree_20_10_30) /\
  (forall k v, In (k, v) (inOrderTraversal tree_20_10_30) <->
               model_after [Insert 20 2; Insert 10 1; Insert 30 3] k = Some v) /\
  (forall k v, In (k, v) (inOrderTraversal tree_20_10_30) <->
               entry (find tree_20_10_30 k) = Some (k, v)) /\
  (forall y x, _rotateRight y = Some x ->
               _inOrder x [] = _inOrder y [] /\ inorder x = inorder y) /\
  (forall x y, _rotateLeft x = Some y ->
               _inOrder y [] = _inOrder x [] /\ inorder y = inorder x) /\
  (forall n n', _balance n = Some n' ->
                _inOrder n' [] = _inOrder n [] /\ inorder n' = inorder n).
Proof.
  exact (bst_order_invariant [Insert 20 2; Insert 10 1; Insert 30 3]
           tree_20_10_30 eq_refl).
Defined.

(** C6, as the code has it.  In every reachable tree, and for all bounds,
    [getKeysInRange(from, to)] returns the stored keys [k] with
    [from <= k <= to], each once, in the tree's pre-order: a node's key,
    then the keys of its left subtree, then those of its right subtree. *)
Theorem getKeysInRange_preorder_spec cs a fromKey toKey :
  tree_after cs = Some a ->
  getKeysInRange a fromKey toKey =
    filter (in_range fromKey toKey) (preorder (root a)) /\
  (forall k, In k (getKeysInRange a fromKey toKey) <->
             In k (map fst (inOrderTraversal a)) /\ fromKey <= k <= toKey) /\
  NoDup (getKeysInRange a fromKey toKey).
Proof.
  intros Hr. apply tree_after_inv in Hr. destruct Hr as [Hb _].
  split; [apply getKeysInRange_preorder; assumption|].
  split; [|apply getKeysInRange_NoDup; assumption].
  intros k. rewrite inOrderTraversal_inorder.
  apply getKeysInRange_In. assumption.
Qed.

Lemma getKeysInRange_preorder_spec_witness :
  getKeysInRange tree_20_10_30 10 30 =
    filter (in_range 10 30) (preorder (root tree_20_10_30)) /\
  (forall k, In k (getKeysInRange tree_20_10_30 10 30) <->
             In k (map fst (inOrderTraversal tree_20_10_30)) /\ 10 <= k <= 30) /\
  NoDup (getKeysInRange tree_20_10_30 10 30).
Proof.
  exact (getKeysInRange_preorder_spec [Insert 20 2; Insert 10 1; Insert 30 3]
           tree_20_10_30 10 30 eq_refl).
Defined.

(** C6, as stated, fails: after [insert(20)], [insert(10)], [insert(30)]
    the call [getKeysInRange(10, 30)] returns [[20; 10; 30]], which is not
    in increasing order. *)
Lemma getKeysInRange_not_increasing :
  tree_after [Insert 20 2; Insert 10 1; Insert 30 3] = Some tree_20_10_30 /\
  10 <= 30 /\
  getKeysInRange tree_20_10_30 10 30 = [20; 10; 30] /\
  ~ StronglySorted Z.lt (getKeysInRange tree_20_10_30 10 30).
Proof.
  split; [reflexivity|]. split; [lia|]. split; [reflexivity|].
  intros H. change (StronglySorted Z.lt [20; 10; 30]) in H.
  apply sorted_cons in H. destruct H as [_ H].
  specialize (H 10 (or_introl eq_refl)). lia.
Qed.

(** C7, as the code has it.  In every reachable tree, [findNearest(k)]
    returns the node at [k] when [k] is stored; otherwise, when [k] has a
    predecessor and a successor among the stored keys, the predecessor when
    the difference [k - pred] as computed in double arithmetic is strictly
    below the computed difference [succ - k], and the successor otherwise.
    So it returns the predecessor only when that is strictly closer, and the
    successor (the greater key) whenever that is as close or closer, and
    also when rounding makes the two computed differences equal.  When only
    one of the two exists it returns that one, and [null] on an empty tree. *)
Theorem findNearest_spec cs a k :
  tree_after cs = Some a ->
  nearest_computed (inOrderTraversal a) k (entry (findNearest a k)) /\
  (forall p s v,
     is_pred (map fst (inOrderTraversal a)) k p ->
     is_succ (map fst (inOrderTraversal a)) k s ->
     entry (findNearest a k) = Some (p, v) -> k - p < s - k) /\
  (forall p s,
     ~ In k (map fst (inOrderTraversal a)) ->
     is_pred (map fst (inOrderTraversal a)) k p ->
     is_succ (map fst (inOrderTraversal a)) k s ->
     s - k <= k - p ->
     exists v, entry (findNearest a k) = Some (s, v)).
Proof.
  intros Hr. apply tree_after_inv in Hr. destruct Hr as [Hb _].
  pose proof (findNearest_computed a k Hb) as H.
  split; [exact H|]. destruct H as (_ & Hin & Hout & _). split.
  - intros p s v Hp Hs E.
    destruct (in_dec Z.eq_dec k (map fst (inOrderTraversal a))) as [Hk|Hk].
    + destruct (Hin Hk) as (v' & E'). rewrite E in E'. injection E' as -> _.
      destruct Hp as (_ & Hp & _). lia.
    + destruct (Hout Hk) as (Hboth & _). destruct (Hboth p s Hp Hs) as (v' & E').
      rewrite E in E'. injection E' as E' _.
      destruct (Z.ltb_spec (js_sub k p) (js_sub s k)) as [Hlt|Hge].
      * apply js_sub_lt. assumption.
      * destruct Hp as (_ & Hp & _), Hs as (_ & Hs & _). lia.
  - intros p s Hk Hp Hs Hle. destruct (Hout Hk) as (Hboth & _).
    destruct (Hboth p s Hp Hs) as (v & E). exists v. rewrite E.
    destruct (Z.ltb_spec (js_sub k p) (js_sub s k)) as [Hlt|Hge]; [|reflexivity].
    apply js_sub_lt in Hlt. lia.
Qed.

Lemma findNearest_spec_witness :
  nearest_computed (inOrderTraversal tree_1_3) 2 (entry (findNearest tree_1_3 2)) /\
  (forall p s v,
     is_pred (map fst (inOrderTraversal tree_1_3)) 2 p ->
     is_succ (map fst (inOrderTraversal tree_1_3)) 2 s ->
     entry (findNearest tree_1_3 2) = Some (p, v) -> 2 - p < s - 2) /\
  (forall p s,
     ~ In 2 (map fst (inOrderTraversal tree_1_3)) ->
     is_pred (map fst (inOrderTraversal tree_1_3)) 2 p ->
     is_succ (map fst (inOrderTraversal tree_1_3)) 2 s ->
     s - 2 <= 2 - p ->
     exists v, entry (findNearest tree_1_3 2) = Some (s, v)).
Proof.
  exact (findNearest_spec [Insert 1 10; Insert 3 30] tree_1_3 2 eq_refl).
Defined.

(** Rounding at work in [findNearest]: with the keys [-(2^53 - 1)] and
    [2^53 + 2] stored, [findNearest(1)] computes both differences as [2^53]
    and returns the node at [2^53 + 2], although the other key is closer
    by one. *)
Example findNearest_rounding :
  tree_after [Insert (- (2 ^ 53 - 1)) 1; Insert (2 ^ 53 + 2) 2]
    = Some tree_far_apart /\
  js_sub 1 (- (2 ^ 53 - 1)) = 2 ^ 53 /\ js_sub (2 ^ 53 + 2) 1 = 2 ^ 53 /\
  entry (findNearest tree_far_apart 1) = Some (2 ^ 53 + 2, 2) /\
  1 - - (2 ^ 53 - 1) < 2 ^ 53 + 2 - 1.
Proof. repeat split. Qed.

(** C7, as stated, fails: with the keys 1 and 3 stored, [findNearest(2)]
    has both neighbours at distance 1 and returns the node at 3, not the
    one with the lesser key. *)
Lemma findNearest_tie_prefers_greater :
  tree_after [Insert 1 10; Insert 3 30] = Some tree_1_3 /\
  is_pred (map fst (inOrderTraversal tree_1_3)) 2 1 /\
  is_succ (map fst (inOrderTraversal tree_1_3)) 2 3 /\
  2 - 1 = 3 - 2 /\
  entry (findNearest tree_1_3 2) = Some (3, 30) /\
  ~ nearest_spec true (inOrderTraversal tree_1_3) 2
      (entry (findNearest tree_1_3 2)).
Proof.
  assert (Hp : is_pred (map fst (inOrderTraversal tree_1_3)) 2 1).
  { split; [simpl; auto|]. split; [lia|].
    intros q [<-|[<-|[]]] Hq; lia. }
  assert (Hs : is_succ (map fst (inOrderTraversal tree_1_3)) 2 3).
  { split; [simpl; auto|]. split; [lia|].
    intros q [<-|[<-|[]]] Hq; lia. }
  split; [reflexivity|]. split; [assumption|]. split; [assumption|].
  split; [reflexivity|]. split; [reflexivity|].
  intros (_ & _ & H & _).
  assert (Hn : ~ In 2 (map fst (inOrderTraversal tree_1_3))).
  { simpl. intros [H'|[H'|[]]]; discriminate. }
  destruct (H Hn) as (Hboth & _).
  destruct (Hboth 1 3 Hp Hs) as (v & E). simpl in E. discriminate.
Qed.

(** C8.  Frame: on a reachable range list and for [from < to],
    [set(from, to, amount)] returns normally and leaves the effective
    intensity at every position [p < from] as it was. *)
Theorem set_frame_before cs rl from to amount :
  list_after cs = Some rl -> from < to ->
  exists rl',
    RangeList.set rl from to amount = Some rl' /\
    forall p, p < from -> intensity rl' p = intensity rl p.
Proof.
  intros Hr Hlt. apply list_after_inv in Hr. destruct Hr as [Hw _].
  destruct (set_sem rl from to amount Hw) as (rl' & E & _ & _ & Hdo).
  exists rl'. split; [assumption|]. apply (Hdo Hlt).
Qed.

Lemma set_frame_before_witness :
  exists rl',
    RangeList.set list_10_30 20 40 5 = Some rl' /\
    forall p, p < 20 -> intensity rl' p = intensity list_10_30 p.
Proof.
  apply (set_frame_before [Add 10 30 1] list_10_30 20 40 5); [reflexivity|lia].
Defined.

(** C9.  Frame: in a reachable tree, [insert(k, v)] with [k] already stored
    returns the same tree with [v] written at [k]: the keys, the shape and
    every cached height are as before, and no rotation is made. *)
Theorem insert_existing_key cs a k v :
  tree_after cs = Some a ->
  In k (map fst (inOrderTraversal a)) ->
  exists a',
    insert a k v = Some a' /\
    root a' = replace_value k v (root a) /\
    skeleton (root a') = skeleton (root a) /\
    map fst (inOrderTraversal a') = map fst (inOrderTraversal a) /\
    rotations_in_insert (root a) k v = 0%nat.
Proof.
  intros Hr Hin. apply tree_after_inv in Hr. destruct Hr as [Hb Ha].
  rewrite inOrderTraversal_inorder in Hin.
  destruct (insertNode_existing (root a) k v Hb Ha Hin) as [E R0].
  unfold insert. rewrite E. cbn [bind]. eexists. split; [reflexivity|].
  cbn [root]. split; [reflexivity|].
  split; [apply skeleton_replace_value|]. split; [|assumption].
  rewrite !inOrderTraversal_inorder. cbn [root].
  rewrite (insertNode_inorder _ _ _ _ Hb E).
  clear -Hb Hin. fold (keys (root a)) in Hin.
  unfold bst, keys in *. induction (inorder (root a)) as [|[k' v'] pts IH];
    [destruct Hin|].
  cbn [map fst] in *. apply sorted_cons in Hb. destruct Hb as [Hs Hlt].
  cbn [ins]. destruct (Z.ltb_spec k k') as [Hlt'|Hge].
  - destruct Hin as [->|Hin]; [lia|]. specialize (Hlt k Hin). lia.
  - destruct (Z.gtb_spec k k') as [Hgt|Hle]; cbn [map fst].
    + f_equal. apply IH; [assumption|]. destruct Hin as [->|Hin]; [lia|assumption].
    + f_equal. lia.
Qed.

Lemma insert_existing_key_witness :
  exists a',
    insert tree_20_10_30 10 7 = Some a' /\
    root a' = replace_value 10 7 (root tree_20_10_30) /\
    skeleton (root a') = skeleton (root tree_20_10_30) /\
    map fst (inOrderTraversal a') = map fst (inOrderTraversal tree_20_10_30) /\
    rotations_in_insert (root tree_20_10_30) 10 7 = 0%nat.
Proof.
  apply (insert_existing_key [Insert 20 2; Insert 10 1; Insert 30 3]);
    [reflexivity|simpl; auto].
Defined.

(** C10.  In every reachable tree, and for all bounds, the array returned by
    [getKeysInRange(from, to)] is a permutation of the stored keys [k] with
    [from <= k <= to], and holds none of them twice. *)
Theorem getKeysInRange_permutation cs a fromKey toKey :
  tree_after cs = Some a ->
  Permutation (getKeysInRange a fromKey toKey)
    (filter (in_range fromKey toKey) (map fst (inOrderTraversal a))) /\
  NoDup (getKeysInRange a fromKey toKey).
Proof.
  intros Hr. apply tree_after_inv in Hr. destruct Hr as [Hb _].
  split; [|apply getKeysInRange_NoDup; assumption].
  rewrite getKeysInRange_preorder by assumption.
  rewrite inOrderTraversal_inorder. apply filter_perm. apply preorder_perm.
Qed.

Lemma getKeysInRange_permutation_witness :
  Permutation (getKeysInRange tree_20_10_30 10 30)
    (filter (in_range 10 30) (map fst (inOrderTraversal tree_20_10_30))) /\
  NoDup (getKeysInRange tree_20_10_30 10 30).
Proof.
  exact (getKeysInRange_permutation [Insert 20 2; Insert 10 1; Insert 30 3]
           tree_20_10_30 10 30 eq_refl).
Defined.

(** * Further properties of the tree *)

(** *** Removing a key that is not there *)

Lemma removeNode_absent n key :
  bst n -> avl n -> ~ In key (keys n) -> _removeNode n key = Some n.
Proof.
  induction n as [|l IHl k v h r IHr]; intros Hb Ha Hn; [reflexivity|].
  apply bst_node in Hb. destruct Hb as (Hbl & Hbr & Hlk & Hrk).
  destruct Ha as (Hal & Har & Hh & Hbal).
  rewrite keys_node, in_app_iff in Hn. simpl in Hn.
  cbn [_removeNode].
  destruct (balance_balanced l k v r Hbal) as [E _]. rewrite <- Hh in E.
  destruct (Z.ltb_spec key k) as [Hlt|Hge].
  - rewrite IHl by tauto. cbn [bind _updateHeightAndBalance].
    rewrite <- Hh. exact E.
  - destruct (Z.gtb_spec key k) as [Hgt|Hle]; [|exfalso; apply Hn; right; left; lia].
    rewrite IHr by tauto. cbn [bind _updateHeightAndBalance].
    rewrite <- Hh. exact E.
Qed.

Lemma setValue_replace_value n key value :
  bst n -> _setValue n key value = replace_value key value n.
Proof.
  induction n as [|l IHl k v h r IHr]; intros Hb; [reflexivity|].
  apply bst_node in Hb. destruct Hb as (Hbl & Hbr & Hlk & Hrk).
  cbn [_setValue replace_value].
  destruct (Z.eqb_spec key k) as [->|Hne].
  - rewrite Z.eqb_refl. rewrite !replace_value_absent; [reflexivity| |].
    + intros H. specialize (Hrk k H). lia.
    + intros H. specialize (Hlk k H). lia.
  - destruct (Z.eqb_spec k key) as [?|_]; [congruence|].
    destruct (Z.ltb_spec key k) as [Hlt|Hge].
    + rewrite (IHl Hbl). rewrite (replace_value_absent key value r); [reflexivity|].
      intros H. specialize (Hrk key H). lia.
    + rewrite (IHr Hbr). rewrite (replace_value_absent key value l); [reflexivity|].
      intros H. specialize (Hlk key H). lia.
Qed.

(** *** Counting nodes *)

Lemma countNodes_length n : countNodes n = Z.of_nat (length (inorder n)).
Proof.
  induction n as [|l IHl k v h r IHr]; [reflexivity|].
  cbn [countNodes inorder]. rewrite length_app. cbn [length].
  rewrite IHl, IHr. lia.
Qed.

Lemma length_ins k v pts :
  StronglySorted Z.lt (map fst pts) ->
  (In k (map fst pts) -> length (ins k v pts) = length pts) /\
  (~ In k (map fst pts) -> length (ins k v pts) = S (length pts)).
Proof.
  induction pts as [|[k' v'] pts IH]; intros Hs; cbn [map fst] in *.
  - split; [intros []|reflexivity].
  - apply sorted_cons in Hs. destruct Hs as [Hs Hlt]. specialize (IH Hs).
    cbn [ins]. destruct (Z.ltb_spec k k') as [Hk|Hk].
    + split; [|reflexivity]. intros [->|Hin]; [lia|].
      specialize (Hlt k Hin). lia.
    + destruct (Z.gtb_spec k k') as [Hk'|Hk']; cbn [length].
      * split.
        -- intros [->|Hin]; [lia|]. f_equal. apply IH. assumption.
        -- intros Hn. f_equal. apply IH. intros Hin. apply Hn. right. assumption.
      * split; [reflexivity|]. intros Hn. exfalso. apply Hn. left. lia.
Qed.

Lemma length_del k pts :
  StronglySorted Z.lt (map fst pts) ->
  (In k (map fst pts) -> S (length (del k pts)) = length pts) /\
  (~ In k (map fst pts) -> length (del k pts) = length pts).
Proof.
  intros Hs. split.
  - induction pts as [|[k' v'] pts IH]; cbn [map fst] in *; [intros []|].
    apply sorted_cons in Hs. destruct Hs as [Hs Hlt].
    unfold del. cbn [filter fst]. fold (del k pts).
    destruct (Z.eqb_spec k' k) as [->|Hne]; cbn [negb length].
    + intros _. f_equal. f_equal. apply del_absent.
      intros Hin. specialize (Hlt k Hin). lia.
    + intros [?|Hin]; [congruence|]. f_equal. apply IH; assumption.
  - intros Hn. rewrite del_absent by assumption. reflexivity.
Qed.

(** *** Height against size *)

Lemma countNodes_nonneg n : 0 <= countNodes n.
Proof. rewrite countNodes_length. lia. Qed.

Lemma avl_size_of_height n :
  avl n -> forall j, 0 <= j -> 2 * j <= _getHeight n -> 2 ^ j <= countNodes n + 1.
Proof.
  induction n as [|l IHl k v h r IHr]; intros Ha j Hj Hh.
  - cbn [_getHeight] in Hh. assert (j = 0) as -> by lia.
    cbn [countNodes]. rewrite Z.pow_0_r. lia.
  - destruct Ha as (Hal & Har & Hhe & Hbal). cbn [_getHeight] in Hh.
    cbn [countNodes]. pose proof (countNodes_nonneg l). pose proof (countNodes_nonneg r).
    destruct (Z.eq_dec j 0) as [->|Hj0]; [rewrite Z.pow_0_r; lia|].
    replace j with (Z.succ (j - 1)) by lia. rewrite Z.pow_succ_r by lia.
    specialize (IHl Hal (j - 1)). specialize (IHr Har (j - 1)).
    assert (2 ^ (j - 1) <= countNodes l + 1) by (apply IHl; lia).
    assert (2 ^ (j - 1) <= countNodes r + 1) by (apply IHr; lia).
    lia.
Qed.

(** *** The balance check of the test suite *)

Lemma checkTreeBalance_avl n : avl n -> checkTreeBalance n = true.
Proof.
  induction n as [|l IHl k v h r IHr]; [reflexivity|].
  intros (Hal & Har & Hh & Hbal). cbn [checkTreeBalance].
  rewrite (IHl Hal), (IHr Har), !andb_true_r.
  apply Z.leb_le. change (getHeight l) with (_getHeight l).
  change (getHeight r) with (_getHeight r). lia.
Qed.

(** * Further theorems on AVLTree.js *)

(** X1.  In a reachable tree, [insert(k, v)] returns normally; afterwards
    [find(k)] shows the key [k] with the value [v], and [find] of any other
    key shows what it showed before. *)
Theorem find_after_insert cs a k v :
  tree_after cs = Some a ->
  exists a',
    insert a k v = Some a' /\
    entry (find a' k) = Some (k, v) /\
    forall x, x <> k -> entry (find a' x) = entry (find a x).
Proof.
  intros Hr. apply tree_after_inv in Hr. pose proof (wf_sorted a Hr) as Hs.
  destruct (insert_wf a k v Hr) as (a' & E & Hw' & Hi).
  exists a'. split; [assumption|]. split.
  - apply (entry_find_In _ _ _ _ Hw'). split; [reflexivity|].
    rewrite Hi. apply in_ins; auto.
  - intros x Hne. apply entry_find_ext; try assumption.
    intros w. rewrite Hi, in_ins by assumption. tauto.
Qed.

Lemma find_after_insert_witness :
  exists a',
    insert tree_20_10_30 25 7 = Some a' /\
    entry (find a' 25) = Some (25, 7) /\
    forall x, x <> 25 -> entry (find a' x) = entry (find tree_20_10_30 x).
Proof.
  exact (find_after_insert [Insert 20 2; Insert 10 1; Insert 30 3]
           tree_20_10_30 25 7 eq_refl).
Defined.

(** X2.  In a reachable tree, [remove(k)] returns normally; afterwards
    [find(k)] is [null], and [find] of any other key shows what it showed
    before. *)
Theorem find_after_remove cs a k :
  tree_after cs = Some a ->
  exists a',
    remove a k = Some a' /\
    find a' k = null /\
    forall x, x <> k -> entry (find a' x) = entry (find a x).
Proof.
  intros Hr. apply tree_after_inv in Hr.
  destruct (remove_wf a k Hr) as (a' & E & Hw' & Hi).
  exists a'. split; [assumption|]. split.
  - apply entry_None. apply (entry_find_None _ _ Hw'). rewrite Hi.
    intros Hin. apply in_keys_inv in Hin. destruct Hin as (w & Hin).
    apply in_del in Hin. tauto.
  - intros x Hne. apply entry_find_ext; try assumption.
    intros w. rewrite Hi, in_del. tauto.
Qed.

Lemma find_after_remove_witness :
  exists a',
    remove tree_20_10_30 20 = Some a' /\
    find a' 20 = null /\
    forall x, x <> 20 -> entry (find a' x) = entry (find tree_20_10_30 x).
Proof.
  exact (find_after_remove [Insert 20 2; Insert 10 1; Insert 30 3]
           tree_20_10_30 20 eq_refl).
Defined.

(** X3.  In a reachable tree, [remove(k)] of a key that [find] does not
    find gives back the very same tree: no key, value, cached height or
    link changes. *)
Theorem remove_absent_key cs a k :
  tree_after cs = Some a -> find a k = null -> remove a k = Some a.
Proof.
  intros Hr Hf. apply tree_after_inv in Hr. pose proof Hr as [Hb Ha].
  unfold remove. rewrite removeNode_absent; try assumption.
  - destruct a. reflexivity.
  - fold (keys (root a)). unfold keys. rewrite <- inOrderTraversal_inorder.
    apply (entry_find_None _ _ Hr). rewrite Hf. reflexivity.
Qed.

Lemma remove_absent_key_witness :
  remove tree_20_10_30 100 = Some tree_20_10_30.
Proof.
  apply (remove_absent_key [Insert 20 2; Insert 10 1; Insert 30 3]);
    reflexivity.
Defined.

(** X4.  In a reachable tree, [update(k, v)] writes [v] at the node with key
    [k] and touches nothing else: shape, keys and cached heights stay, a
    missing key leaves the tree as it is (no node is made), and afterwards
    [find] shows [v] at [k] exactly when [k] was stored, and every other key
    as before. *)
Theorem update_changes_one_value cs a k v :
  tree_after cs = Some a ->
  root (update a k v) = replace_value k v (root a) /\
  skeleton (root (update a k v)) = skeleton (root a) /\
  (find a k = null -> update a k v = a) /\
  (forall x, lookup (update a k v) x =
             if x =? k
             then match lookup a k with Some _ => Some v | None => None end
             else lookup a x).
Proof.
  intros Hr. apply tree_after_inv in Hr. pose proof Hr as [Hb Ha].
  assert (E : root (update a k v) = replace_value k v (root a)).
  { unfold update. destruct (truthy (find a k)) eqn:Et; cbn [root].
    - apply setValue_replace_value. assumption.
    - symmetry. apply replace_value_absent.
      fold (keys (root a)). unfold keys. rewrite <- inOrderTraversal_inorder.
      intros Hin. apply (truthy_find a k Hr) in Hin. congruence. }
  split; [exact E|]. split; [rewrite E; apply skeleton_replace_value|]. split.
  - intros Hf. unfold update. rewrite Hf. reflexivity.
  - intros x. apply (lookup_step a (Update k v) (update a k v) Hr eq_refl x).
Qed.

Lemma update_changes_one_value_witness :
  root (update tree_20_10_30 10 7) = replace_value 10 7 (root tree_20_10_30) /\
  skeleton (root (update tree_20_10_30 10 7)) = skeleton (root tree_20_10_30) /\
  (find tree_20_10_30 10 = null -> update tree_20_10_30 10 7 = tree_20_10_30) /\
  (forall x, lookup (update tree_20_10_30 10 7) x =
             if x =? 10
             then match lookup tree_20_10_30 10 with
                  | Some _ => Some 7
                  | None => None
                  end
             else lookup tree_20_10_30 x).
Proof.
  exact (update_changes_one_value [Insert 20 2; Insert 10 1; Insert 30 3]
           tree_20_10_30 10 7 eq_refl).
Defined.

(** X5.  In a reachable tree, [find(k)] returns a node with key [k] and
    value [v] exactly when [inOrderTraversal()] lists the pair [(k, v)],
    and [null] exactly when it lists no pair with key [k]. *)
Theorem find_iff_listed cs a k :
  tree_after cs = Some a ->
  (forall v, entry (find a k) = Some (k, v) <-> In (k, v) (inOrderTraversal a)) /\
  (find a k = null <-> ~ In k (map fst (inOrderTraversal a))).
Proof.
  intros Hr. apply tree_after_inv in Hr. split.
  - intros v. rewrite (entry_find_In a k k v Hr). tauto.
  - rewrite <- entry_None. apply entry_find_None. assumption.
Qed.

Lemma find_iff_listed_witness :
  (forall v, entry (find tree_20_10_30 10) = Some (10, v) <->
             In (10, v) (inOrderTraversal tree_20_10_30)) /\
  (find tree_20_10_30 10 = null <->
   ~ In 10 (map fst (inOrderTraversal tree_20_10_30))).
Proof.
  exact (find_iff_listed [Insert 20 2; Insert 10 1; Insert 30 3]
           tree_20_10_30 10 eq_refl).
Defined.

(** X6.  In a reachable tree, [findLessThan(k)] returns the stored pair with
    the largest key strictly below [k], and [null] exactly when no stored
    key is below [k]; a node with key [k] itself is never returned. *)
Theorem findLessThan_largest_below cs a k :
  tree_after cs = Some a ->
  match findLessThan a k with
  | null => forall q, In q (map fst (inOrderTraversal a)) -> k <= q
  | Node _ p v _ _ =>
      In (p, v) (inOrderTraversal a) /\
      is_pred (map fst (inOrderTraversal a)) k p
  end.
Proof.
  intros Hr. apply tree_after_inv in Hr. destruct Hr as [Hb _].
  rewrite inOrderTraversal_inorder. fold (keys (root a)). unfold findLessThan.
  destruct (findLessThan_spec (root a) k null Hb)
    as [[-> Hall]|(fl & fk & fv & fh & fr & -> & Hin & Hp)]; auto.
Qed.

Lemma findLessThan_largest_below_witness :
  match findLessThan tree_of_search_tests 30 with
  | null =>
      forall q, In q (map fst (inOrderTraversal tree_of_search_tests)) -> 30 <= q
  | Node _ p v _ _ =>
      In (p, v) (inOrderTraversal tree_of_search_tests) /\
      is_pred (map fst (inOrderTraversal tree_of_search_tests)) 30 p
  end.
Proof.
  exact (findLessThan_largest_below
           (map (fun k => Insert k (k * 10)) [10; 20; 30; 40; 50; 25; 35])
           tree_of_search_tests 30 eq_refl).
Defined.

(** X7.  In a reachable tree, [findGreaterThan(k)] returns the stored pair
    with the smallest key strictly above [k], and [null] exactly when no
    stored key is above [k]. *)
Theorem findGreaterThan_smallest_above cs a k :
  tree_after cs = Some a ->
  match findGreaterThan a k with
  | null => forall q, In q (map fst (inOrderTraversal a)) -> q <= k
  | Node _ s v _ _ =>
      In (s, v) (inOrderTraversal a) /\
      is_succ (map fst (inOrderTraversal a)) k s
  end.
Proof.
  intros Hr. apply tree_after_inv in Hr. destruct Hr as [Hb _].
  rewrite inOrderTraversal_inorder. fold (keys (root a)). unfold findGreaterThan.
  destruct (findGreaterThan_spec (root a) k null Hb)
    as [[-> Hall]|(fl & fk & fv & fh & fr & -> & Hin & Hp)]; auto.
Qed.

Lemma findGreaterThan_smallest_above_witness :
  match findGreaterThan tree_of_search_tests 30 with
  | null =>
      forall q, In q (map fst (inOrderTraversal tree_of_search_tests)) -> q <= 30
  | Node _ s v _ _ =>
      In (s, v) (inOrderTraversal tree_of_search_tests) /\
      is_succ (map fst (inOrderTraversal tree_of_search_tests)) 30 s
  end.
Proof.
  exact (findGreaterThan_smallest_above
           (map (fun k => Insert k (k * 10)) [10; 20; 30; 40; 50; 25; 35])
           tree_of_search_tests 30 eq_refl).
Defined.

(** X8.  In a reachable tree, [findLessThanOrEqual(k)] returns the stored
    pair with the largest key not above [k] (the node at [k] itself when
    [k] is stored), and [null] exactly when every stored key is above [k]. *)
Theorem findLessThanOrEqual_floor cs a k :
  tree_after cs = Some a ->
  floor_is (inOrderTraversal a) k (entry (findLessThanOrEqual a k)).
Proof.
  intros Hr. apply tree_after_inv in Hr. pose proof Hr as [Hb _].
  unfold findLessThanOrEqual.
  pose proof (entry_find_None a k Hr) as HN.
  destruct (find a k) as [|el ek ev eh er] eqn:Ef; cbn [truthy].
  - assert (Hn : ~ In k (map fst (inOrderTraversal a))) by (apply HN; reflexivity).
    pose proof (findLessThan_spec (root a) k null Hb) as Hlt.
    unfold findLessThan. rewrite inOrderTraversal_inorder in *.
    fold (keys (root a)) in *.
    destruct Hlt
      as [[-> Hall]|(fl & fk & fv & fh & fr & -> & Hin & Hp1 & Hp2 & Hp3)];
      cbn [entry floor_is].
    + intros q Hq. specialize (Hall q Hq).
      destruct (Z.eq_dec q k) as [->|]; [contradiction|lia].
    + split; [assumption|]. split; [lia|]. intros q Hq Hle. apply Hp3; [assumption|].
      destruct (Z.eq_dec q k) as [->|]; [contradiction|lia].
  - assert (E : entry (find a k) = Some (ek, ev)) by (rewrite Ef; reflexivity).
    apply (entry_find_In _ _ _ _ Hr) in E. destruct E as [-> Hin].
    cbn [entry floor_is]. split; [assumption|]. split; [lia|]. auto.
Qed.

Lemma findLessThanOrEqual_floor_witness :
  floor_is (inOrderTraversal tree_of_search_tests) 33
    (entry (findLessThanOrEqual tree_of_search_tests 33)).
Proof.
  exact (findLessThanOrEqual_floor
           (map (fun k => Insert k (k * 10)) [10; 20; 30; 40; 50; 25; 35])
           tree_of_search_tests 33 eq_refl).
Defined.

Lemma js_dist_abs k q : js_dist k q = round53 (Z.abs (k - q)).
Proof.
  unfold js_dist, js_sub. destruct (Z.ltb_spec q k); f_equal; lia.
Qed.

(** X9.  In a reachable tree, [findNearest(k)] returns [null] exactly when the
    tree is empty; otherwise it returns a stored pair whose distance to [k],
    as double arithmetic computes it, is the least among the stored keys: no
    stored key is closer, unless by less than rounding can tell. *)
Theorem findNearest_minimal_distance cs a k :
  tree_after cs = Some a ->
  match findNearest a k with
  | null => inOrderTraversal a = []
  | Node _ nk nv _ _ =>
      In (nk, nv) (inOrderTraversal a) /\
      forall q, In q (map fst (inOrderTraversal a)) ->
                js_dist k nk <= js_dist k q /\
                (Z.abs (k - nk) <= Z.abs (k - q) \/ js_dist k nk = js_dist k q)
  end.
Proof.
  intros Hr. apply tree_after_inv in Hr. pose proof Hr as [Hb _].
  assert (Hgoal : match findNearest a k with
                  | null => inOrderTraversal a = []
                  | Node _ nk nv _ _ =>
                      In (nk, nv) (inOrderTraversal a) /\
                      forall q, In q (map fst (inOrderTraversal a)) ->
                                js_dist k nk <= js_dist k q
                  end).
  { pose proof (entry_find_None a k Hr) as HN.
    unfold findNearest.
    destruct (find a k) as [|el ek ev eh er] eqn:Ef; cbn [truthy].
    2:{ assert (E : entry (find a k) = Some (ek, ev)) by (rewrite Ef; reflexivity).
        apply (entry_find_In _ _ _ _ Hr) in E. destruct E as [-> Hin].
        split; [assumption|]. intros q _. rewrite !js_dist_abs.
        apply round53_mono. lia. }
    assert (Hn : ~ In k (map fst (inOrderTraversal a))) by (apply HN; reflexivity).
    unfold findLessThan, findGreaterThan.
    rewrite inOrderTraversal_inorder in *. fold (keys (root a)) in *.
    destruct (findLessThan_spec (root a) k null Hb)
      as [[-> Hl]|(ll & lk & lv & lh & lr & -> & Hlin & Hl1 & Hl2 & Hl3)];
    destruct (findGreaterThan_spec (root a) k null Hb)
      as [[-> Hg]|(gl & gk & gv & gh & gr & -> & Hgin & Hg1 & Hg2 & Hg3)].
    - destruct (inorder (root a)) as [|[q w] rest] eqn:Ei; [reflexivity|].
      exfalso. apply Hn. unfold keys in *. rewrite Ei in *. cbn [map fst] in *.
      left. specialize (Hl q (or_introl eq_refl)).
      specialize (Hg q (or_introl eq_refl)). lia.
    - split; [assumption|]. intros q Hq. specialize (Hl q Hq).
      destruct (Z.eq_dec q k) as [->|Hne]; [contradiction|].
      specialize (Hg3 q Hq). rewrite !js_dist_abs. apply round53_mono. lia.
    - split; [assumption|]. intros q Hq. specialize (Hg q Hq).
      destruct (Z.eq_dec q k) as [->|Hne]; [contradiction|].
      specialize (Hl3 q Hq). rewrite !js_dist_abs. apply round53_mono. lia.
    - assert (Hq : forall q, In q (keys (root a)) -> q <= lk \/ gk <= q).
      { intros q Hq. destruct (Z.eq_dec q k) as [->|Hne]; [contradiction|].
        specialize (Hl3 q Hq). specialize (Hg3 q Hq). lia. }
      assert (El : js_sub k lk = js_dist k lk).
      { unfold js_dist. destruct (Z.ltb_spec lk k); [reflexivity|lia]. }
      assert (Eg : js_sub gk k = js_dist k gk).
      { unfold js_dist. destruct (Z.ltb_spec gk k); [lia|reflexivity]. }
      rewrite El, Eg.
      assert (Hfar_l : forall q, q <= lk -> js_dist k lk <= js_dist k q).
      { intros q Hq'. rewrite !js_dist_abs. apply round53_mono. lia. }
      assert (Hfar_g : forall q, gk <= q -> js_dist k gk <= js_dist k q).
      { intros q Hq'. rewrite !js_dist_abs. apply round53_mono. lia. }
      destruct (Z.ltb_spec (js_dist k lk) (js_dist k gk)).
      + split; [assumption|]. intros q Hq'. destruct (Hq q Hq') as [Hc|Hc].
        * apply Hfar_l. assumption.
        * specialize (Hfar_g q Hc). lia.
      + split; [assumption|]. intros q Hq'. destruct (Hq q Hq') as [Hc|Hc].
        * specialize (Hfar_l q Hc). lia.
        * apply Hfar_g. assumption. }
  destruct (findNearest a k) as [|nl nk nv nh nr]; [assumption|].
  destruct Hgoal as [Hin Hmin]. split; [assumption|].
  intros q Hq. specialize (Hmin q Hq). split; [assumption|].
  destruct (Z.le_gt_cases (Z.abs (k - nk)) (Z.abs (k - q))) as [Hle|Hgt];
    [left; assumption|right].
  rewrite !js_dist_abs in *.
  pose proof (round53_mono (Z.abs (k - q)) (Z.abs (k - nk))). lia.
Qed.

Lemma findNearest_minimal_distance_witness :
  match findNearest tree_of_search_tests 29 with
  | null => inOrderTraversal tree_of_search_tests = []
  | Node _ nk nv _ _ =>
      In (nk, nv) (inOrderTraversal tree_of_search_tests) /\
      forall q, In q (map fst (inOrderTraversal tree_of_search_tests)) ->
                js_dist 29 nk <= js_dist 29 q /\
                (Z.abs (29 - nk) <= Z.abs (29 - q) \/ js_dist 29 nk = js_dist 29 q)
  end.
Proof.
  exact (findNearest_minimal_distance
           (map (fun k => Insert k (k * 10)) [10; 20; 30; 40; 50; 25; 35])
           tree_of_search_tests 29 eq_refl).
Defined.

Lemma replace_value_same k v n :
  bst n -> In (k, v) (inorder n) -> replace_value k v n = n.
Proof.
  induction n as [|l IHl k' v' h r IHr]; intros Hb Hin; [reflexivity|].
  pose proof Hb as Hs. unfold bst, keys in Hs.
  apply bst_node in Hb. destruct Hb as (Hbl & Hbr & Hlk & Hrk).
  cbn [replace_value]. cbn [inorder] in Hin, Hs.
  assert (Hhere : In (k', v') (inorder l ++ (k', v') :: inorder r))
    by (apply in_or_app; simpl; auto).
  apply in_app_or in Hin. destruct Hin as [Hin|[Hin|Hin]].
  - rewrite (IHl Hbl Hin). rewrite (replace_value_absent k v r).
    + destruct (Z.eqb_spec k' k) as [->|]; [|reflexivity].
      apply in_keys in Hin. specialize (Hlk k Hin). lia.
    + intros H. apply in_keys in Hin. specialize (Hlk k Hin). specialize (Hrk k H). lia.
  - injection Hin as -> ->. rewrite Z.eqb_refl.
    rewrite !replace_value_absent; [reflexivity| |].
    + intros H. specialize (Hrk k H). lia.
    + intros H. specialize (Hlk k H). lia.
  - rewrite (IHr Hbr Hin). rewrite (replace_value_absent k v l).
    + destruct (Z.eqb_spec k' k) as [->|]; [|reflexivity].
      apply in_keys in Hin. specialize (Hrk k Hin). lia.
    + intros H. apply in_keys in Hin. specialize (Hrk k Hin). specialize (Hlk k H). lia.
Qed.

(** X10.  In a reachable tree, a call made a second time changes nothing:
    after [insert(k, v)], another [insert(k, v)] gives back the very same
    tree, and after [remove(k)], another [remove(k)] does. *)
Theorem repeated_call_is_identity cs a k v :
  tree_after cs = Some a ->
  (exists a', insert a k v = Some a' /\ insert a' k v = Some a') /\
  (exists a', remove a k = Some a' /\ remove a' k = Some a').
Proof.
  intros Hr. apply tree_after_inv in Hr. pose proof (wf_sorted a Hr) as Hs. split.
  - destruct (insert_wf a k v Hr) as (a' & E & Hw' & Hi).
    exists a'. split; [assumption|]. pose proof Hw' as [Hb' Ha'].
    assert (Hin : In (k, v) (inorder (root a'))).
    { rewrite <- inOrderTraversal_inorder, Hi. apply in_ins; auto. }
    unfold insert.
    destruct (insertNode_existing (root a') k v Hb' Ha') as [-> _].
    + apply (in_keys _ _ _ Hin).
    + cbn [bind]. rewrite (replace_value_same k v _ Hb' Hin).
      destruct a'. reflexivity.
  - destruct (remove_wf a k Hr) as (a' & E & Hw' & Hi).
    exists a'. split; [assumption|]. pose proof Hw' as [Hb' Ha'].
    unfold remove. rewrite removeNode_absent; try assumption.
    + destruct a'. reflexivity.
    + fold (keys (root a')). unfold keys. rewrite <- inOrderTraversal_inorder, Hi.
      intros Hin. apply in_keys_inv in Hin. destruct Hin as (w & Hin).
      apply in_del in Hin. tauto.
Qed.

Lemma repeated_call_is_identity_witness :
  (exists a', insert tree_20_10_30 20 7 = Some a' /\ insert a' 20 7 = Some a') /\
  (exists a', remove tree_20_10_30 20 = Some a' /\ remove a' 20 = Some a').
Proof.
  exact (repeated_call_is_identity [Insert 20 2; Insert 10 1; Insert 30 3]
           tree_20_10_30 20 7 eq_refl).
Defined.

(** X11.  [countNodes] of the test suite counts the pairs of
    [inOrderTraversal()].  On a reachable tree, [insert(k, v)] adds one node
    exactly when [find(k)] found none, and [remove(k)] drops one node exactly
    when [find(k)] found one. *)
Theorem countNodes_after_call cs a k v :
  tree_after cs = Some a ->
  countNodes (root a) = Z.of_nat (length (inOrderTraversal a)) /\
  (exists a',
     insert a k v = Some a' /\
     countNodes (root a') =
     countNodes (root a) + (if truthy (find a k) then 0 else 1)) /\
  (exists a',
     remove a k = Some a' /\
     countNodes (root a') =
     countNodes (root a) - (if truthy (find a k) then 1 else 0)).
Proof.
  intros Hr. apply tree_after_inv in Hr. pose proof (wf_sorted a Hr) as Hs.
  pose proof (truthy_find a k Hr) as Ht.
  rewrite !countNodes_length, <- !inOrderTraversal_inorder.
  split; [reflexivity|]. split.
  - destruct (insert_wf a k v Hr) as (a' & E & Hw' & Hi).
    exists a'. split; [assumption|].
    rewrite countNodes_length, <- inOrderTraversal_inorder, Hi.
    destruct (length_ins k v (inOrderTraversal a) Hs) as [H1 H2].
    destruct (truthy (find a k)).
    + rewrite H1 by (apply Ht; reflexivity). lia.
    + rewrite H2; [lia|]. intros Hin. apply Ht in Hin. discriminate.
  - destruct (remove_wf a k Hr) as (a' & E & Hw' & Hi).
    exists a'. split; [assumption|].
    rewrite countNodes_length, <- inOrderTraversal_inorder, Hi.
    destruct (length_del k (inOrderTraversal a) Hs) as [H1 H2].
    destruct (truthy (find a k)).
    + rewrite <- H1 by (apply Ht; reflexivity). lia.
    + rewrite H2; [lia|]. intros Hin. apply Ht in Hin. discriminate.
Qed.

Lemma countNodes_after_call_witness :
  countNodes (root tree_20_10_30) =
  Z.of_nat (length (inOrderTraversal tree_20_10_30)) /\
  (exists a',
     insert tree_20_10_30 25 7 = Some a' /\
     countNodes (root a') =
     countNodes (root tree_20_10_30) +
     (if truthy (find tree_20_10_30 25) then 0 else 1)) /\
  (exists a',
     remove tree_20_10_30 25 = Some a' /\
     countNodes (root a') =
     countNodes (root tree_20_10_30) -
     (if truthy (find tree_20_10_30 25) then 1 else 0)).
Proof.
  exact (countNodes_after_call [Insert 20 2; Insert 10 1; Insert 30 3]
           tree_20_10_30 25 7 eq_refl).
Defined.

(** X12.  Whatever [insert], [update] and [remove] calls are made on a fresh
    tree, [checkTreeBalance(tree.root)] of the test suite is [true]
    afterwards. *)
Theorem checkTreeBalance_always cs :
  exists a, tree_after cs = Some a /\ checkTreeBalance (root a) = true.
Proof.
  destruct (tree_after_wf cs) as (a & E & _ & Ha).
  exists a. split; [assumption|]. apply checkTreeBalance_avl. assumption.
Qed.

(** X13.  A reachable tree is shallow: if its cached root height is at least
    [2 * j], it holds at least [2 ^ j - 1] nodes. *)
Theorem height_is_logarithmic cs a j :
  tree_after cs = Some a ->
  0 <= j -> 2 * j <= _getHeight (root a) ->
  2 ^ j <= countNodes (root a) + 1.
Proof.
  intros Hr Hj Hh. apply tree_after_inv in Hr. destruct Hr as [_ Ha].
  apply avl_size_of_height; assumption.
Qed.

Lemma height_is_logarithmic_witness :
  2 ^ 1 <= countNodes (root tree_of_search_tests) + 1.
Proof.
  apply (height_is_logarithmic
           (map (fun k => Insert k (k * 10)) [10; 20; 30; 40; 50; 25; 35]));
    [reflexivity|lia|vm_compute; discriminate].
Defined.

(** X14.  The two rotations undo each other on a node whose cached heights
    are exact: if [_rotateRight(y)] returns [x] then [_rotateLeft(x)] returns
    [y] again, and the other way round. *)
Theorem rotations_are_inverse y x :
  every_node height_cached y ->
  (_rotateRight y = Some x -> _rotateLeft x = Some y) /\
  (_rotateLeft y = Some x -> _rotateRight x = Some y).
Proof.
  intros Hh. split.
  - destruct y as [|[|xl xk xv xh T2] yk yv yh yr]; cbn [_rotateRight];
      try discriminate.
    intros [= <-]. cbn [_rotateLeft _getHeight].
    destruct Hh as (Hy & (Hx & _) & _). cbn [height_cached _getHeight] in Hy, Hx.
    rewrite <- Hx, <- Hy. reflexivity.
  - destruct y as [|xl xk xv xh [|T2 yk yv yh yr]]; cbn [_rotateLeft];
      try discriminate.
    intros [= <-]. cbn [_rotateRight _getHeight].
    destruct Hh as (Hx & _ & (Hy & _)). cbn [height_cached _getHeight] in Hy, Hx.
    rewrite <- Hy, <- Hx. reflexivity.
Qed.

Lemma rotations_are_inverse_witness :
  _rotateRight (root tree_20_10_30) =
    Some (Node null 10 1 3 (Node null 20 2 2 (Node null 30 3 1 null))) /\
  _rotateLeft (Node null 10 1 3 (Node null 20 2 2 (Node null 30 3 1 null))) =
    Some (root tree_20_10_30).
Proof.
  split; [reflexivity|].
  apply (rotations_are_inverse (root tree_20_10_30)); [|reflexivity].
  vm_compute. tauto.
Defined.

(** X15.  The tree is a finite map: after any calls on a fresh tree, the
    value [find(x)] shows is the one the last [insert] or effective [update]
    of [x] wrote, and there is none if [x] was never inserted or was removed
    since. *)
Theorem tree_is_finite_map cs a :
  tree_after cs = Some a -> forall x, lookup a x = model_after cs x.
Proof.
  intros Hr x. apply (model_refines cs AVLTree.new a (fun _ => None));
    [apply wf_new|reflexivity|exact Hr].
Qed.

Lemma tree_is_finite_map_witness :
  lookup tree_20_10_30 10 =
  model_after [Insert 20 2; Insert 10 1; Insert 30 3] 10.
Proof.
  exact (tree_is_finite_map [Insert 20 2; Insert 10 1; Insert 30 3]
           tree_20_10_30 eq_refl 10).
Defined.

(** X16.  On a reachable tree, [insert] raises the cached root height by at
    most one and never lowers it; [remove] lowers it by at most one and never
    raises it. *)
Theorem height_moves_by_one cs a k v :
  tree_after cs = Some a ->
  (exists a',
     insert a k v = Some a' /\
     _getHeight (root a) <= _getHeight (root a') <= _getHeight (root a) + 1) /\
  (exists a',
     remove a k = Some a' /\
     _getHeight (root a) - 1 <= _getHeight (root a') <= _getHeight (root a)).
Proof.
  intros Hr. apply tree_after_inv in Hr. destruct Hr as [_ Ha]. split.
  - destruct (insertNode_avl (root a) k v Ha) as (n' & E & _ & Hh).
    unfold insert. rewrite E. cbn [bind]. eexists. split; [reflexivity|].
    cbn [root]. lia.
  - destruct (removeNode_avl (root a) k Ha) as (n' & E & _ & Hh).
    unfold remove. rewrite E. cbn [bind]. eexists. split; [reflexivity|].
    cbn [root]. lia.
Qed.

Lemma height_moves_by_one_witness :
  (exists a',
     insert tree_20_10_30 25 7 = Some a' /\
     _getHeight (root tree_20_10_30) <= _getHeight (root a')
       <= _getHeight (root tree_20_10_30) + 1) /\
  (exists a',
     remove tree_20_10_30 25 = Some a' /\
     _getHeight (root tree_20_10_30) - 1 <= _getHeight (root a')
       <= _getHeight (root tree_20_10_30)).
Proof.
  exact (height_moves_by_one [Insert 20 2; Insert 10 1; Insert 30 3]
           tree_20_10_30 25 7 eq_refl).
Defined.

(** * Further properties of the range list *)

(** *** One canonical breakpoint list per intensity function *)

Lemma effective_head d k v rest :
  StronglySorted Z.lt (map fst ((k, v) :: rest)) ->
  effective d ((k, v) :: rest) k = v.
Proof.
  intros Hs. cbn [map fst] in Hs. apply sorted_cons in Hs. destruct Hs as [_ Hlt].
  cbn [effective]. rewrite Z.leb_refl. apply effective_none.
  intros k' Hk'. apply Hlt. assumption.
Qed.

Lemma canon_unique d l1 l2 :
  StronglySorted Z.lt (map fst l1) -> StronglySorted Z.lt (map fst l2) ->
  canon_from d l1 -> canon_from d l2 ->
  (forall p, effective d l1 p = effective d l2 p) ->
  l1 = l2.
Proof.
  revert d l2. induction l1 as [|[k1 v1] r1 IH]; intros d l2 Hs1 Hs2 Hc1 Hc2 He.
  - destruct l2 as [|[k2 v2] r2]; [reflexivity|]. exfalso.
    specialize (He k2). rewrite (effective_head d k2 v2 r2 Hs2) in He.
    simpl in He. destruct Hc2 as [Hc2 _]. congruence.
  - destruct l2 as [|[k2 v2] r2].
    + exfalso. specialize (He k1).
      rewrite (effective_head d k1 v1 r1 Hs1) in He.
      simpl in He. destruct Hc1 as [Hc1 _]. congruence.
    + destruct Hc1 as [Hn1 Hc1], Hc2 as [Hn2 Hc2].
      pose proof (effective_head d k1 v1 r1 Hs1) as E1.
      pose proof (effective_head d k2 v2 r2 Hs2) as E2.
      assert (Hk : k1 = k2).
      { destruct (Z.lt_trichotomy k1 k2) as [Hlt|[Heq|Hgt]]; [|assumption|].
        - exfalso. specialize (He k1). rewrite E1 in He. cbn [effective] in He.
          destruct (Z.leb_spec k2 k1); [lia|]. congruence.
        - exfalso. specialize (He k2). rewrite E2 in He. cbn [effective] in He.
          destruct (Z.leb_spec k1 k2); [lia|]. congruence. }
      subst k2.
      assert (Hv : v1 = v2) by (rewrite <- E1, <- E2; apply He). subst v2.
      f_equal. cbn [map fst] in Hs1, Hs2.
      apply sorted_cons in Hs1. apply sorted_cons in Hs2.
      destruct Hs1 as [Hs1 Hl1], Hs2 as [Hs2 Hl2].
      apply (IH v1); try assumption.
      intros p. destruct (Z.leb_spec k1 p) as [Hle|Hgt].
      * specialize (He p). cbn [effective] in He.
        destruct (Z.leb_spec k1 p); [assumption|lia].
      * rewrite !effective_none; [reflexivity| |].
        -- intros k' Hk'. specialize (Hl2 k' Hk'). lia.
        -- intros k' Hk'. specialize (Hl1 k' Hk'). lia.
Qed.

Lemma rl_inv_unique rl1 rl2 :
  rl_inv rl1 -> rl_inv rl2 ->
  (forall p, intensity rl1 p = intensity rl2 p) ->
  RangeList.toArray rl1 = RangeList.toArray rl2.
Proof.
  intros [Hw1 Hc1] [Hw2 Hc2] He.
  apply (canon_unique 0); try assumption; apply rl_wf_sorted; assumption.
Qed.

(** *** [add] and [set] as updates of the intensity function *)

Lemma add_inv rl from to amount :
  rl_inv rl ->
  exists rl',
    RangeList.add rl from to amount = Some rl' /\ rl_inv rl' /\
    forall p, intensity rl' p = intensity_step (intensity rl) (Add from to amount) p.
Proof.
  intros Hi. pose proof Hi as [Hw Hc].
  destruct (list_step_inv rl (Add from to amount) Hi) as (rl' & E & Hi').
  cbn [list_step] in E. exists rl'. split; [assumption|]. split; [assumption|].
  destruct (add_sem rl from to amount Hw) as (rl'' & E' & _ & Hnoop & Hdo).
  rewrite E in E'. injection E' as <-. intros p. cbn [intensity_step].
  destruct (Z.lt_ge_cases from to) as [Hlt|Hge].
  - destruct (Z.eq_dec amount 0) as [->|Hnz].
    + rewrite Hnoop by auto. rewrite js_add_0_r. destruct (_ && _); reflexivity.
    + apply (Hdo Hlt Hnz).
  - rewrite Hnoop by (left; lia).
    destruct (Z.leb_spec from p), (Z.ltb_spec p to); cbn [andb];
      try reflexivity; lia.
Qed.

Lemma set_inv rl from to amount :
  rl_inv rl ->
  exists rl',
    RangeList.set rl from to amount = Some rl' /\ rl_inv rl' /\
    forall p, intensity rl' p = intensity_step (intensity rl) (Set_ from to amount) p.
Proof.
  intros Hi. pose proof Hi as [Hw Hc].
  destruct (list_step_inv rl (Set_ from to amount) Hi) as (rl' & E & Hi').
  cbn [list_step] in E. exists rl'. split; [assumption|]. split; [assumption|].
  destruct (set_sem rl from to amount Hw) as (rl'' & E' & _ & Hnoop & Hdo).
  rewrite E in E'. injection E' as <-. intros p. cbn [intensity_step].
  destruct (Z.lt_ge_cases from to) as [Hlt|Hge].
  - destruct (Hdo Hlt) as (H1 & H2 & H3 & _).
    destruct (Z.leb_spec from p), (Z.ltb_spec p to); cbn [andb];
      [apply H1|apply H2|apply H3|apply H3]; lia.
  - rewrite Hnoop by lia.
    destruct (Z.leb_spec from p), (Z.ltb_spec p to); cbn [andb]; try reflexivity.
    lia.
Qed.

Lemma list_step_intensity rl c :
  rl_inv rl ->
  exists rl',
    list_step rl c = Some rl' /\ rl_inv rl' /\
    forall p, intensity rl' p = intensity_step (intensity rl) c p.
Proof.
  intros Hi. destruct c as [f t a|f t a]; cbn [list_step].
  - apply add_inv. assumption.
  - apply set_inv. assumption.
Qed.

Lemma intensity_step_ext f g c :
  (forall p, f p = g p) -> forall p, intensity_step f c p = intensity_step g c p.
Proof.
  intros H p. destruct c; cbn [intensity_step]; rewrite H; reflexivity.
Qed.

Lemma intensity_refines cs rl0 rl f0 :
  rl_inv rl0 -> (forall p, intensity rl0 p = f0 p) ->
  for_of list_step cs rl0 = Some rl ->
  rl_inv rl /\ forall p, intensity rl p = fold_left intensity_step cs f0 p.
Proof.
  revert rl0 f0. induction cs as [|c cs IH]; intros rl0 f0 Hi Hf E;
    cbn [for_of fold_left] in *.
  - injection E as <-. auto.
  - destruct (list_step_intensity rl0 c Hi) as (rl1 & E1 & Hi1 & Hf1).
    rewrite E1 in E. cbn [bind] in E.
    apply (IH rl1 (intensity_step f0 c) Hi1); [|assumption].
    intros p. rewrite Hf1. apply intensity_step_ext. assumption.
Qed.

Lemma intensity_after_support cs f0 B0 :
  (forall p, B0 <= p -> f0 p = 0) ->
  exists B, forall p, B <= p -> fold_left intensity_step cs f0 p = 0.
Proof.
  revert f0 B0. induction cs as [|c cs IH]; intros f0 B0 H0; cbn [fold_left].
  - exists B0. assumption.
  - destruct c as [f t a|f t a]; apply (IH _ (Z.max B0 t)); intros p Hp;
      cbn [intensity_step]; destruct (Z.ltb_spec p t); try lia;
      rewrite andb_false_r; apply H0; lia.
Qed.

Lemma effective_last d (pts : list (Z * Z)) p :
  StronglySorted Z.lt (map fst pts) -> pts <> [] ->
  fst (last pts (0, 0)) <= p ->
  effective d pts p = snd (last pts (0, 0)).
Proof.
  revert d. induction pts as [|[k v] rest IH]; intros d Hs Hne Hp; [congruence|].
  cbn [map fst] in Hs. apply sorted_cons in Hs. destruct Hs as [Hs Hlt].
  destruct rest as [|q rest'].
  - cbn [last fst snd effective] in *. destruct (Z.leb_spec k p); [reflexivity|lia].
  - change (last ((k, v) :: q :: rest') (0, 0)) with (last (q :: rest') (0, 0)) in *.
    assert (Hin : In (fst (last (q :: rest') (0, 0))) (map fst (q :: rest'))).
    { apply in_map. clear. generalize q. induction rest' as [|q' r IH]; intros q0.
      - simpl. auto.
      - right. apply IH. }
    specialize (Hlt _ Hin). cbn [effective].
    destruct (Z.leb_spec k p); [|lia]. apply IH; [assumption|discriminate|assumption].
Qed.

(** * Further theorems on RangeList.js *)


(** X18.  [toArray()] is a canonical form: two reachable range lists that
    have the same effective intensity at every position export the same
    array. *)
Theorem toArray_determined_by_intensity cs1 cs2 rl1 rl2 :
  list_after cs1 = Some rl1 -> list_after cs2 = Some rl2 ->
  (forall p, intensity rl1 p = intensity rl2 p) ->
  RangeList.toArray rl1 = RangeList.toArray rl2.
Proof.
  intros H1 H2 He. apply rl_inv_unique; try assumption.
  - apply (list_after_inv cs1). assumption.
  - apply (list_after_inv cs2). assumption.
Qed.

Lemma toArray_determined_by_intensity_witness :
  RangeList.toArray list_10_30 = RangeList.toArray list_10_20_30.
Proof.
  apply (toArray_determined_by_intensity [Add 10 30 1] [Add 10 20 1; Add 20 30 1]);
    [reflexivity|reflexivity|intros p; reflexivity].
Defined.

(** X20.  On a reachable range list, two [add] calls on ranges that do not
    overlap export the same array in either order. *)
Theorem add_commutes cs rl f1 t1 a1 f2 t2 a2 :
  list_after cs = Some rl ->
  t1 <= f2 \/ t2 <= f1 ->
  exists rl1 rl12 rl2 rl21,
    RangeList.add rl f1 t1 a1 = Some rl1 /\
    RangeList.add rl1 f2 t2 a2 = Some rl12 /\
    RangeList.add rl f2 t2 a2 = Some rl2 /\
    RangeList.add rl2 f1 t1 a1 = Some rl21 /\
    RangeList.toArray rl12 = RangeList.toArray rl21.
Proof.
  intros Hr Hd. apply list_after_inv in Hr.
  destruct (add_inv rl f1 t1 a1 Hr) as (rl1 & E1 & Hi1 & F1).
  destruct (add_inv rl1 f2 t2 a2 Hi1) as (rl12 & E12 & Hi12 & F12).
  destruct (add_inv rl f2 t2 a2 Hr) as (rl2 & E2 & Hi2 & F2).
  destruct (add_inv rl2 f1 t1 a1 Hi2) as (rl21 & E21 & Hi21 & F21).
  exists rl1, rl12, rl2, rl21. repeat (split; [assumption|]).
  apply rl_inv_unique; try assumption. intros p. rewrite F12, F21.
  cbn [intensity_step]. rewrite F1, F2. cbn [intensity_step].
  destruct (Z.leb_spec f1 p), (Z.ltb_spec p t1), (Z.leb_spec f2 p),
    (Z.ltb_spec p t2); cbn [andb]; try reflexivity; lia.
Qed.

Lemma add_commutes_witness :
  exists rl1 rl12 rl2 rl21,
    RangeList.add list_10_30 20 40 1 = Some rl1 /\
    RangeList.add rl1 0 15 (-3) = Some rl12 /\
    RangeList.add list_10_30 0 15 (-3) = Some rl2 /\
    RangeList.add rl2 20 40 1 = Some rl21 /\
    RangeList.toArray rl12 = RangeList.toArray rl21.
Proof.
  apply (add_commutes [Add 10 30 1] list_10_30 20 40 1 0 15 (-3));
    [reflexivity|right; lia].
Defined.

(** X21.  On a reachable range list, [set(from, to, amount)] wipes out any
    call made just before it on a range inside [[from, to)]: the exported
    array is the one [set(from, to, amount)] alone gives.  In particular a
    [set] made twice exports what it exports once. *)
Theorem set_overrides cs rl c f t x from to amount :
  list_after cs = Some rl ->
  c = Add f t x \/ c = Set_ f t x ->
  from <= f -> t <= to ->
  exists rl1 rl2 rl3,
    list_step rl c = Some rl1 /\
    RangeList.set rl1 from to amount = Some rl2 /\
    RangeList.set rl from to amount = Some rl3 /\
    RangeList.toArray rl2 = RangeList.toArray rl3.
Proof.
  intros Hr Hc Hf Ht. apply list_after_inv in Hr.
  destruct (list_step_intensity rl c Hr) as (rl1 & E1 & Hi1 & F1).
  destruct (set_inv rl1 from to amount Hi1) as (rl2 & E2 & Hi2 & F2).
  destruct (set_inv rl from to amount Hr) as (rl3 & E3 & Hi3 & F3).
  exists rl1, rl2, rl3. repeat (split; [assumption|]).
  apply rl_inv_unique; try assumption. intros p. rewrite F2, F3.
  cbn [intensity_step]. rewrite F1.
  destruct (Z.leb_spec from p), (Z.ltb_spec p to); cbn [andb]; try reflexivity;
    destruct Hc as [-> | ->]; cbn [intensity_step];
    destruct (Z.leb_spec f p), (Z.ltb_spec p t); cbn [andb]; lia.
Qed.

Lemma set_overrides_witness :
  exists rl1 rl2 rl3,
    list_step list_10_30 (Add 15 20 4) = Some rl1 /\
    RangeList.set rl1 12 25 5 = Some rl2 /\
    RangeList.set list_10_30 12 25 5 = Some rl3 /\
    RangeList.toArray rl2 = RangeList.toArray rl3.
Proof.
  apply (set_overrides [Add 10 30 1] list_10_30 (Add 15 20 4) 15 20 4 12 25 5);
    [reflexivity|left; reflexivity|lia|lia].
Defined.

(** X22.  On a fresh range list, [add(from, to, amount)] with [from < to] and
    [amount] other than 0 exports the two pairs [(from, amount)] and
    [(to, 0)], and so does [set(from, to, amount)]. *)
Theorem first_call_on_fresh_list from to amount :
  from < to -> amount <> 0 ->
  option_map RangeList.toArray (RangeList.add RangeList.new from to amount)
    = Some [(from, amount); (to, 0)] /\
  option_map RangeList.toArray (RangeList.set RangeList.new from to amount)
    = Some [(from, amount); (to, 0)].
Proof.
  intros Hlt Hnz.
  assert (Hs : StronglySorted Z.lt (map fst [(from, amount); (to, 0)])).
  { cbn [map fst]. apply sorted_cons. split.
    - apply sorted_cons. split; [constructor|]. intros y [].
    - intros y [<-|[]]. assumption. }
  assert (Hc : canon_from 0 [(from, amount); (to, 0)]).
  { simpl. repeat split; auto. }
  assert (He : forall p, effective 0 [(from, amount); (to, 0)] p =
                         if (from <=? p) && (p <? to) then amount else 0).
  { intros p. cbn [effective].
    destruct (Z.leb_spec from p), (Z.leb_spec to p), (Z.ltb_spec p to);
      cbn [andb]; try reflexivity; lia. }
  split.
  - destruct (add_inv RangeList.new from to amount rl_inv_new) as (rl' & -> & Hi & F).
    cbn [option_map]. f_equal. destruct Hi as [Hw Hc'].
    apply (canon_unique 0); try assumption; [apply rl_wf_sorted; assumption|].
    intros p. fold (intensity rl' p). rewrite F, He. cbn [intensity_step].
    reflexivity.
  - destruct (set_inv RangeList.new from to amount rl_inv_new) as (rl' & -> & Hi & F).
    cbn [option_map]. f_equal. destruct Hi as [Hw Hc'].
    apply (canon_unique 0); try assumption; [apply rl_wf_sorted; assumption|].
    intros p. fold (intensity rl' p). rewrite F, He. cbn [intensity_step].
    destruct (_ && _); reflexivity.
Qed.

Lemma first_call_on_fresh_list_witness :
  option_map RangeList.toArray (RangeList.add RangeList.new 10 30 1)
    = Some [(10, 1); (30, 0)] /\
  option_map RangeList.toArray (RangeList.set RangeList.new 10 30 1)
    = Some [(10, 1); (30, 0)].
Proof. apply (first_call_on_fresh_list 10 30 1); [lia|discriminate]. Defined.

(** X23.  After any sequence of [add] and [set] calls on a fresh range list,
    the exported array is empty or ends with a pair of intensity 0, and it
    never holds exactly one pair. *)
Theorem toArray_ends_with_zero cs :
  exists rl,
    list_after cs = Some rl /\
    snd (last (RangeList.toArray rl) (0, 0)) = 0 /\
    length (RangeList.toArray rl) <> 1%nat.
Proof.
  destruct (list_after_total cs) as (rl & E & Hi).
  exists rl. split; [assumption|].
  destruct (intensity_refines cs RangeList.new rl (fun _ => 0) rl_inv_new
              (fun _ => eq_refl) E) as [_ F].
  destruct (intensity_after_support cs (fun _ => 0) 0 (fun _ _ => eq_refl))
    as (B & HB).
  destruct Hi as [Hw Hc]. pose proof (rl_wf_sorted rl Hw) as Hs.
  assert (Hlast : snd (last (RangeList.toArray rl) (0, 0)) = 0).
  { destruct (RangeList.toArray rl) as [|q rest] eqn:Et; [reflexivity|].
    set (p := Z.max B (fst (last (q :: rest) (0, 0)))).
    rewrite <- (effective_last 0 (q :: rest) p Hs); [|discriminate|lia].
    rewrite <- Et. fold (intensity rl p). rewrite F. apply HB. lia. }
  split; [assumption|].
  destruct (RangeList.toArray rl) as [|[k v] [|q rest]]; cbn [length]; try lia.
  cbn [last snd] in Hlast. destruct Hc as [Hc _]. congruence.
Qed.

(** *** The private steps, on a range list over any reachable tree *)

Lemma redundantFrom_none points i toRemove :
  (forall j, (j < i)%nat ->
             snd (nth (S j) points (0, 0)) <> snd (nth j points (0, 0))) ->
  RangeList._redundantFrom points i toRemove = toRemove.
Proof.
  revert toRemove. induction i as [|i IH]; intros toRemove H; [reflexivity|].
  cbn [RangeList._redundantFrom].
  destruct (Z.eqb_spec (snd (nth (S i) points (0, 0))) (snd (nth i points (0, 0))))
    as [He|_].
  - exfalso. apply (H i); [lia|assumption].
  - apply IH. intros j Hj. apply H. lia.
Qed.

Lemma canon_from_nth d pts j :
  canon_from d pts -> (S j < length pts)%nat ->
  snd (nth (S j) pts (0, 0)) <> snd (nth j pts (0, 0)).
Proof.
  revert d j. induction pts as [|[k v] rest IH]; intros d j Hc Hj;
    [simpl in Hj; lia|].
  destruct Hc as [_ Hc]. destruct j as [|j].
  - destruct rest as [|[k' v'] rest']; [simpl in Hj; lia|].
    cbn [nth snd]. destruct Hc as [Hc _]. assumption.
  - cbn [nth]. apply (IH v); [assumption|simpl in Hj; lia].
Qed.

Lemma cleanup_of_canonical rl :
  canon_from 0 (RangeList.toArray rl) ->
  RangeList._cleanupRedundantPoints rl = Some rl.
Proof.
  intros Hc. unfold RangeList._cleanupRedundantPoints.
  fold (RangeList.toArray rl). set (pts := RangeList.toArray rl) in *.
  destruct (Nat.leb_spec (length pts) 1) as [Hlen|Hlen]; [reflexivity|].
  assert (H0 : snd (nth 0 pts (0, 0)) <> 0).
  { destruct pts as [|[k v] rest]; [simpl in Hlen; lia|]. apply Hc. }
  destruct (Z.eqb_spec (snd (nth 0 pts (0, 0))) 0) as [?|_]; [contradiction|].
  rewrite redundantFrom_none.
  - cbn [for_of bind]. destruct rl. reflexivity.
  - intros j Hj. apply (canon_from_nth 0); [assumption|lia].
Qed.

(** X24.  On a range list over any reachable tree, [_getIntensityAt(x)] is
    the effective intensity at [x]: the value of the stored pair with the
    greatest key not above [x], and 0 when every stored key is above [x]. *)
Theorem getIntensityAt_is_effective cs a x :
  tree_after cs = Some a ->
  RangeList._getIntensityAt (RangeList.mk a) x = intensity (RangeList.mk a) x /\
  forall o, floor_is (RangeList.toArray (RangeList.mk a)) x o ->
            RangeList._getIntensityAt (RangeList.mk a) x =
            match o with None => 0 | Some (_, v) => v end.
Proof.
  intros Hr. apply tree_after_inv in Hr.
  assert (E : RangeList._getIntensityAt (RangeList.mk a) x =
              intensity (RangeList.mk a) x)
    by (apply getIntensityAt_effective; apply Hr).
  split; [exact E|]. intros o Ho. rewrite E.
  apply effective_greatest; [|assumption]. apply (rl_wf_sorted (RangeList.mk a) Hr).
Qed.

Lemma getIntensityAt_is_effective_witness :
  RangeList._getIntensityAt list_on_tree_20_10_30 25 =
    intensity list_on_tree_20_10_30 25 /\
  forall o, floor_is (RangeList.toArray list_on_tree_20_10_30) 25 o ->
            RangeList._getIntensityAt list_on_tree_20_10_30 25 =
            match o with None => 0 | Some (_, v) => v end.
Proof.
  exact (getIntensityAt_is_effective [Insert 20 2; Insert 10 1; Insert 30 3]
           tree_20_10_30 25 eq_refl).
Defined.

(** X25.  On a range list over any reachable tree, [_getIntensityBefore(x)]
    is the value of the stored pair with the greatest key strictly below
    [x], and 0 when no stored key is below [x]; a pair stored at [x] itself
    is not looked at. *)
Theorem getIntensityBefore_is_pred_value cs a x :
  tree_after cs = Some a ->
  (forall p v,
     In (p, v) (RangeList.toArray (RangeList.mk a)) ->
     is_pred (map fst (RangeList.toArray (RangeList.mk a))) x p ->
     RangeList._getIntensityBefore (RangeList.mk a) x = v) /\
  ((forall q, In q (map fst (RangeList.toArray (RangeList.mk a))) -> x <= q) ->
   RangeList._getIntensityBefore (RangeList.mk a) x = 0).
Proof.
  intros Hr. apply tree_after_inv in Hr. pose proof Hr as [Hb _].
  pose proof (wf_sorted a Hr) as Hs.
  unfold RangeList._getIntensityBefore, RangeList.toArray, findLessThan.
  cbn [RangeList.tree]. rewrite inOrderTraversal_inorder in *.
  fold (keys (root a)) in *.
  destruct (findLessThan_spec (root a) x null Hb)
    as [[-> Hall]|(fl & fk & fv & fh & fr & -> & Hin & Hp)].
  - split; [|reflexivity]. intros p v _ (Hp1 & Hp2 & _).
    specialize (Hall p Hp1). lia.
  - split.
    + intros p v Hin' Hp'. rewrite <- (is_pred_unique _ _ _ _ Hp Hp') in Hin'.
      apply (sorted_unique_value _ _ _ _ Hs Hin Hin').
    + intros Hall. destruct Hp as (Hp1 & Hp2 & _). specialize (Hall fk Hp1). lia.
Qed.

Lemma getIntensityBefore_is_pred_value_witness :
  (forall p v,
     In (p, v) (RangeList.toArray list_on_tree_20_10_30) ->
     is_pred (map fst (RangeList.toArray list_on_tree_20_10_30)) 20 p ->
     RangeList._getIntensityBefore list_on_tree_20_10_30 20 = v) /\
  ((forall q, In q (map fst (RangeList.toArray list_on_tree_20_10_30)) -> 20 <= q) ->
   RangeList._getIntensityBefore list_on_tree_20_10_30 20 = 0).
Proof.
  exact (getIntensityBefore_is_pred_value [Insert 20 2; Insert 10 1; Insert 30 3]
           tree_20_10_30 20 eq_refl).
Defined.

(** X26.  On a range list over any reachable tree, [_ensurePointExists(x)]
    returns normally.  If [x] is a stored key it changes nothing; if not, it
    adds the one pair [(x, intensity at x)] and keeps every other pair.
    Either way [x] is a stored key afterwards and the effective intensity is
    what it was at every position. *)
Theorem ensurePointExists_adds_neutral_point cs a x :
  tree_after cs = Some a ->
  exists rl',
    RangeList._ensurePointExists (RangeList.mk a) x = Some rl' /\
    (In x (map fst (RangeList.toArray (RangeList.mk a))) -> rl' = RangeList.mk a) /\
    (forall k v,
       In (k, v) (RangeList.toArray rl') <->
       In (k, v) (RangeList.toArray (RangeList.mk a)) \/
       (k = x /\ v = intensity (RangeList.mk a) x /\
        ~ In x (map fst (RangeList.toArray (RangeList.mk a))))) /\
    In x (map fst (RangeList.toArray rl')) /\
    (forall p, intensity rl' p = intensity (RangeList.mk a) p).
Proof.
  intros Hr. apply tree_after_inv in Hr. set (rl := RangeList.mk a).
  assert (Hw : rl_wf rl) by exact Hr. pose proof Hw as [Hb Ha].
  pose proof (rl_wf_sorted rl Hw) as Hs.
  destruct (ensurePointExists_spec rl x Hw) as (rl' & E & Hw' & Hx & _ & Hi).
  exists rl'. split; [assumption|].
  unfold RangeList._ensurePointExists in E.
  pose proof (findNearest_computed (RangeList.tree rl) x Hb) as (Hres & Hin & _).
  fold (RangeList.toArray rl) in Hres, Hin.
  destruct (in_dec Z.eq_dec x (map fst (RangeList.toArray rl))) as [Hst|Hst].
  - destruct (Hin Hst) as (v0 & Ev).
    destruct (findNearest (RangeList.tree rl) x) as [|nl nk nv nh nr];
      [discriminate|].
    injection Ev as -> ->. rewrite Z.eqb_refl in E. cbn [negb] in E.
    injection E as <-. split; [reflexivity|]. split; [|split; assumption].
    intros k v. tauto.
  - assert (Hm : match findNearest (RangeList.tree rl) x with
                 | null => true
                 | Node _ k _ _ _ => negb (k =? x)
                 end = true).
    { destruct (findNearest (RangeList.tree rl) x) as [|nl nk nv nh nr];
        [reflexivity|].
      destruct (Z.eqb_spec nk x) as [->|]; [|reflexivity].
      exfalso. apply Hst. apply (in_keys _ _ nv). apply Hres. reflexivity. }
    rewrite Hm in E.
    destruct (insert_wf (RangeList.tree rl) x (RangeList._getIntensityAt rl x) Hw)
      as (a' & Ea & _ & Hins).
    rewrite Ea in E. cbn [bind] in E. injection E as <-.
    split; [contradiction|]. split; [|split; assumption].
    intros k v. unfold RangeList.toArray at 1. cbn [RangeList.tree].
    rewrite Hins. fold (RangeList.toArray rl).
    rewrite (in_ins k v x _ _ Hs), (getIntensityAt_effective rl x Hb).
    split.
    + intros [[-> ->]|[_ H]]; auto.
    + intros [H|(-> & -> & _)]; [|auto].
      destruct (Z.eq_dec k x) as [->|Hne]; [|auto].
      exfalso. apply Hst. apply (in_keys _ _ _ H).
Qed.

Lemma ensurePointExists_adds_neutral_point_witness :
  exists rl',
    RangeList._ensurePointExists list_on_tree_20_10_30 25 = Some rl' /\
    (In 25 (map fst (RangeList.toArray list_on_tree_20_10_30)) ->
     rl' = list_on_tree_20_10_30) /\
    (forall k v,
       In (k, v) (RangeList.toArray rl') <->
       In (k, v) (RangeList.toArray list_on_tree_20_10_30) \/
       (k = 25 /\ v = intensity list_on_tree_20_10_30 25 /\
        ~ In 25 (map fst (RangeList.toArray list_on_tree_20_10_30)))) /\
    In 25 (map fst (RangeList.toArray rl')) /\
    (forall p, intensity rl' p = intensity list_on_tree_20_10_30 p).
Proof.
  exact (ensurePointExists_adds_neutral_point
           [Insert 20 2; Insert 10 1; Insert 30 3] tree_20_10_30 25 eq_refl).
Defined.

(** X27.  On a range list over any reachable tree, [_removePointsInRange(from,
    to)] returns normally and removes exactly the pairs whose key lies
    strictly between [from] and [to]; pairs at [from], at [to] and outside
    stay, in their order. *)
Theorem removePointsInRange_removes_interior cs a from to :
  tree_after cs = Some a ->
  exists rl',
    RangeList._removePointsInRange (RangeList.mk a) from to = Some rl' /\
    RangeList.toArray rl' =
      filter (fun p => negb (inside from to (fst p)))
             (RangeList.toArray (RangeList.mk a)) /\
    forall k v,
      In (k, v) (RangeList.toArray rl') <->
      In (k, v) (RangeList.toArray (RangeList.mk a)) /\ ~ from < k < to.
Proof.
  intros Hr. apply tree_after_inv in Hr.
  destruct (removePointsInRange_spec (RangeList.mk a) from to Hr)
    as (rl' & E & _ & Et).
  exists rl'. split; [assumption|]. split; [assumption|].
  intros k v. rewrite Et, filter_In. cbn [fst].
  rewrite negb_true_iff, <- not_true_iff_false.
  unfold inside. rewrite andb_true_iff, Z.gtb_lt, Z.ltb_lt. tauto.
Qed.

Lemma removePointsInRange_removes_interior_witness :
  exists rl',
    RangeList._removePointsInRange list_on_tree_20_10_30 10 30 = Some rl' /\
    RangeList.toArray rl' =
      filter (fun p => negb (inside 10 30 (fst p)))
             (RangeList.toArray list_on_tree_20_10_30) /\
    forall k v,
      In (k, v) (RangeList.toArray rl') <->
      In (k, v) (RangeList.toArray list_on_tree_20_10_30) /\ ~ 10 < k < 30.
Proof.
  exact (removePointsInRange_removes_interior
           [Insert 20 2; Insert 10 1; Insert 30 3] tree_20_10_30 10 30 eq_refl).
Defined.



(** X29.  On a range list over any reachable tree,
    [_cleanupRedundantPoints()] returns normally and keeps the effective
    intensity at every position.  With at most one stored pair it changes
    nothing (a lone pair of intensity 0 stays); with two or more, the pairs
    left have no two neighbours of equal intensity and do not start with
    intensity 0.  Run a second time, it changes nothing. *)
Theorem cleanupRedundantPoints_canonicalizes cs a :
  tree_after cs = Some a ->
  exists rl',
    RangeList._cleanupRedundantPoints (RangeList.mk a) = Some rl' /\
    (forall p, intensity rl' p = intensity (RangeList.mk a) p) /\
    ((length (RangeList.toArray (RangeList.mk a)) <= 1)%nat ->
     rl' = RangeList.mk a) /\
    ((2 <= length (RangeList.toArray (RangeList.mk a)))%nat ->
     no_adjacent_equal (RangeList.toArray rl') /\
     first_nonzero (RangeList.toArray rl')) /\
    RangeList._cleanupRedundantPoints rl' = Some rl'.
Proof.
  intros Hr. apply tree_after_inv in Hr. set (rl := RangeList.mk a).
  assert (Hw : rl_wf rl) by exact Hr.
  destruct (cleanup_sem rl Hw) as (rl' & E & Hw' & Hi & Hc).
  exists rl'. split; [assumption|]. split; [assumption|].
  assert (Hshort : (length (RangeList.toArray rl) <= 1)%nat -> rl' = rl).
  { intros Hlen. unfold RangeList._cleanupRedundantPoints in E.
    fold (RangeList.toArray rl) in E.
    destruct (Nat.leb_spec (length (RangeList.toArray rl)) 1); [|lia].
    congruence. }
  split; [assumption|]. split.
  - intros Hlen. apply canon_from_canonical. apply Hc. assumption.
  - destruct (Nat.le_gt_cases (length (RangeList.toArray rl)) 1) as [Hlen|Hlen].
    + pose proof (Hshort Hlen) as Hsame. rewrite Hsame in E |- *. exact E.
    + apply cleanup_of_canonical. apply Hc. lia.
Qed.

Lemma cleanupRedundantPoints_canonicalizes_witness :
  exists rl',
    RangeList._cleanupRedundantPoints list_on_tree_20_10_30 = Some rl' /\
    (forall p, intensity rl' p = intensity list_on_tree_20_10_30 p) /\
    ((length (RangeList.toArray list_on_tree_20_10_30) <= 1)%nat ->
     rl' = list_on_tree_20_10_30) /\
    ((2 <= length (RangeList.toArray list_on_tree_20_10_30))%nat ->
     no_adjacent_equal (RangeList.toArray rl') /\
     first_nonzero (RangeList.toArray rl')) /\
    RangeList._cleanupRedundantPoints rl' = Some rl'.
Proof.
  exact (cleanupRedundantPoints_canonicalizes
           [Insert 20 2; Insert 10 1; Insert 30 3] tree_20_10_30 eq_refl).
Defined.
